(** * Spotify playback-transfer worker: token lifecycle and resilient request core

    A shallow embedding of [src/storage.ts], [src/spotify.ts],
    [src/security.ts] and [src/index.ts], together with the properties that
    the specification states about them and further properties of the code.

    Layout: the JavaScript values and built-ins the code relies on (JSON,
    [Number], [Headers]), the world the worker talks to (KV namespace, clock,
    token endpoint, resource API), the source files, and then the lemmas
    and theorems. *)

From Stdlib Require Import ZArith Ascii String Decimal Lia.
From Stdlib Require DecimalString DecimalFacts DecimalPos DecimalZ.
From stdpp Require Import base option strings list gmap.

Set Warnings "-register-all".

Local Open Scope string_scope.
Local Open Scope Z_scope.

(* ===================================================================== *)
(** ** JavaScript strings and numbers

    A JavaScript string is modelled as a [string] of 8-bit code units
    (U+0000..U+00FF); a JavaScript number as the integer [Z] it denotes.
    Fractions, infinities and NaN have no counterpart in [Z]: where a
    built-in would produce one, the model says so explicitly (see
    [Outcome] and [PResult] below) instead of inventing a value.  A record
    member of type [number] that the caller supplies can hold any number:
    it has the type [number] below, the integers together with the three
    numbers that are not finite. *)

Definition dquote : ascii := "034"%char.
Definition backslash : ascii := "092"%char.

(** [!s] for a string: only the empty string is falsy. *)
Definition truthy_string (s : string) : bool :=
  match s with EmptyString => false | String _ _ => true end.

(** [!v] for a value of static type [string] that may be [undefined] at run
    time ([None]). *)
Definition truthy_opt_string (v : option string) : bool :=
  match v with Some s => truthy_string s | None => false end.

(** [!n] for an integer number: only zero is falsy. *)
Definition truthy_number (n : Z) : bool := negb (n =? 0).

(** A value of type [number]: an integer, [Infinity], [-Infinity] or
    [NaN]. *)
Inductive number : Type :=
| Int (n : Z)
| Infinity
| NegInfinity
| NaN.

(** [!n] for a [number]: zero and [NaN] are falsy. *)
Definition number_truthy (n : number) : bool :=
  match n with
  | Int n => truthy_number n
  | Infinity | NegInfinity => true
  | NaN => false
  end.

(** [a > b] for an integer [b]: [NaN] compares false with everything. *)
Definition number_gtb (a : number) (b : Z) : bool :=
  match a with
  | Int n => n >? b
  | Infinity => true
  | NegInfinity | NaN => false
  end.

(** [a || b] on values of type [string | undefined]. *)
Definition or_opt_string (a b : option string) : option string :=
  if truthy_opt_string a then a else b.

(* ===================================================================== *)
(** ** JSON values, [JSON.stringify] and [JSON.parse] *)

Inductive JValue : Type :=
| JNull
| JBool (b : bool)
| JNum (n : Z)
| JStr (s : string)
| JArr (elems : list JValue)
| JObj (members : list (string * JValue)).

(** *** Printing *)

Definition hex_digit (n : N) : ascii :=
  if (n <? 10)%N then ascii_of_N (48 + n) else ascii_of_N (87 + n).

(** QuoteJSONString, one code unit at a time. *)
Definition quote_char (c : ascii) : string :=
  let n := N_of_ascii c in
  if (n =? 8)%N then String backslash "b"
  else if (n =? 9)%N then String backslash "t"
  else if (n =? 10)%N then String backslash "n"
  else if (n =? 12)%N then String backslash "f"
  else if (n =? 13)%N then String backslash "r"
  else if (n =? 34)%N then String backslash (String dquote "")
  else if (n =? 92)%N then String backslash (String backslash "")
  else if (n <? 32)%N then
    String backslash
      (String "u" (String "0" (String "0"
         (String (hex_digit (n / 16)) (String (hex_digit (n mod 16)) "")))))
  else String c "".

Fixpoint quote_chars (s : string) : string :=
  match s with
  | EmptyString => EmptyString
  | String c s' => quote_char c +:+ quote_chars s'
  end.

Definition quote_string (s : string) : string :=
  String dquote (quote_chars s +:+ String dquote "").

(** Number::toString for an integer: decimal digits, a leading minus sign
    (JavaScript prints integers this way below 10^21). *)
Definition number_to_string (n : Z) : string :=
  DecimalString.NilZero.string_of_int (Z.to_int n).

Fixpoint join_comma (parts : list string) : string :=
  match parts with
  | [] => ""
  | [p] => p
  | p :: rest => p +:+ "," +:+ join_comma rest
  end.

Fixpoint JSON_stringify (v : JValue) : string :=
  match v with
  | JNull => "null"
  | JBool true => "true"
  | JBool false => "false"
  | JNum n => number_to_string n
  | JStr s => quote_string s
  | JArr elems =>
      "[" +:+ join_comma (List.map JSON_stringify elems) +:+ "]"
  | JObj members =>
      "{" +:+ join_comma
               (List.map (fun kv => quote_string (fst kv) +:+ ":" +:+ JSON_stringify (snd kv))
                  members) +:+ "}"
  end.

(** *** Parsing

    A parse either succeeds with a value and the unread input, fails with a
    SyntaxError, or meets text whose value the model cannot represent (a
    number with a fraction or an exponent, a [\u] escape above U+00FF).
    The recursive descent is driven by fuel; [POutOfFuel] tells a parse that
    ran out of it from the other three, and [JSON_parse] provides enough for
    that never to happen ([JSON_parse_has_fuel] below). *)

Inductive PResult (A : Type) : Type :=
| POk (a : A) (rest : string)
| PSyntaxError
| PUnmodelled
| POutOfFuel.
Arguments POk {A} a rest.
Arguments PSyntaxError {A}.
Arguments PUnmodelled {A}.
Arguments POutOfFuel {A}.

Definition pbind {A B} (r : PResult A) (k : A -> string -> PResult B) : PResult B :=
  match r with
  | POk a rest => k a rest
  | PSyntaxError => PSyntaxError
  | PUnmodelled => PUnmodelled
  | POutOfFuel => POutOfFuel
  end.

Definition pmap {A B} (f : A -> B) (r : PResult A) : PResult B :=
  pbind r (fun a rest => POk (f a) rest).

Definition is_ws (c : ascii) : bool :=
  let n := N_of_ascii c in
  (n =? 32)%N || (n =? 9)%N || (n =? 10)%N || (n =? 13)%N.

Fixpoint skip_ws (s : string) : string :=
  match s with
  | String c s' => if is_ws c then skip_ws s' else s
  | EmptyString => EmptyString
  end.

Definition hex_value (c : ascii) : option N :=
  let n := N_of_ascii c in
  if (48 <=? n)%N && (n <=? 57)%N then Some (n - 48)%N
  else if (97 <=? n)%N && (n <=? 102)%N then Some (n - 87)%N
  else if (65 <=? n)%N && (n <=? 70)%N then Some (n - 55)%N
  else None.

Definition hex4 (h1 h2 h3 h4 : ascii) : option N :=
  match hex_value h1, hex_value h2, hex_value h3, hex_value h4 with
  | Some a, Some b, Some c, Some d => Some (((a * 16 + b) * 16 + c) * 16 + d)%N
  | _, _, _, _ => None
  end.

(** The character a two-character escape stands for. *)
Definition simple_escape (e : ascii) : option ascii :=
  let n := N_of_ascii e in
  if (n =? 34)%N then Some dquote
  else if (n =? 92)%N then Some backslash
  else if (n =? 47)%N then Some "/"%char
  else if (n =? 98)%N then Some "008"%char
  else if (n =? 102)%N then Some "012"%char
  else if (n =? 110)%N then Some "010"%char
  else if (n =? 114)%N then Some "013"%char
  else if (n =? 116)%N then Some "009"%char
  else None.

(** The characters of a string literal, after its opening quote. *)
Fixpoint parse_string_chars (s : string) : PResult string :=
  match s with
  | EmptyString => PSyntaxError
  | String c s' =>
      if Ascii.eqb c dquote then POk "" s'
      else if Ascii.eqb c backslash then
        match s' with
        | EmptyString => PSyntaxError
        | String e s'' =>
            match simple_escape e with
            | Some c' => pmap (String c') (parse_string_chars s'')
            | None =>
                if Ascii.eqb e "u" then
                  match s'' with
                  | String h1 (String h2 (String h3 (String h4 s3))) =>
                      match hex4 h1 h2 h3 h4 with
                      | Some n =>
                          if (n <? 256)%N
                          then pmap (String (ascii_of_N n)) (parse_string_chars s3)
                          else PUnmodelled
                      | None => PSyntaxError
                      end
                  | _ => PSyntaxError
                  end
                else PSyntaxError
            end
        end
      else if (N_of_ascii c <? 32)%N then PSyntaxError
      else pmap (String c) (parse_string_chars s')
  end.

Definition digit_of (c : ascii) : option (uint -> uint) :=
  let n := N_of_ascii c in
  if (n =? 48)%N then Some D0 else if (n =? 49)%N then Some D1
  else if (n =? 50)%N then Some D2 else if (n =? 51)%N then Some D3
  else if (n =? 52)%N then Some D4 else if (n =? 53)%N then Some D5
  else if (n =? 54)%N then Some D6 else if (n =? 55)%N then Some D7
  else if (n =? 56)%N then Some D8 else if (n =? 57)%N then Some D9
  else None.

(** The longest run of decimal digits at the head of [s]. *)
Fixpoint scan_digits (s : string) : uint * string :=
  match s with
  | EmptyString => (Nil, EmptyString)
  | String c s' =>
      match digit_of c with
      | Some k => let '(d, rest) := scan_digits s' in (k d, rest)
      | None => (Nil, s)
      end
  end.

Definition starts_fraction_or_exponent (s : string) : bool :=
  match s with
  | String c _ => Ascii.eqb c "." || Ascii.eqb c "e" || Ascii.eqb c "E"
  | EmptyString => false
  end.

(** The digits of a JSON number, after its optional minus sign: [0] or a run
    of digits without a leading zero. *)
Definition parse_unsigned (s : string) : PResult Z :=
  match scan_digits s with
  | (Nil, _) => PSyntaxError
  | (D0 Nil, rest) =>
      if starts_fraction_or_exponent rest then PUnmodelled else POk 0 rest
  | (D0 _, _) => PSyntaxError
  | (d, rest) =>
      if starts_fraction_or_exponent rest then PUnmodelled else POk (Z.of_uint d) rest
  end.

Definition parse_number (s : string) : PResult Z :=
  match s with
  | String c s' =>
      if Ascii.eqb c "-" then pmap Z.opp (parse_unsigned s') else parse_unsigned s
  | EmptyString => PSyntaxError
  end.

(** What is left of [s] after its prefix [lit]. *)
Fixpoint strip_prefix (lit s : string) : option string :=
  match lit with
  | EmptyString => Some s
  | String c lit' =>
      match s with
      | String d s' => if Ascii.eqb c d then strip_prefix lit' s' else None
      | EmptyString => None
      end
  end.

Definition expect_literal (lit : string) (v : JValue) (s : string) : PResult JValue :=
  match strip_prefix lit s with
  | Some rest => POk v rest
  | None => PSyntaxError
  end.

(** Recursive descent over values, array elements and object members.  The
    fuel bounds the number of nested or chained calls. *)
Fixpoint parse_value (fuel : nat) (s : string) : PResult JValue :=
  match fuel with
  | O => POutOfFuel
  | S fuel' =>
      match skip_ws s with
      | EmptyString => PSyntaxError
      | String c rest =>
          if Ascii.eqb c "{" then
            match skip_ws rest with
            | String c' rest' =>
                if Ascii.eqb c' "}" then POk (JObj []) rest'
                else pmap JObj (parse_members fuel' rest)
            | EmptyString => PSyntaxError
            end
          else if Ascii.eqb c "[" then
            match skip_ws rest with
            | String c' rest' =>
                if Ascii.eqb c' "]" then POk (JArr []) rest'
                else pmap JArr (parse_elements fuel' rest)
            | EmptyString => PSyntaxError
            end
          else if Ascii.eqb c dquote then pmap JStr (parse_string_chars rest)
          else if Ascii.eqb c "n" then expect_literal "null" JNull (String c rest)
          else if Ascii.eqb c "t" then expect_literal "true" (JBool true) (String c rest)
          else if Ascii.eqb c "f" then expect_literal "false" (JBool false) (String c rest)
          else pmap JNum (parse_number (String c rest))
      end
  end
with parse_members (fuel : nat) (s : string) : PResult (list (string * JValue)) :=
  match fuel with
  | O => POutOfFuel
  | S fuel' =>
      match skip_ws s with
      | String c r0 =>
          if Ascii.eqb c dquote then
            pbind (parse_string_chars r0) (fun k r1 =>
              match skip_ws r1 with
              | String c1 r2 =>
                  if Ascii.eqb c1 ":" then
                    pbind (parse_value fuel' r2) (fun v r3 =>
                      match skip_ws r3 with
                      | String c3 r4 =>
                          if Ascii.eqb c3 "," then pmap (cons (k, v)) (parse_members fuel' r4)
                          else if Ascii.eqb c3 "}" then POk [(k, v)] r4
                          else PSyntaxError
                      | EmptyString => PSyntaxError
                      end)
                  else PSyntaxError
              | EmptyString => PSyntaxError
              end)
          else PSyntaxError
      | EmptyString => PSyntaxError
      end
  end
with parse_elements (fuel : nat) (s : string) : PResult (list JValue) :=
  match fuel with
  | O => POutOfFuel
  | S fuel' =>
      pbind (parse_value fuel' s) (fun v r1 =>
        match skip_ws r1 with
        | String c r2 =>
            if Ascii.eqb c "," then pmap (cons v) (parse_elements fuel' r2)
            else if Ascii.eqb c "]" then POk [v] r2
            else PSyntaxError
        | EmptyString => PSyntaxError
        end)
  end.

(** [JSON.parse(text)]: one value, surrounded by optional white space. *)
Definition JSON_parse (text : string) : PResult JValue :=
  pbind (parse_value (S (2 * String.length text)) text) (fun v rest =>
    match skip_ws rest with
    | EmptyString => POk v ""
    | String _ _ => PSyntaxError
    end).

(** [v.key] for a parsed value that is an object: the last member of that
    name wins, [None] is [undefined]. *)
Fixpoint lookup_member (key : string) (members : list (string * JValue)) : option JValue :=
  match members with
  | [] => None
  | (k, v) :: rest =>
      match lookup_member key rest with
      | Some v' => Some v'
      | None => if String.eqb k key then Some v else None
      end
  end.

(** [!v] for a property read: [undefined], [null], [false], [0] and [""]
    are falsy, every array and object is truthy. *)
Definition truthy (v : option JValue) : bool :=
  match v with
  | None | Some JNull => false
  | Some (JBool b) => b
  | Some (JNum n) => truthy_number n
  | Some (JStr s) => truthy_string s
  | Some (JArr _) | Some (JObj _) => true
  end.


(** *** [Number(text)] on a string

    StringToNumber: surrounding white space is dropped, the empty string is
    0, a decimal or prefixed integer literal has its value, anything else is
    NaN.  Only integers written as plain decimal digits have a value in the
    model; the other numeric literals are recognised and reported as such. *)

Inductive JsNumber : Type :=
| NumInt (n : Z)
| NumNaN
| NumOther.

Definition is_js_space (c : ascii) : bool :=
  let n := N_of_ascii c in
  ((9 <=? n)%N && (n <=? 13)%N) || (n =? 32)%N || (n =? 160)%N.

Fixpoint trim_left (s : string) : string :=
  match s with
  | String c s' => if is_js_space c then trim_left s' else s
  | EmptyString => EmptyString
  end.

(** Drops trailing white space: a character stays when something other than
    white space follows it or it is not white space itself. *)
Fixpoint trim_right (s : string) : string :=
  match s with
  | EmptyString => EmptyString
  | String c s' =>
      match trim_right s' with
      | EmptyString => if is_js_space c then EmptyString else String c EmptyString
      | t => String c t
      end
  end.

Definition trim (s : string) : string := trim_right (trim_left s).

Definition strip_sign (s : string) : bool * string :=
  match s with
  | String c s' =>
      if Ascii.eqb c "-" then (true, s')
      else if Ascii.eqb c "+" then (false, s')
      else (false, s)
  | EmptyString => (false, EmptyString)
  end.

Definition is_exponent_part (s : string) : bool :=
  match s with
  | String c s' =>
      (Ascii.eqb c "e" || Ascii.eqb c "E") &&
      (let '(d, rest) := scan_digits (snd (strip_sign s')) in
       match d, rest with
       | Nil, _ => false
       | _, EmptyString => true
       | _, String _ _ => false
       end)
  | EmptyString => false
  end.

(** StrUnsignedDecimalLiteral other than a plain run of digits. *)
Definition is_other_decimal (s : string) : bool :=
  if String.eqb s "Infinity" then true
  else
    let '(int_part, r1) := scan_digits s in
    match r1 with
    | String c r2 =>
        if Ascii.eqb c "." then
          let '(frac_part, r3) := scan_digits r2 in
          match int_part, frac_part with
          | Nil, Nil => false
          | _, _ => match r3 with EmptyString => true | _ => is_exponent_part r3 end
          end
        else match int_part with Nil => false | _ => is_exponent_part r1 end
    | EmptyString => false
    end.

Fixpoint all_chars (p : ascii -> bool) (s : string) : bool :=
  match s with
  | EmptyString => true
  | String c s' => p c && all_chars p s'
  end.

(** NonDecimalIntegerLiteral: [0x], [0o] or [0b] and at least one digit. *)
Definition is_non_decimal (s : string) : bool :=
  match s with
  | String z (String p (String d ds)) =>
      Ascii.eqb z "0" &&
      (let digits := String d ds in
       ((Ascii.eqb p "x" || Ascii.eqb p "X") &&
          all_chars (fun c => match hex_value c with Some _ => true | None => false end) digits)
       || ((Ascii.eqb p "o" || Ascii.eqb p "O") &&
          all_chars (fun c => (48 <=? N_of_ascii c)%N && (N_of_ascii c <=? 55)%N) digits)
       || ((Ascii.eqb p "b" || Ascii.eqb p "B") &&
          all_chars (fun c => (48 <=? N_of_ascii c)%N && (N_of_ascii c <=? 49)%N) digits))
  | _ => false
  end.

Definition Number_of_string (text : string) : JsNumber :=
  let s := trim text in
  match s with
  | EmptyString => NumInt 0
  | String _ _ =>
      let '(negative, body) := strip_sign s in
      match scan_digits body with
      | (Nil, _) =>
          if is_other_decimal body || is_non_decimal s then NumOther else NumNaN
      | (d, EmptyString) => NumInt (if negative then - Z.of_uint d else Z.of_uint d)
      | (_, String _ _) =>
          if is_other_decimal body || is_non_decimal s then NumOther else NumNaN
      end
  end.

Definition lower_char (c : ascii) : ascii :=
  let n := N_of_ascii c in
  if (65 <=? n)%N && (n <=? 90)%N then ascii_of_N (n + 32) else c.

Fixpoint lower (s : string) : string :=
  match s with
  | EmptyString => EmptyString
  | String c s' => String (lower_char c) (lower s')
  end.


(* ===================================================================== *)
(** ** The world of the worker

    Everything outside the worker is part of an explicit [World]: the
    contents of the KV namespace, the successive readings of the clock and
    the successive replies of the two HTTP services.  A reply list that runs
    out behaves as an unreachable network.  [trace] records, oldest first,
    what the worker did; it is only ever appended to. *)

(** [Response]: the status line, the headers under their lower-cased names,
    and the body text. *)
Record Response : Type := {
  status : Z;
  headers : gmap string string;
  body : string
}.

(** [response.ok] *)
Definition ok (response : Response) : bool :=
  (200 <=? status response) && (status response <=? 299).

(** [headers.get(name)]: header names are matched without regard to case. *)
Definition Headers_get (h : gmap string string) (name : string) : option string :=
  h !! lower name.

(** The JSON body of a token-endpoint reply; [None] is an absent member. *)
Record TokenData : Type := {
  data_access_token : option string;
  data_refresh_token : option string;
  data_expires_in : option Z
}.

(** A reply of the token endpoint: the request is rejected (network error),
    or a response with a status and a body; [token_json = None] is a body
    that [response.json()] rejects. *)
Record TokenResponse : Type := {
  token_status : Z;
  token_json : option TokenData
}.

Inductive TokenReply : Type :=
| TokenNetworkError
| TokenHttp (response : TokenResponse).

Inductive ApiReply : Type :=
| ApiNetworkError
| ApiHttp (response : Response).

Inductive Grant : Type :=
| AuthorizationCode (code redirect_uri : string)
| RefreshToken (refresh_token : string).

(** [RequestInit] and the headers object spread into it. *)
Record RequestInit : Type := {
  method : string;
  init_headers : list (string * string);
  init_body : option string
}.

(** What the trace records: an entry into [refreshAccessToken], a request
    to the token endpoint, a request to the resource API, a [sleep], and an
    invocation of the [makeRequest] handed to [retryTransfer]. *)
Inductive Event : Type :=
| EvRefreshCall (refreshToken : option string)
| EvTokenRequest (client_id client_secret : string) (grant : Grant)
| EvApiRequest (url : string) (init : RequestInit)
| EvSleep (ms : Z)
| EvMakeRequest.

(** [kv]: the text stored under each key of [TOKENS_KV].
    [kv_faults]: for each operation on the namespace still to come, whether
    the namespace rejects it; none is rejected once the list is used up.
    [time]: the last reading of the clock, in milliseconds since the epoch.
    [clock]: the readings to come; once they are used up the clock stands.
    [Date_parse_host]: [Date.parse] of the host, [None] for NaN.
    [token_endpoint], [api]: the replies to come of the token endpoint and
    of the resource API. *)
Record World : Type := {
  kv : gmap string string;
  kv_faults : list bool;
  time : Z;
  clock : list Z;
  Date_parse_host : string -> option Z;
  token_endpoint : list TokenReply;
  api : list ApiReply;
  trace : list Event
}.

(** Errors that the code creates with [new Error(...)], named after their
    messages, and errors that a built-in raises: a rejected [fetch], a
    rejected KV operation, [JSON.parse] or [response.json()] on text that is
    not JSON, a property read on [null] or a body given to a response that
    may have none, a status that [new Response] does not take, a malformed
    escape in [decodeURIComponent]. *)
Inductive JsError : Type :=
| ClientCredentialsNotConfigured
| TokenExchangeFailed (http_status : Z)
| TokenRefreshFailed (http_status : Z)
| InvalidTokenStructure
| FailedToSaveTokens
| NoAccessTokenAvailable
| NetworkError
| KVError
| SyntaxError
| TypeError
| RangeError
| URIError.

(** The result of running a piece of code: it returns, it throws, or it
    leaves the fragment of JavaScript that the model covers. *)
Inductive Outcome (A : Type) : Type :=
| Returned (a : A)
| Thrown (e : JsError)
| Unmodelled.
Arguments Returned {A} a.
Arguments Thrown {A} e.
Arguments Unmodelled {A}.

Definition M (A : Type) : Type := World -> Outcome A * World.

#[export] Instance M_ret : MRet M := fun A a w => (Returned a, w).
#[export] Instance M_bind : MBind M := fun A B k m w =>
  match m w with
  | (Returned a, w') => k a w'
  | (Thrown e, w') => (Thrown e, w')
  | (Unmodelled, w') => (Unmodelled, w')
  end.

Definition throw {A} (e : JsError) : M A := fun w => (Thrown e, w).
Definition unmodelled {A} : M A := fun w => (Unmodelled, w).

(** [try { body } catch (error) { handler }] *)
Definition try_catch {A} (body : M A) (handler : JsError -> M A) : M A := fun w =>
  match body w with
  | (Thrown e, w') => handler e w'
  | other => other
  end.

Definition log (ev : Event) : M unit := fun w =>
  (Returned tt,
   {| kv := kv w; kv_faults := kv_faults w; time := time w; clock := clock w;
      Date_parse_host := Date_parse_host w; token_endpoint := token_endpoint w;
      api := api w; trace := trace w ++ [ev] |}).

(** [Date.now()], in milliseconds. *)
Definition Date_now : M Z := fun w =>
  match clock w with
  | [] => (Returned (time w), w)
  | t :: later =>
      (Returned t,
       {| kv := kv w; kv_faults := kv_faults w; time := t; clock := later;
          Date_parse_host := Date_parse_host w; token_endpoint := token_endpoint w;
          api := api w; trace := trace w |})
  end.

(** [Date.parse(text)]; [None] is NaN. *)
Definition Date_parse (text : string) : M (option Z) := fun w =>
  (Returned (Date_parse_host w text), w).

(** One operation on the KV namespace takes the next fault flag. *)
Definition kv_fault : M bool := fun w =>
  match kv_faults w with
  | [] => (Returned false, w)
  | f :: later =>
      (Returned f,
       {| kv := kv w; kv_faults := later; time := time w; clock := clock w;
          Date_parse_host := Date_parse_host w; token_endpoint := token_endpoint w;
          api := api w; trace := trace w |})
  end.

Definition kv_lookup (key : string) : M (option string) := fun w =>
  (Returned (kv w !! key), w).

Definition kv_store (key value : string) : M unit := fun w =>
  (Returned tt,
   {| kv := <[key := value]> (kv w); kv_faults := kv_faults w; time := time w;
      clock := clock w; Date_parse_host := Date_parse_host w;
      token_endpoint := token_endpoint w; api := api w; trace := trace w |}).

(** [env.TOKENS_KV.get(key)] *)
Definition KV_get (key : string) : M (option string) :=
  fault ← kv_fault;
  if fault : bool then throw KVError else kv_lookup key.

(** [env.TOKENS_KV.put(key, value)] *)
Definition KV_put (key value : string) : M unit :=
  fault ← kv_fault;
  if fault : bool then throw KVError else kv_store key value.

Definition next_token_reply : M TokenResponse := fun w =>
  match token_endpoint w with
  | [] => (Thrown NetworkError, w)
  | reply :: later =>
      let w' :=
        {| kv := kv w; kv_faults := kv_faults w; time := time w; clock := clock w;
           Date_parse_host := Date_parse_host w; token_endpoint := later;
           api := api w; trace := trace w |} in
      match reply with
      | TokenNetworkError => (Thrown NetworkError, w')
      | TokenHttp response => (Returned response, w')
      end
  end.

Definition next_api_reply : M Response := fun w =>
  match api w with
  | [] => (Thrown NetworkError, w)
  | reply :: later =>
      let w' :=
        {| kv := kv w; kv_faults := kv_faults w; time := time w; clock := clock w;
           Date_parse_host := Date_parse_host w; token_endpoint := token_endpoint w;
           api := later; trace := trace w |} in
      match reply with
      | ApiNetworkError => (Thrown NetworkError, w')
      | ApiHttp response => (Returned response, w')
      end
  end.

(** [fetch(SPOTIFY_TOKEN_URL, ...)] *)
Definition fetch_token (client_id client_secret : string) (grant : Grant) : M TokenResponse :=
  log (EvTokenRequest client_id client_secret grant);; next_token_reply.

(** [fetch(url, init)] against the resource API *)
Definition fetch (url : string) (init : RequestInit) : M Response :=
  log (EvApiRequest url init);; next_api_reply.

(** [JSON.parse(text)] as a step of the program *)
Definition JSON_parse_M (text : string) : M JValue :=
  match JSON_parse text with
  | POk v _ => mret v
  | PSyntaxError => throw SyntaxError
  | PUnmodelled | POutOfFuel => unmodelled
  end.

(** [v.key] for one of the member names the code reads, none of which is a
    built-in property of strings, numbers, booleans or arrays. *)
Definition get_property (v : JValue) (key : string) : M (option JValue) :=
  match v with
  | JNull => throw TypeError
  | JObj members => mret (lookup_member key members)
  | _ => mret None
  end.

(** [response.ok] and [response.json()] for a token-endpoint response *)
Definition token_ok (response : TokenResponse) : bool :=
  (200 <=? token_status response) && (token_status response <=? 299).

Definition token_response_json (response : TokenResponse) : M TokenData :=
  match token_json response with
  | Some data => mret data
  | None => throw SyntaxError
  end.

(** A [string | undefined] inside a template literal or a form body. *)
Definition template (v : option string) : string :=
  match v with Some s => s | None => "undefined" end.

(** [n || fallback] for an optional number *)
Definition or_number (n : option Z) (fallback : Z) : Z :=
  match n with
  | Some n => if truthy_number n then n else fallback
  | None => fallback
  end.

(** [{ ...obj, key: value }] on an object kept as a list of members *)
Fixpoint assign (key value : string) (obj : list (string * string)) : list (string * string) :=
  match obj with
  | [] => [(key, value)]
  | (k, v) :: rest => if String.eqb k key then (k, value) :: rest else (k, v) :: assign key value rest
  end.

(* ===================================================================== *)
(** ** src/storage.ts *)

(** [interface Tokens].  The two token members are filled from untyped
    response data, so at run time they may hold [undefined], here [None];
    the checks in [readTokens] and [writeTokens] are what rules that out.
    [expires_at] is declared a [number], and nothing keeps a caller of
    [writeTokens] from passing one that is not finite. *)
Record Tokens : Type := {
  access_token : option string;
  refresh_token : option string;
  expires_at : number
}.

(** [interface Env]; a binding that is not configured reads [undefined].
    The KV namespace behind [TOKENS_KV] is the [kv] of the world. *)
Record Env : Type := {
  SPOTIFY_CLIENT_ID : option string;
  SPOTIFY_CLIENT_SECRET : option string;
  SPOTIFY_REDIRECT_URI : option string;
  AUTOMATION_KEY : option string;
  BASE_URL : option string
}.

Definition TOKENS_KEY : string := "spotify_tokens".

(** What [JSON.stringify] makes of a number: one that is not finite is
    serialised as [null]. *)
Definition number_to_JSON (n : number) : JValue :=
  match n with
  | Int n => JNum n
  | Infinity | NegInfinity | NaN => JNull
  end.

(** The object handed to [JSON.stringify]: members in the order the code
    writes them, a member holding [undefined] left out. *)
Definition Tokens_to_JSON (tokens : Tokens) : JValue :=
  JObj (omap (fun kv : string * option JValue => pair (fst kv) <$> snd kv)
          [("access_token", JStr <$> access_token tokens);
           ("refresh_token", JStr <$> refresh_token tokens);
           ("expires_at", Some (number_to_JSON (expires_at tokens)))]).

(** [readTokens].  The parsed value is returned under the type [Tokens];
    a record that passes the check with a member of another type than the
    interface declares is outside the model. *)
Definition readTokens (env : Env) : M (option Tokens) :=
  try_catch
    (data ← KV_get TOKENS_KEY;
     if negb (truthy_opt_string data) then mret None
     else
       tokens ← JSON_parse_M (default "" data);
       a ← get_property tokens "access_token";
       r ← get_property tokens "refresh_token";
       e ← get_property tokens "expires_at";
       if negb (truthy a) || negb (truthy r) || negb (truthy e) then mret None
       else
         match a, r, e with
         | Some (JStr a), Some (JStr r), Some (JNum e) =>
             mret (Some {| access_token := Some a; refresh_token := Some r;
                           expires_at := Int e |})
         | _, _, _ => unmodelled
         end)
    (fun error => mret None).

(** [writeTokens] *)
Definition writeTokens (tokens : Tokens) (env : Env) : M unit :=
  try_catch
    (if negb (truthy_opt_string (access_token tokens))
        || negb (truthy_opt_string (refresh_token tokens))
        || negb (number_truthy (expires_at tokens))
     then throw InvalidTokenStructure
     else
       let data := JSON_stringify (Tokens_to_JSON tokens) in
       KV_put TOKENS_KEY data)
    (fun error => throw FailedToSaveTokens).

(* ===================================================================== *)
(** ** src/spotify.ts (the module that [index.ts] imports as [./spotify]) *)

Definition SPOTIFY_API_BASE : string := "https://api.spotify.com/v1".

(** [exchangeCodeForTokens] *)
Definition exchangeCodeForTokens (code redirectUri : string) (env : Env) : M Tokens :=
  let clientId := SPOTIFY_CLIENT_ID env in
  let clientSecret := SPOTIFY_CLIENT_SECRET env in
  if negb (truthy_opt_string clientId) || negb (truthy_opt_string clientSecret)
  then throw ClientCredentialsNotConfigured
  else
    response ← fetch_token (template clientId) (template clientSecret)
                 (AuthorizationCode code redirectUri);
    if negb (token_ok response) then throw (TokenExchangeFailed (token_status response))
    else
      data ← token_response_json response;
      now ← Date_now;
      mret {| access_token := data_access_token data;
              refresh_token := data_refresh_token data;
              expires_at := Int (now `div` 1000 + or_number (data_expires_in data) 3600) |}.

(** [refreshAccessToken].  The first step only records the call in the
    trace. *)
Definition refreshAccessToken (refreshToken : option string) (env : Env) : M Tokens :=
  log (EvRefreshCall refreshToken);;
  let clientId := SPOTIFY_CLIENT_ID env in
  let clientSecret := SPOTIFY_CLIENT_SECRET env in
  if negb (truthy_opt_string clientId) || negb (truthy_opt_string clientSecret)
  then throw ClientCredentialsNotConfigured
  else
    response ← fetch_token (template clientId) (template clientSecret)
                 (RefreshToken (template refreshToken));
    if negb (token_ok response) then throw (TokenRefreshFailed (token_status response))
    else
      data ← token_response_json response;
      currentTokens ← readTokens env;
      now ← Date_now;
      mret {| access_token := data_access_token data;
              refresh_token :=
                or_opt_string
                  (or_opt_string (data_refresh_token data) (currentTokens ≫= refresh_token))
                  refreshToken;
              expires_at := Int (now `div` 1000 + or_number (data_expires_in data) 3600) |}.

(** [getAccessToken] *)
Definition getAccessToken (env : Env) : M (option string) :=
  tokens ← readTokens env;
  match tokens with
  | None => mret None
  | Some tokens =>
      now_ms ← Date_now;
      let now := now_ms `div` 1000 in
      if number_gtb (expires_at tokens) (now + 60) then mret (access_token tokens)
      else
        try_catch
          (newTokens ← refreshAccessToken (refresh_token tokens) env;
           writeTokens newTokens env;;
           mret (access_token newTokens))
          (fun error => mret None)
  end.

(** The [RequestInit] of an authenticated call: the caller's options with
    the two headers set. *)
Definition with_bearer (options : RequestInit) (token : option string) : RequestInit :=
  {| method := method options;
     init_headers :=
       assign "Content-Type" "application/json"
         (assign "Authorization" ("Bearer " +:+ template token) (init_headers options));
     init_body := init_body options |}.

(** [spotifyFetch].  The retry is [return fetch(...)] without [await]: a
    rejection of that request is not seen by the surrounding [catch], so
    only the refresh and the write are inside [try_catch]. *)
Definition spotifyFetch (path : string) (options : RequestInit) (env : Env) : M Response :=
  accessToken ← getAccessToken env;
  if negb (truthy_opt_string accessToken) then throw NoAccessTokenAvailable
  else
    let url := if String.prefix "http" path then path else SPOTIFY_API_BASE +:+ path in
    response ← fetch url (with_bearer options accessToken);
    if status response =? 401 then
      tokens ← readTokens env;
      match tokens with
      | None => mret response
      | Some tokens =>
          refreshed ←
            try_catch
              (newTokens ← refreshAccessToken (refresh_token tokens) env;
               writeTokens newTokens env;;
               mret (Some (access_token newTokens)))
              (fun error => mret None);
          match refreshed with
          | Some refreshedToken => fetch url (with_bearer options refreshedToken)
          | None => mret response
          end
      end
    else mret response.

(** [isPremiumRequiredError] *)
Definition isPremiumRequiredError (response : Response) : bool :=
  status response =? 403.

(* ===================================================================== *)
(** ** src/index.ts: the transfer retry policy *)

Definition TRANSFER_RETRY_ATTEMPTS : Z := 3.
Definition TRANSFER_RETRY_BASE_DELAY_MS : Z := 350.
Definition TRANSFER_RETRY_MAX_DELAY_MS : Z := 2000.

(** [sleep]: the wait is recorded, time itself is whatever the clock of the
    world reads next. *)
Definition sleep (ms : Z) : M unit := log (EvSleep ms).

(** [shouldRetryTransfer] *)
Definition shouldRetryTransfer (response : Response) : bool :=
  if (status response =? 404) || (status response =? 429) then true
  else (status response >=? 500) && (status response <=? 504).

(** [getRetryDelayMs].  [Math.pow(2, attempt - 1)] is an integer from the
    first attempt on; below that it is a fraction, outside the model, as is
    a [Retry-After] that [Number] reads as anything but an integer or NaN. *)
Definition getRetryDelayMs (attempt : Z) (response : option Response) : M Z :=
  let exponential : M Z :=
    if attempt <? 1 then unmodelled
    else
      let delay := TRANSFER_RETRY_BASE_DELAY_MS * 2 ^ (attempt - 1) in
      mret (Z.min delay TRANSFER_RETRY_MAX_DELAY_MS) in
  match response with
  | Some response =>
      if status response =? 429 then
        match Headers_get (headers response) "Retry-After" with
        | Some retryAfter =>
            if truthy_string retryAfter then
              match Number_of_string retryAfter with
              | NumInt seconds =>
                  mret (Z.min (seconds * 1000) TRANSFER_RETRY_MAX_DELAY_MS)
              | NumOther => unmodelled
              | NumNaN =>
                  retryDate ← Date_parse retryAfter;
                  match retryDate with
                  | Some retryDate =>
                      now ← Date_now;
                      let delta := retryDate - now in
                      if delta >? 0 then mret (Z.min delta TRANSFER_RETRY_MAX_DELAY_MS)
                      else exponential
                  | None => exponential
                  end
              end
            else exponential
        | None => exponential
        end
      else exponential
  | None => exponential
  end.

(** The response built after the loop: [new Response('Transfer retry
    attempts exhausted', { status: 500 })]. *)
Definition exhausted_response : Response :=
  {| status := 500; headers := ∅; body := "Transfer retry attempts exhausted" |}.

(** The body of the [for] loop of [retryTransfer] over the attempt numbers
    still to run.  An iteration either leaves the function with a response
    ([inl]) or goes on to the next attempt with the value of
    [lastResponse] ([inr]). *)
Fixpoint retry_attempts (makeRequest : M Response) (attempts : list Z)
    (lastResponse : option Response) : M Response :=
  match attempts with
  | [] => mret (default exhausted_response lastResponse)
  | attempt :: later =>
      step ←
        try_catch
          (response ← makeRequest;
           if ok response || negb (shouldRetryTransfer response)
              || (attempt =? TRANSFER_RETRY_ATTEMPTS)
           then mret (inl response)
           else
             delayMs ← getRetryDelayMs attempt (Some response);
             sleep delayMs;;
             mret (inr (Some response)))
          (fun error =>
             if attempt =? TRANSFER_RETRY_ATTEMPTS then throw error
             else
               delayMs ← getRetryDelayMs attempt None;
               sleep delayMs;;
               mret (inr lastResponse));
      match step with
      | inl response => mret response
      | inr last => retry_attempts makeRequest later last
      end
  end.

(** [retryTransfer]: [for (attempt = 1; attempt <= TRANSFER_RETRY_ATTEMPTS; attempt++)] *)
Definition retryTransfer (makeRequest : M Response) : M Response :=
  retry_attempts makeRequest (seqZ 1 TRANSFER_RETRY_ATTEMPTS) None.

(* ===================================================================== *)
(** ** More built-ins: strings, [btoa], [decodeURIComponent], [URLSearchParams] *)

(** [s.split(sep)] for a separator of one character. *)
Fixpoint split_on (sep : ascii) (s : string) : list string :=
  match s with
  | EmptyString => [EmptyString]
  | String c s' =>
      if Ascii.eqb c sep then EmptyString :: split_on sep s'
      else
        match split_on sep s' with
        | part :: parts => String c part :: parts
        | [] => [String c EmptyString]
        end
  end.

(** [parts.join(sep)] *)
Fixpoint join_with (sep : string) (parts : list string) : string :=
  match parts with
  | [] => ""
  | [p] => p
  | p :: rest => p +:+ sep +:+ join_with sep rest
  end.

(** [s.includes(sub)] *)
Fixpoint includes (sub s : string) : bool :=
  String.prefix sub s
  || match s with
     | String _ s' => includes sub s'
     | EmptyString => false
     end.

(** [s.toLowerCase()] on code units up to U+00FF: the letters A..Z and the
    capital letters U+00C0..U+00DE other than the multiplication sign. *)
Definition toLowerCase_char (c : ascii) : ascii :=
  let n := N_of_ascii c in
  if ((65 <=? n)%N && (n <=? 90)%N)
     || ((192 <=? n)%N && (n <=? 222)%N && negb (n =? 215)%N)
  then ascii_of_N (n + 32) else c.

Fixpoint toLowerCase (s : string) : string :=
  match s with
  | EmptyString => EmptyString
  | String c s' => String (toLowerCase_char c) (toLowerCase s')
  end.

(** [s.replace(/c/g, by)] for a pattern that is one literal character. *)
Fixpoint replace_char (c : ascii) (by_ : string) (s : string) : string :=
  match s with
  | EmptyString => EmptyString
  | String x s' =>
      if Ascii.eqb x c then by_ +:+ replace_char c by_ s'
      else String x (replace_char c by_ s')
  end.

(** The base64 alphabet. *)
Definition base64_char (n : N) : ascii :=
  if (n <? 26)%N then ascii_of_N (65 + n)
  else if (n <? 52)%N then ascii_of_N (71 + n)
  else if (n <? 62)%N then ascii_of_N (n - 4)
  else if (n =? 62)%N then "+"%char
  else "/"%char.

(** [btoa(s)]: three code units at a time, the last group padded. *)
Fixpoint btoa (s : string) : string :=
  match s with
  | EmptyString => EmptyString
  | String a EmptyString =>
      let x := N_of_ascii a in
      String (base64_char (x / 4))
        (String (base64_char (x mod 4 * 16)) "==")
  | String a (String b EmptyString) =>
      let x := N_of_ascii a in
      let y := N_of_ascii b in
      String (base64_char (x / 4))
        (String (base64_char (x mod 4 * 16 + y / 16))
           (String (base64_char (y mod 16 * 4)) "="))
  | String a (String b (String c rest)) =>
      let x := N_of_ascii a in
      let y := N_of_ascii b in
      let z := N_of_ascii c in
      String (base64_char (x / 4))
        (String (base64_char (x mod 4 * 16 + y / 16))
           (String (base64_char (y mod 16 * 4 + z / 64))
              (String (base64_char (z mod 64)) (btoa rest))))
  end.

(** The result of a built-in that may raise a URIError;
    [DecodeUnmodelled] is text whose decoding has code points above
    U+00FF. *)
Inductive Decoded (A : Type) : Type :=
| DecodedOk (a : A)
| DecodeURIError
| DecodeUnmodelled.
Arguments DecodedOk {A} a.
Arguments DecodeURIError {A}.
Arguments DecodeUnmodelled {A}.

Definition dbind {A B} (d : Decoded A) (k : A -> Decoded B) : Decoded B :=
  match d with
  | DecodedOk a => k a
  | DecodeURIError => DecodeURIError
  | DecodeUnmodelled => DecodeUnmodelled
  end.

Definition dmap {A B} (f : A -> B) (d : Decoded A) : Decoded B :=
  dbind d (fun a => DecodedOk (f a)).

(** The byte written as two hexadecimal digits. *)
Definition hex_byte (h1 h2 : ascii) : option N :=
  match hex_value h1, hex_value h2 with
  | Some a, Some b => Some (a * 16 + b)%N
  | _, _ => None
  end.

(** [decodeURIComponent(s)].  An escape below [%80] is the character with
    that code; [%C2] and [%C3] start the two-byte UTF-8 form of U+0080 to
    U+00FF; a lone continuation byte, an overlong form and a lead byte from
    [%F8] on are errors; the remaining lead bytes start a code point above
    U+00FF (or an error). *)
Fixpoint decodeURIComponent (s : string) : Decoded string :=
  match s with
  | EmptyString => DecodedOk EmptyString
  | String c s' =>
      if Ascii.eqb c "%" then
        match s' with
        | String h1 (String h2 rest) =>
            match hex_byte h1 h2 with
            | Some byte =>
                if (byte <? 128)%N
                then dmap (String (ascii_of_N byte)) (decodeURIComponent rest)
                else if (byte =? 194)%N || (byte =? 195)%N then
                  match rest with
                  | String p (String k1 (String k2 rest')) =>
                      if Ascii.eqb p "%" then
                        match hex_byte k1 k2 with
                        | Some cont =>
                            if (128 <=? cont)%N && (cont <=? 191)%N
                            then dmap (String (ascii_of_N ((byte - 192) * 64 + (cont - 128))))
                                   (decodeURIComponent rest')
                            else DecodeURIError
                        | None => DecodeURIError
                        end
                      else DecodeURIError
                  | _ => DecodeURIError
                  end
                else if (byte <? 194)%N || (248 <=? byte)%N then DecodeURIError
                else DecodeUnmodelled
            | None => DecodeURIError
            end
        | _ => DecodeURIError
        end
      else dmap (String c) (decodeURIComponent s')
  end.

Definition upper_hex_digit (n : N) : ascii :=
  if (n <? 10)%N then ascii_of_N (48 + n) else ascii_of_N (55 + n).

Definition percent_byte (b : N) : string :=
  String "%" (String (upper_hex_digit (b / 16)) (String (upper_hex_digit (b mod 16)) "")).

(** The application/x-www-form-urlencoded serialisation of one code unit:
    letters, digits and [* - . _] stand for themselves, a space is [+], and
    every other character is the percent-encoding of its UTF-8 bytes. *)
Definition form_urlencode_char (c : ascii) : string :=
  let n := N_of_ascii c in
  if (n =? 32)%N then "+"
  else if ((48 <=? n)%N && (n <=? 57)%N) || ((65 <=? n)%N && (n <=? 90)%N)
          || ((97 <=? n)%N && (n <=? 122)%N)
          || (n =? 42)%N || (n =? 45)%N || (n =? 46)%N || (n =? 95)%N
  then String c ""
  else if (n <? 128)%N then percent_byte n
  else percent_byte (192 + n / 64) +:+ percent_byte (128 + n mod 64).

Fixpoint form_urlencode (s : string) : string :=
  match s with
  | EmptyString => EmptyString
  | String c s' => form_urlencode_char c +:+ form_urlencode s'
  end.

(** [new URLSearchParams(record).toString()] *)
Definition URLSearchParams_toString (entries : list (string * string)) : string :=
  join_with "&"
    (List.map (fun entry => form_urlencode (fst entry) +:+ "=" +:+ form_urlencode (snd entry))
       entries).

(** [params.get(name)]: the value of the first entry of that name. *)
Fixpoint URLSearchParams_get (name : string) (entries : list (string * string))
    : option string :=
  match entries with
  | [] => None
  | (k, v) :: rest => if String.eqb k name then Some v else URLSearchParams_get name rest
  end.

(** *** JSON read from a body and written back

    [JSON.stringify] of a value that [JSON.parse] produced prints the
    members of an object in property order.  That is the order of the text
    when no member name occurs twice and none is an array index; integers
    are exact up to 2^53.  Text outside these bounds is outside the
    model. *)

Definition all_digits (s : string) : bool :=
  truthy_string s && all_chars (fun c => match digit_of c with Some _ => true | None => false end) s.

Fixpoint distinct (names : list string) : bool :=
  match names with
  | [] => true
  | name :: rest => negb (existsb (String.eqb name) rest) && distinct rest
  end.

Fixpoint canonical (v : JValue) : bool :=
  match v with
  | JNum n => Z.abs n <=? 9007199254740992
  | JArr elems => forallb canonical elems
  | JObj members =>
      forallb (fun member => negb (all_digits (fst member)) && canonical (snd member)) members
      && distinct (List.map fst members)
  | _ => true
  end.

(** [await body.json()] on the text of a request or response body *)
Definition json_of (text : string) : M JValue :=
  v ← JSON_parse_M text;
  if canonical v then mret v else unmodelled.

(* ===================================================================== *)
(** ** The request the worker is handed

    [pathname] and [searchParams] are those of [new URL(request.url)]; the
    headers are kept under their lower-cased names. *)
Record Request : Type := {
  request_method : string;
  pathname : string;
  searchParams : list (string * string);
  request_headers : gmap string string;
  request_body : string
}.

(** [new Response(body, { status, headers })].  A status outside 200..599
    is a RangeError; a body together with a null-body status is a
    TypeError. *)
Definition null_body_status (status : Z) : bool :=
  (status =? 101) || (status =? 103) || (status =? 204) || (status =? 205) || (status =? 304).

Definition new_Response (body : option string) (status : Z) (headers : gmap string string)
    : M Response :=
  if (status <? 200) || (599 <? status) then throw RangeError
  else
    match body with
    | Some text =>
        if null_body_status status then throw TypeError
        else mret {| status := status; headers := headers; body := text |}
    | None => mret {| status := status; headers := headers; body := "" |}
    end.

(* ===================================================================== *)
(** ** src/security.ts *)

(** [checkAutomationKey]: [providedKey] is a string or [null], the binding
    a string or [undefined]; [===] holds for two equal strings only. *)
Definition checkAutomationKey (request : Request) (env : Env) : bool :=
  let providedKey := Headers_get (request_headers request) "X-Automation-Key" in
  match providedKey, AUTOMATION_KEY env with
  | Some provided, Some key => String.eqb provided key
  | _, _ => false
  end.

(** [generateState].  [array] is the [Uint8Array] as
    [crypto.getRandomValues] filled it. *)
Definition generateState (array : list ascii) : string :=
  let base64 := fold_left (fun acc byte => acc +:+ String byte "") array "" in
  let base64url :=
    replace_char "=" "" (replace_char "/" "_" (replace_char "+" "-" (btoa base64))) in
  base64url.

(** One round of the [forEach] in [parseCookies].  An assignment to
    [cookies["__proto__"]] of a string leaves the object as it is. *)
Definition parseCookie (cookies : gmap string string) (cookie : string)
    : Decoded (gmap string string) :=
  match split_on "=" (trim cookie) with
  | name :: valueParts =>
      if truthy_string name && (0 <? Z.of_nat (length valueParts)) then
        dmap (fun value =>
                if String.eqb name "__proto__" then cookies else <[name := value]> cookies)
          (decodeURIComponent (join_with "=" valueParts))
      else DecodedOk cookies
  | [] => DecodedOk cookies
  end.

(** [parseCookies] *)
Definition parseCookies (cookieHeader : option string) : Decoded (gmap string string) :=
  if negb (truthy_opt_string cookieHeader) then DecodedOk ∅
  else
    fold_left (fun acc cookie => dbind acc (fun cookies => parseCookie cookies cookie))
      (split_on ";" (default "" cookieHeader)) (DecodedOk ∅).

(** [getStateCookie] *)
Definition getStateCookie (request : Request) : Decoded (option string) :=
  let cookieHeader := Headers_get (request_headers request) "Cookie" in
  dmap (fun cookies => or_opt_string (cookies !! "oauth_state") None)
    (parseCookies cookieHeader).

(** [createStateCookie] *)
Definition createStateCookie (state : string) : string :=
  let maxAge := 600 in
  "oauth_state=" +:+ state +:+ "; HttpOnly; Secure; SameSite=Lax; Max-Age="
    +:+ number_to_string maxAge +:+ "; Path=/".

(** [clearStateCookie] *)
Definition clearStateCookie : string :=
  "oauth_state=; HttpOnly; Secure; SameSite=Lax; Max-Age=0; Path=/".

(** [validateState] *)
Definition validateState (stored : option string) (received : string) : bool :=
  match stored with
  | Some stored => String.eqb stored received
  | None => false
  end.

(* ===================================================================== *)
(** ** src/spotify.ts: the authorization URL and the error message *)

Definition SPOTIFY_AUTH_URL : string := "https://accounts.spotify.com/authorize".

(** [buildAuthorizeUrl] *)
Definition buildAuthorizeUrl (state : string) (env : Env) : string :=
  let params :=
    [("response_type", "code");
     ("client_id", template (SPOTIFY_CLIENT_ID env));
     ("redirect_uri", template (SPOTIFY_REDIRECT_URI env));
     ("scope", "user-read-playback-state user-modify-playback-state");
     ("state", state)] in
  SPOTIFY_AUTH_URL +:+ "?" +:+ URLSearchParams_toString params.

(** [value?.key] *)
Definition optional_property (v : option JValue) (key : string) : M (option JValue) :=
  match v with
  | None | Some JNull => mret None
  | Some v => get_property v key
  end.

Section handlers.
(** [response.statusText], which [Response] does not record, and the text
    of the HTML pages of [handleCallback]. *)
Context (statusText : Response -> string).

(** [getSpotifyErrorMessage].  What it returns is typed [string]; at run
    time it is whatever value the body holds under [error.message]. *)
Definition getSpotifyErrorMessage (response : Response) : M JValue :=
  found ←
    try_catch
      (data ← json_of (body response);
       error ← get_property data "error";
       message ← optional_property error "message";
       if truthy message then mret message
       else
         error_status ← optional_property error "status";
         match error_status with
         | Some (JNum 403) =>
             mret (Some (JStr "Spotify Premium is required for playback control"))
         | _ => mret None
         end)
      (fun _ => mret None);
  match found with
  | Some message => mret message
  | None =>
      mret (JStr ("Spotify API error: " +:+ number_to_string (status response) +:+ " "
                    +:+ statusText response))
  end.

(* ===================================================================== *)
(** ** src/index.ts: responses and route handlers *)

(** [addCorsHeaders] *)
Definition addCorsHeaders (response : Response) : Response :=
  {| status := status response;
     headers :=
       <["access-control-allow-headers" := "Content-Type, X-Automation-Key"]>
         (<["access-control-allow-methods" := "GET, POST, OPTIONS"]>
            (<["access-control-allow-origin" := "*"]> (headers response)));
     body := body response |}.

(** [jsonError] *)
Definition jsonError (code : string) (message : JValue) (status : Z) : M Response :=
  let body :=
    JSON_stringify
      (JObj [("ok", JBool false);
             ("error", JObj [("code", JStr code); ("message", message)])]) in
  new_Response (Some body) status {[ "content-type" := "application/json" ]}.

(** [jsonSuccess], with its default status *)
Definition jsonSuccess (data : JValue) : M Response :=
  let body := JSON_stringify data in
  new_Response (Some body) 200 {[ "content-type" := "application/json" ]}.

(** [handleOptions] *)
Definition handleOptions : M Response :=
  response ← new_Response None 204 ∅;
  mret (addCorsHeaders response).

(** [handleHealth] *)
Definition handleHealth : M Response :=
  jsonSuccess (JObj [("ok", JBool true)]).

(** [handleLogin]; [array] as in [generateState]. *)
Definition handleLogin (array : list ascii) (request : Request) (env : Env) : M Response :=
  let state := generateState array in
  let authUrl := buildAuthorizeUrl state env in
  new_Response None 302
    {[ "location" := authUrl; "set-cookie" := createStateCookie state ]}.

(** The object of one device in the 409 answer and in the success answer
    of [handleTransferEcho]: a member holding [undefined] is left out. *)
Definition device_summary (device : JValue) (name : string) : JValue :=
  match device with
  | JObj members =>
      match lookup_member "id" members with
      | Some id => JObj [("id", id); ("name", JStr name)]
      | None => JObj [("name", JStr name)]
      end
  | _ => JObj [("name", JStr name)]
  end.

(** [device.id] inside an array literal: [undefined] is printed as [null]. *)
Definition device_id (device : JValue) : JValue :=
  match device with
  | JObj members => default JNull (lookup_member "id" members)
  | _ => JNull
  end.

(** [devices.filter(...)] of [handleTransferEcho], keeping each device
    with its name.  A device without a string under [name] is a TypeError. *)
Fixpoint echo_devices (devices : list JValue) : M (list (JValue * string)) :=
  match devices with
  | [] => mret []
  | device :: rest =>
      name ← get_property device "name";
      match name with
      | Some (JStr name) =>
          kept ← echo_devices rest;
          if includes "echo" (toLowerCase name) || includes "dot" (toLowerCase name)
          then mret ((device, name) :: kept)
          else mret kept
      | _ => throw TypeError
      end
  end.

(** The request that transfers playback. *)
Definition transfer_init (device : JValue) (play : JValue) : RequestInit :=
  {| method := "PUT"; init_headers := [];
     init_body :=
       Some (JSON_stringify (JObj [("device_ids", JArr [device]); ("play", play)])) |}.

Definition devices_init : RequestInit :=
  {| method := "GET"; init_headers := []; init_body := None |}.

(** The answer to a transfer that was not [ok], shared by [handleTransfer]
    and [handleTransferEcho]. *)
Definition transfer_failure (response : Response) : M Response :=
  if isPremiumRequiredError response then
    r ← jsonError "PREMIUM_REQUIRED"
          (JStr "Spotify Premium is required for playback control.") 403;
    mret (addCorsHeaders r)
  else if status response =? 404 then
    r ← jsonError "NO_ACTIVE_DEVICE"
          (JStr "No active device found. Please start playing something on Spotify first.")
          404;
    mret (addCorsHeaders r)
  else
    errorMessage ← getSpotifyErrorMessage response;
    r ← jsonError "SPOTIFY_ERROR" errorMessage (status response);
    mret (addCorsHeaders r).

(** The answer to a device listing that was not [ok], shared by
    [handleGetDevices] and [handleTransferEcho]. *)
Definition devices_failure (response : Response) : M Response :=
  if isPremiumRequiredError response then
    r ← jsonError "PREMIUM_REQUIRED"
          (JStr "Spotify Premium is required for playback control.") 403;
    mret (addCorsHeaders r)
  else
    errorMessage ← getSpotifyErrorMessage response;
    r ← jsonError "SPOTIFY_ERROR" errorMessage (status response);
    mret (addCorsHeaders r).

(** [handleGetDevices] *)
Definition handleGetDevices (env : Env) : M Response :=
  try_catch
    (response ← spotifyFetch "/me/player/devices" devices_init env;
     if negb (ok response) then devices_failure response
     else
       data ← json_of (body response);
       devices ← get_property data "devices";
       r ← jsonSuccess
             (JObj [("devices", if truthy devices then default JNull devices else JArr [])]);
       mret (addCorsHeaders r))
    (fun error =>
       r ← jsonError "INTERNAL_ERROR" (JStr "Failed to fetch devices") 500;
       mret (addCorsHeaders r)).

(** [handleTransfer] *)
Definition handleTransfer (request : Request) (env : Env) : M Response :=
  try_catch
    (body ← try_catch (json_of (request_body request)) (fun _ => mret (JObj []));
     deviceId ← get_property body "deviceId";
     play ← get_property body "play";
     match deviceId with
     | Some (JStr (String c id)) =>
         response ←
           retryTransfer
             (spotifyFetch "/me/player"
                (transfer_init (JStr (String c id)) (default (JBool true) play)) env);
         if negb (ok response) then transfer_failure response
         else
           r ← jsonSuccess
                 (JObj [("success", JBool true);
                        ("message", JStr "Playback transferred successfully")]);
           mret (addCorsHeaders r)
     | _ =>
         r ← jsonError "INVALID_REQUEST" (JStr "deviceId is required") 400;
         mret (addCorsHeaders r)
     end)
    (fun error =>
       match error with
       | SyntaxError =>
           r ← jsonError "INVALID_REQUEST" (JStr "Invalid request body") 400;
           mret (addCorsHeaders r)
       | _ =>
           r ← jsonError "INTERNAL_ERROR" (JStr "Failed to transfer playback") 500;
           mret (addCorsHeaders r)
       end).

(** [handleTransferEcho] *)
Definition handleTransferEcho (env : Env) : M Response :=
  try_catch
    (devicesResponse ← spotifyFetch "/me/player/devices" devices_init env;
     if negb (ok devicesResponse) then devices_failure devicesResponse
     else
       devicesData ← json_of (body devicesResponse);
       listed ← get_property devicesData "devices";
       echoDevices ←
         (if truthy listed then
            match listed with
            | Some (JArr devices) => echo_devices devices
            | _ => throw TypeError
            end
          else mret []);
       match echoDevices with
       | [] =>
           r ← jsonError "NO_ECHO_DEVICE"
                 (JStr "Wake your Echo, open Spotify, start playback once.") 404;
           mret (addCorsHeaders r)
       | [(targetDevice, name)] =>
           transferResponse ←
             retryTransfer
               (spotifyFetch "/me/player"
                  (transfer_init (device_id targetDevice) (JBool true)) env);
           if negb (ok transferResponse) then transfer_failure transferResponse
           else
             r ← jsonSuccess
                   (JObj [("success", JBool true);
                          ("message", JStr ("Playback transferred to " +:+ name));
                          ("device", device_summary targetDevice name)]);
             mret (addCorsHeaders r)
       | _ :: _ :: _ =>
           r ← new_Response
                 (Some (JSON_stringify
                    (JObj [("ok", JBool false);
                           ("error",
                            JObj [("code", JStr "MULTIPLE_ECHO_DEVICES");
                                  ("message",
                                   JStr "Multiple Echo devices found. Please specify which device to use.")]);
                           ("devices",
                            JArr (List.map (fun d => device_summary (fst d) (snd d))
                                    echoDevices))])))
                 409 {[ "content-type" := "application/json" ]};
           mret (addCorsHeaders r)
       end)
    (fun error =>
       r ← jsonError "INTERNAL_ERROR" (JStr "Failed to transfer playback to Echo Dot") 500;
       mret (addCorsHeaders r)).

(** What [handleTransferEcho] does once the target device is known. *)
Definition transfer_to_echo (env : Env) (targetDevice : JValue) (name : string)
    : M Response :=
  transferResponse ←
    retryTransfer
      (spotifyFetch "/me/player" (transfer_init (device_id targetDevice) (JBool true)) env);
  if negb (ok transferResponse) then transfer_failure transferResponse
  else
    r ← jsonSuccess
          (JObj [("success", JBool true);
                 ("message", JStr ("Playback transferred to " +:+ name));
                 ("device", device_summary targetDevice name)]);
    mret (addCorsHeaders r).

(** [requireAuth]: [Some] is the error response, [None] is [null]. *)
Definition requireAuth (env : Env) : M (option Response) :=
  tokens ← readTokens env;
  match tokens with
  | None =>
      r ← jsonError "NOT_AUTHENTICATED"
            (JStr "Not connected. Visit /login to connect your Spotify account.") 401;
      mret (Some (addCorsHeaders r))
  | Some _ =>
      accessToken ← getAccessToken env;
      if negb (truthy_opt_string accessToken) then
        r ← jsonError "TOKEN_REFRESH_FAILED"
              (JStr "Failed to refresh access token. Please visit /login to reconnect.") 401;
        mret (Some (addCorsHeaders r))
      else mret None
  end.

(** The pages of [handleCallback]. *)
Inductive Page : Type :=
| AuthorizationFailedPage (error : string)
| MissingParametersPage
| InvalidStatePage
| SuccessPage
| ExchangeErrorPage (error : JsError).

Context (page_text : Page -> string).

(** [handleCallback].  [getStateCookie] is called outside the [try]: a
    URIError out of it is not caught. *)
Definition handleCallback (request : Request) (env : Env) : M Response :=
  let code := URLSearchParams_get "code" (searchParams request) in
  let state := URLSearchParams_get "state" (searchParams request) in
  let error := URLSearchParams_get "error" (searchParams request) in
  if truthy_opt_string error then
    new_Response (Some (page_text (AuthorizationFailedPage (default "" error)))) 400
      {[ "content-type" := "text/html" ]}
  else if negb (truthy_opt_string code) || negb (truthy_opt_string state) then
    new_Response (Some (page_text MissingParametersPage)) 400
      {[ "content-type" := "text/html" ]}
  else
    match getStateCookie request with
    | DecodedOk storedState =>
        if negb (validateState storedState (default "" state)) then
          new_Response (Some (page_text InvalidStatePage)) 400
            {[ "content-type" := "text/html" ]}
        else
          try_catch
            (tokens ← exchangeCodeForTokens (default "" code)
                        (template (SPOTIFY_REDIRECT_URI env)) env;
             writeTokens tokens env;;
             new_Response (Some (page_text SuccessPage)) 200
               {[ "content-type" := "text/html"; "set-cookie" := clearStateCookie ]})
            (fun error =>
               new_Response (Some (page_text (ExchangeErrorPage error))) 500
                 {[ "content-type" := "text/html" ]})
    | DecodeURIError => throw URIError
    | DecodeUnmodelled => unmodelled
    end.

(** [handleRequest]; [array] is what [generateState] draws if the request
    is one for [/login]. *)
Definition handleRequest (array : list ascii) (request : Request) (env : Env) : M Response :=
  let path := pathname request in
  let method := request_method request in
  if String.eqb method "OPTIONS" && String.prefix "/api" path then handleOptions
  else if String.eqb method "GET" && String.eqb path "/health" then handleHealth
  else if String.eqb method "GET" && String.eqb path "/login" then handleLogin array request env
  else if String.eqb method "GET" && String.eqb path "/callback" then handleCallback request env
  else if String.prefix "/api" path then
    if negb (checkAutomationKey request env) then
      r ← jsonError "INVALID_AUTOMATION_KEY"
            (JStr "Invalid or missing X-Automation-Key header") 401;
      mret (addCorsHeaders r)
    else
      authError ← requireAuth env;
      match authError with
      | Some authError => mret authError
      | None =>
          if String.eqb method "GET" && String.eqb path "/api/devices"
          then handleGetDevices env
          else if String.eqb method "POST" && String.eqb path "/api/transfer"
          then handleTransfer request env
          else if String.eqb method "POST" && String.eqb path "/api/transfer/echo"
          then handleTransferEcho env
          else
            r ← jsonError "NOT_FOUND" (JStr "Not found") 404;
            mret (addCorsHeaders r)
      end
  else jsonError "NOT_FOUND" (JStr "Not found") 404.

End handlers.

(* ===================================================================== *)
(** ** Notions used in the statements *)

(** A record with three truthy members, as both store operations demand. *)
Definition valid_tokens (tokens : Tokens) : bool :=
  truthy_opt_string (access_token tokens)
  && truthy_opt_string (refresh_token tokens)
  && number_truthy (expires_at tokens).

(** The namespace holds the serialisation of [tokens]. *)
Definition stored (w : World) (tokens : Tokens) : Prop :=
  kv w !! TOKENS_KEY = Some (JSON_stringify (Tokens_to_JSON tokens)).

Fixpoint count_events (p : Event -> bool) (events : list Event) : nat :=
  match events with
  | [] => O
  | ev :: later => if p ev then S (count_events p later) else count_events p later
  end.

Definition is_refresh_call (ev : Event) : bool :=
  match ev with EvRefreshCall _ => true | _ => false end.
Definition is_token_request (ev : Event) : bool :=
  match ev with EvTokenRequest _ _ _ => true | _ => false end.
Definition is_api_request (ev : Event) : bool :=
  match ev with EvApiRequest _ _ => true | _ => false end.
Definition is_make_request (ev : Event) : bool :=
  match ev with EvMakeRequest => true | _ => false end.

(** How often [refreshAccessToken] was entered, the token endpoint and the
    resource API were called, and [makeRequest] was invoked. *)
Definition refresh_calls (w : World) : nat := count_events is_refresh_call (trace w).
Definition token_requests (w : World) : nat := count_events is_token_request (trace w).
Definition api_requests (w : World) : nat := count_events is_api_request (trace w).
Definition make_requests (w : World) : nat := count_events is_make_request (trace w).

(** A [makeRequest] whose invocations show in the trace. *)
Definition counted (makeRequest : M Response) : M Response :=
  log EvMakeRequest;; makeRequest.

(** The pause of [retryTransfer] between two attempts: the delay is
    computed, from the response when there is one, and slept. *)
Definition pause (attempt : Z) (response : option Response) : M unit :=
  delayMs ← getRetryDelayMs attempt response; sleep delayMs.

(** An invocation of [makeRequest] after which the loop goes on while
    attempts remain: it threw, or it returned a response that is not ok and
    has a retryable status. *)
Definition calls_for_retry (outcome : Outcome Response) : bool :=
  match outcome with
  | Returned response => negb (ok response) && shouldRetryTransfer response
  | Thrown _ => true
  | Unmodelled => false
  end.

(** The response the pause after an invocation is computed from: the
    [catch] block has none. *)
Definition response_of (outcome : Outcome Response) : option Response :=
  match outcome with
  | Returned response => Some response
  | Thrown _ | Unmodelled => None
  end.

(** [attempt_starts makeRequest w attempt wk]: in the run of the loop that
    starts in [w], attempt number [attempt] starts in the world [wk].  The
    first attempt starts in [w]; the next one starts where the pause ends
    that follows an invocation calling for a retry. *)
Inductive attempt_starts (makeRequest : M Response) (w : World) : Z -> World -> Prop :=
| attempt_first : attempt_starts makeRequest w 1 w
| attempt_next (attempt : Z) (wk : World) (outcome : Outcome Response) (wk1 wk' : World) :
    attempt_starts makeRequest w attempt wk ->
    makeRequest wk = (outcome, wk1) ->
    calls_for_retry outcome = true ->
    pause attempt (response_of outcome) wk1 = (Returned tt, wk') ->
    attempt_starts makeRequest w (attempt + 1) wk'.

(** What the next [Date.now()] reads, in milliseconds and in whole seconds,
    and the world after that reading. *)
Definition next_now_ms (w : World) : Z :=
  match clock w with [] => time w | t :: _ => t end.
Definition next_now (w : World) : Z := next_now_ms w `div` 1000.
Definition tick (w : World) : World := (Date_now w).2.

(** Whether the next operation on the KV namespace fails, and the world
    after [n] more operations took their fault flags. *)
Definition next_kv_fault (w : World) : bool :=
  match kv_faults w with
  | true :: _ => true
  | _ => false
  end.

Definition drop_kv_faults (n : nat) (w : World) : World :=
  {| kv := kv w; kv_faults := drop n (kv_faults w); time := time w; clock := clock w;
     Date_parse_host := Date_parse_host w; token_endpoint := token_endpoint w;
     api := api w; trace := trace w |}.

(** The world after a write of [value] under [key] went through. *)
Definition after_put (key value : string) (w : World) : World :=
  {| kv := <[key := value]> (kv w); kv_faults := drop 1 (kv_faults w); time := time w;
     clock := clock w; Date_parse_host := Date_parse_host w;
     token_endpoint := token_endpoint w; api := api w; trace := trace w |}.

(** The [url] of [spotifyFetch]. *)
Definition request_url (path : string) : string :=
  if String.prefix "http" path then path else SPOTIFY_API_BASE +:+ path.

(** The ways [refreshAccessToken] fails that can be told from the
    configuration and the next reply of the token endpoint: a missing client
    id or secret, a network error, a status outside 200..299, a body that is
    not JSON. *)
Definition refresh_fails (env : Env) (w : World) : bool :=
  negb (truthy_opt_string (SPOTIFY_CLIENT_ID env))
  || negb (truthy_opt_string (SPOTIFY_CLIENT_SECRET env))
  || match token_endpoint w with
     | [] | TokenNetworkError :: _ => true
     | TokenHttp response :: _ =>
         negb (token_ok response)
         || match token_json response with Some _ => false | None => true end
     end.

(** The lifetime the code adds to the clock: the reported one unless it is
    missing or zero. *)
Definition lifetime_used (data : TokenData) : Z :=
  match data_expires_in data with
  | Some lifetime => if lifetime =? 0 then 3600 else lifetime
  | None => 3600
  end.

(** The attempt numbers end with the last attempt. *)
Definition ends_with_final (attempts : list Z) : Prop :=
  List.last attempts 0 = TRANSFER_RETRY_ATTEMPTS.

(** Characters after which a number ends. *)
Definition ends_number (rest : string) : bool :=
  match rest with
  | EmptyString => true
  | String c _ =>
      match digit_of c with Some _ => false | None => true end
      && negb (starts_fraction_or_exponent rest)
  end.

(** A parser that had fuel enough on [s] and, when it succeeds, has read
    something. *)
Definition parser_ok {A} (p : string -> PResult A) (s : string) : Prop :=
  p s <> POutOfFuel
  /\ forall v rest, p s = POk v rest -> (String.length rest < String.length s)%nat.

(** A step that neither reads nor changes the world. *)
Definition pure_step {A : Type} (m : M A) : Prop :=
  exists o, forall w, m w = (o, w).

(** [preserves f m]: running [m] does not change the observation [f] of the
    world.  [bumps f n m]: it raises the counter [f] by at most [n]. *)
Definition preserves {A X : Type} (f : World -> X) (m : M A) : Prop :=
  forall w, f (m w).2 = f w.

Definition bumps {A : Type} (f : World -> nat) (n : nat) (m : M A) : Prop :=
  forall w, (f (m w).2 <= f w + n)%nat.

(** *** Notions for the further properties *)

(** The durations of the [sleep]s in the trace, oldest first. *)
Definition sleeps (w : World) : list Z :=
  omap (fun ev => match ev with EvSleep ms => Some ms | _ => None end) (trace w).

(** [headers[name]] on the headers object of a [RequestInit]. *)
Fixpoint header_of (name : string) (obj : list (string * string)) : option string :=
  match obj with
  | [] => None
  | (k, v) :: rest => if String.eqb k name then Some v else header_of name rest
  end.

(** The attempts after which the loop may sleep: all but the last one. *)
Definition sleeping_attempts (attempts : list Z) : nat :=
  length (filter (fun attempt => attempt <> TRANSFER_RETRY_ATTEMPTS) attempts).

Definition slept_within (n : nat) (w w' : World) : Prop :=
  exists delays,
    sleeps w' = (sleeps w ++ delays)%list
    /\ (length delays <= n)%nat
    /\ Forall (fun delay => delay <= TRANSFER_RETRY_MAX_DELAY_MS) delays.

(** A value other than an object has none of the three members. *)
Definition is_object (v : JValue) : bool :=
  match v with JObj _ => true | _ => false end.

(** The requests to the resource API in the trace, oldest first. *)
Definition api_log (w : World) : list (string * RequestInit) :=
  omap (fun ev => match ev with EvApiRequest url init => Some (url, init) | _ => None end)
    (trace w).

(** A request of [spotifyFetch] for [path] and [options]: to the URL of the
    path, with the caller's options and a bearer token that is not empty. *)
Definition authenticated_request (path : string) (options : RequestInit)
    (request : string * RequestInit) : Prop :=
  request.1 = request_url path
  /\ exists token, token <> "" /\ request.2 = with_bearer options (Some token).

Definition logged {X : Type} (f : World -> list X) (P : X -> Prop) (n : nat)
    (w w' : World) : Prop :=
  exists new, f w' = (f w ++ new)%list /\ (length new <= n)%nat /\ Forall P new.

(** The characters of a base64url string: letters, digits, [-] and [_]. *)
Definition url_safe_char (c : ascii) : bool :=
  let n := N_of_ascii c in
  ((48 <=? n)%N && (n <=? 57)%N) || ((65 <=? n)%N && (n <=? 90)%N)
  || ((97 <=? n)%N && (n <=? 122)%N) || (n =? 45)%N || (n =? 95)%N.

(** What the three [replace] calls make of one character. *)
Definition base64url_char (c : ascii) : string :=
  if Ascii.eqb c "=" then ""
  else if Ascii.eqb c "/" then "_"
  else if Ascii.eqb c "+" then "-"
  else String c "".

Definition to_base64url (s : string) : string :=
  replace_char "=" "" (replace_char "/" "_" (replace_char "+" "-" s)).

(** [v.key] where it does not throw. *)
Definition member_of (v : JValue) (key : string) : option JValue :=
  match v with
  | JObj members => lookup_member key members
  | _ => None
  end.

(** The JSON answers of the worker. *)
Definition json_response (status : Z) (data : JValue) : Response :=
  {| status := status; headers := {[ "content-type" := "application/json" ]};
     body := JSON_stringify data |}.

Definition error_response (code : string) (message : JValue) (status : Z) : Response :=
  json_response status
    (JObj [("ok", JBool false);
           ("error", JObj [("code", JStr code); ("message", message)])]).

(** A status that [new Response] accepts together with a body. *)
Definition body_status (status : Z) : bool :=
  (200 <=? status) && (status <=? 599) && negb (null_body_status status).

Definition echo_internal_error : Response :=
  addCorsHeaders
    (error_response "INTERNAL_ERROR" (JStr "Failed to transfer playback to Echo Dot") 500).

Definition has_cors (response : Response) : Prop :=
  Headers_get (headers response) "Access-Control-Allow-Origin" = Some "*"
  /\ Headers_get (headers response) "Access-Control-Allow-Methods"
     = Some "GET, POST, OPTIONS"
  /\ Headers_get (headers response) "Access-Control-Allow-Headers"
     = Some "Content-Type, X-Automation-Key".

Definition never_throws {A : Type} (m : M A) : Prop :=
  forall w e, (m w).1 <> Thrown e.

Definition returns {A : Type} (P : A -> Prop) (m : M A) : Prop :=
  forall w a w', m w = (Returned a, w') -> P a.

(** What [json_of] yields for a text. *)
Definition json_outcome (text : string) : Outcome JValue :=
  match JSON_parse text with
  | POk v _ => if canonical v then Returned v else Unmodelled
  | PSyntaxError => Thrown SyntaxError
  | PUnmodelled | POutOfFuel => Unmodelled
  end.

Definition throws_only {A : Type} (P : JsError -> Prop) (m : M A) : Prop :=
  forall w e w', m w = (Thrown e, w') -> P e.

Definition fetch_error (e : JsError) : Prop :=
  e = NoAccessTokenAvailable \/ e = NetworkError.

(** The answers of the transfer handlers. *)
Definition premium_required : Response :=
  addCorsHeaders
    (error_response "PREMIUM_REQUIRED"
       (JStr "Spotify Premium is required for playback control.") 403).

Definition no_active_device : Response :=
  addCorsHeaders
    (error_response "NO_ACTIVE_DEVICE"
       (JStr "No active device found. Please start playing something on Spotify first.")
       404).

Definition spotify_error (message : JValue) (status : Z) : Response :=
  addCorsHeaders (error_response "SPOTIFY_ERROR" message status).

(** The test of the [filter] in [handleTransferEcho]. *)
Definition is_echo_name (name : string) : bool :=
  includes "echo" (toLowerCase name) || includes "dot" (toLowerCase name).

(** The devices with their names, when each of them has a string under
    [name]. *)
Fixpoint named_devices (devices : list JValue) : option (list (JValue * string)) :=
  match devices with
  | [] => Some []
  | device :: rest =>
      match member_of device "name", named_devices rest with
      | Some (JStr name), Some named => Some ((device, name) :: named)
      | _, _ => None
      end
  end.

Definition multiple_echo_devices (echoDevices : list (JValue * string)) : Response :=
  addCorsHeaders
    (json_response 409
       (JObj [("ok", JBool false);
              ("error",
               JObj [("code", JStr "MULTIPLE_ECHO_DEVICES");
                     ("message",
                      JStr "Multiple Echo devices found. Please specify which device to use.")]);
              ("devices",
               JArr (List.map (fun d => device_summary (fst d) (snd d)) echoDevices))])).

(** An HTML answer of [handleCallback]. *)
Definition html_response (status : Z) (text : string) : Response :=
  {| status := status; headers := {[ "content-type" := "text/html" ]}; body := text |}.

(** The answer to a callback that went through: the success page, and the
    header that clears the state cookie. *)
Definition connected_response (text : string) : Response :=
  {| status := 200;
     headers := {[ "content-type" := "text/html"; "set-cookie" := clearStateCookie ]};
     body := text |}.

(* ===================================================================== *)
(** ** Sample worlds *)

Definition sample_time : Z := 1700000000000.

Definition sample_env : Env :=
  {| SPOTIFY_CLIENT_ID := Some "client"; SPOTIFY_CLIENT_SECRET := Some "secret";
     SPOTIFY_REDIRECT_URI := Some "https://worker.example/callback";
     AUTOMATION_KEY := Some "key"; BASE_URL := Some "https://worker.example" |}.

Definition sample_init : RequestInit :=
  {| method := "PUT"; init_headers := []; init_body := None |}.

(** A credential that expired ten seconds before [sample_time], and one
    that is good for another hour. *)
Definition stale_tokens : Tokens :=
  {| access_token := Some "A1"; refresh_token := Some "R1"; expires_at := Int 1699999990 |}.
Definition fresh_tokens : Tokens :=
  {| access_token := Some "A1"; refresh_token := Some "R1"; expires_at := Int 1700003600 |}.

Definition token_reply (access : string) (refresh : option string) (lifetime : option Z)
    : TokenReply :=
  TokenHttp
    {| token_status := 200;
       token_json :=
         Some {| data_access_token := Some access; data_refresh_token := refresh;
                 data_expires_in := lifetime |} |}.

Definition unauthorized : Response := {| status := 401; headers := ∅; body := "" |}.
Definition unavailable : Response := {| status := 503; headers := ∅; body := "" |}.
Definition success : Response := {| status := 200; headers := ∅; body := "{}" |}.

(** A world with [tokens] in the namespace and the given replies to come. *)
Definition world_with (tokens : Tokens) (replies : list TokenReply) (answers : list ApiReply)
    : World :=
  {| kv := {[ TOKENS_KEY := JSON_stringify (Tokens_to_JSON tokens) ]};
     kv_faults := []; time := sample_time; clock := [];
     Date_parse_host := fun _ => None;
     token_endpoint := replies; api := answers; trace := [] |}.

Definition empty_world : World :=
  {| kv := ∅; kv_faults := []; time := sample_time; clock := [];
     Date_parse_host := fun _ => None; token_endpoint := []; api := []; trace := [] |}.

Definition stale_world : World :=
  world_with stale_tokens [token_reply "A2" None (Some 3600)] [].
Definition zero_lifetime_world : World :=
  world_with stale_tokens [token_reply "A2" None (Some 0)] [].
Definition rejecting_world : World :=
  world_with stale_tokens [TokenHttp {| token_status := 400; token_json := None |}] [].
Definition unauthorized_world : World :=
  world_with fresh_tokens [] [ApiHttp unauthorized].

(** The stored credential is stale, the token endpoint grants two
    refreshes, and the resource API rejects the first token it is shown. *)
Definition revoked_world : World :=
  world_with stale_tokens
    [token_reply "A2" None (Some 3600); token_reply "A3" None (Some 3600)]
    [ApiHttp unauthorized; ApiHttp success].

(** The resource API answers 503 twice and is then unreachable. *)
Definition flaky_world : World :=
  {| kv := ∅; kv_faults := []; time := sample_time; clock := [];
     Date_parse_host := fun _ => None; token_endpoint := [];
     api := [ApiHttp unavailable; ApiHttp unavailable; ApiNetworkError]; trace := [] |}.

(** The resource API answers 503 once and 200 then. *)
Definition recovering_world : World :=
  {| kv := ∅; kv_faults := []; time := sample_time; clock := [];
     Date_parse_host := fun _ => None; token_endpoint := [];
     api := [ApiHttp unavailable; ApiHttp success]; trace := [] |}.

(** The request of the samples, and the world [n] failed attempts and
    their pauses after [w]. *)
Definition sample_request : M Response := fetch "/me/player" sample_init.

Fixpoint after_failed_attempts (makeRequest : M Response) (n : nat) (w : World) : World :=
  match n with
  | O => w
  | S n' =>
      let wk := after_failed_attempts makeRequest n' w in
      let '(outcome, wk1) := makeRequest wk in
      (pause (Z.of_nat n) (response_of outcome) wk1).2
  end.

(** A credential whose expiry is not finite. *)
Definition unending_tokens : Tokens :=
  {| access_token := Some "A1"; refresh_token := Some "R1"; expires_at := Infinity |}.

(** The namespace takes the next operation and rejects the one after it. *)
Definition failing_read_world : World :=
  {| kv := ∅; kv_faults := [false; true]; time := sample_time; clock := [];
     Date_parse_host := fun _ => None; token_endpoint := []; api := []; trace := [] |}.

(** *** Sample requests and further sample worlds *)

(** A response that may have no body. *)
Definition not_modified : Response := {| status := 304; headers := ∅; body := "" |}.

Definition sample_statusText : Response -> string := fun _ => "".
Definition sample_page_text : Page -> string := fun _ => "<html></html>".

(** The issuer rotates the refresh token. *)
Definition rotating_world : World :=
  world_with stale_tokens [token_reply "A2" (Some "R2") (Some 3600)] [].

(** A good credential and one answer of the resource API. *)
Definition answering_world (answer : Response) : World :=
  world_with fresh_tokens [] [ApiHttp answer].

(** The resource API rejects the stored token and accepts the refreshed
    one. *)
Definition retrying_world : World :=
  world_with fresh_tokens [token_reply "A2" None (Some 3600)]
    [ApiHttp unauthorized; ApiHttp success].

(** Nothing stored yet, and the token endpoint grants the first exchange. *)
Definition first_login_world : World :=
  {| kv := ∅; kv_faults := []; time := sample_time; clock := [];
     Date_parse_host := fun _ => None;
     token_endpoint := [token_reply "A1" (Some "R1") (Some 3600)];
     api := []; trace := [] |}.

Definition kitchen_echo : JValue := JObj [("id", JStr "d1"); ("name", JStr "Kitchen Echo")].
Definition laptop : JValue := JObj [("id", JStr "d2"); ("name", JStr "Laptop")].

Definition devices_listing : Response :=
  {| status := 200; headers := ∅;
     body := JSON_stringify (JObj [("devices", JArr [kitchen_echo; laptop])]) |}.

(** A request without the automation key. *)
Definition keyless_request : Request :=
  {| request_method := "GET"; pathname := "/api/devices"; searchParams := [];
     request_headers := ∅; request_body := "" |}.

Definition transfer_request : Request :=
  {| request_method := "POST"; pathname := "/api/transfer"; searchParams := [];
     request_headers := {[ "x-automation-key" := "key" ]};
     request_body := JSON_stringify (JObj [("deviceId", JStr "d1")]) |}.

(** The callback of a login whose state was [abc]. *)
Definition callback_request : Request :=
  {| request_method := "GET"; pathname := "/callback";
     searchParams := [("code", "c0de"); ("state", "abc")];
     request_headers := {[ "cookie" := "oauth_state=abc" ]}; request_body := "" |}.

(** The same callback with a cookie that does not decode. *)
Definition malformed_cookie_request : Request :=
  {| request_method := "GET"; pathname := "/callback";
     searchParams := [("code", "c0de"); ("state", "abc")];
     request_headers := {[ "cookie" := "oauth_state=abc; theme=100%" ]};
     request_body := "" |}.

(** A callback whose [state] is not the one in the cookie. *)
Definition forged_callback_request : Request :=
  {| request_method := "GET"; pathname := "/callback";
     searchParams := [("code", "c0de"); ("state", "xyz")];
     request_headers := {[ "cookie" := "oauth_state=abc" ]}; request_body := "" |}.

(* ===================================================================== *)
(** ** Four claims as they are worded

    Each of them fails on one of the sample worlds; the theorems on the
    code are stated further down. *)

(** C2, first clause as worded: a call whose first request is answered with
    401 enters [refreshAccessToken] at most once. *)
Definition single_refresh_as_claimed : Prop :=
  forall (path : string) (options : RequestInit) (env : Env) (w : World)
         (token : string) (response : Response) (later : list ApiReply),
    (getAccessToken env w).1 = Returned (Some token) ->
    truthy_string token = true ->
    api w = ApiHttp response :: later ->
    status response = 401 ->
    (refresh_calls (spotifyFetch path options env w).2 <= refresh_calls w + 1)%nat.

(** The last response among the replies of the resource API. *)
Fixpoint last_received (replies : list ApiReply) : option Response :=
  match replies with
  | [] => None
  | ApiHttp response :: later =>
      match last_received later with
      | Some r => Some r
      | None => Some response
      end
  | ApiNetworkError :: later => last_received later
  end.

(** An attempt that calls for another one: an error, or a response that is
    not ok and has a retryable status. *)
Definition failed_attempt (reply : ApiReply) : bool :=
  match reply with
  | ApiNetworkError => true
  | ApiHttp response => negb (ok response) && shouldRetryTransfer response
  end.

(** C6 as worded: after three failed attempts the last response received
    is returned, and the last error is thrown only when every attempt
    threw. *)
Definition last_response_as_claimed : Prop :=
  forall (url : string) (init : RequestInit) (w : World) (first second third : ApiReply),
    api w = [first; second; third] ->
    failed_attempt first && failed_attempt second && failed_attempt third = true ->
    (retryTransfer (fetch url init) w).1
    = match last_received [first; second; third] with
      | Some response => Returned response
      | None => Thrown NetworkError
      end.

(** C8 as worded: the new expiry is the clock plus the reported lifetime
    whenever one is reported, and the clock plus 3600 otherwise. *)
Definition expiry_as_claimed : Prop :=
  forall (refreshToken : option string) (env : Env) (w w' : World) (newTokens : Tokens)
         (response : TokenResponse) (later : list TokenReply) (data : TokenData),
    refreshAccessToken refreshToken env w = (Returned newTokens, w') ->
    token_endpoint w = TokenHttp response :: later ->
    token_json response = Some data ->
    expires_at newTokens
    = Int (time w' `div` 1000
           + match data_expires_in data with Some lifetime => lifetime | None => 3600 end).

(** C9 as worded: whatever record [writeTokens] accepted, the [readTokens]
    that follows returns that record. *)
Definition round_trip_as_claimed : Prop :=
  forall (env : Env) (tokens : Tokens) (w w1 : World),
    writeTokens tokens env w = (Returned tt, w1) ->
    (readTokens env w1).1 = Returned (Some tokens).

(* ===================================================================== *)
(** ** JSON: what is printed is read back *)

#[local] Arguments String.append : simpl nomatch.

Lemma string_app_assoc (a b c : string) : (a +:+ b) +:+ c = a +:+ (b +:+ c).
Proof. induction a as [|x a IH]; simpl; congruence. Qed.

Lemma parse_string_chars_quote_char (c : ascii) (rest : string) :
  parse_string_chars (quote_char c +:+ rest) = pmap (String c) (parse_string_chars rest).
Proof.
  destruct c as [[] [] [] [] [] [] [] []]; reflexivity.
Qed.

Lemma parse_string_chars_quote (s rest : string) :
  parse_string_chars (quote_chars s +:+ String dquote rest) = POk s rest.
Proof.
  induction s as [|c s IH].
  - reflexivity.
  - cbn [quote_chars].
    rewrite string_app_assoc, parse_string_chars_quote_char, IH. reflexivity.
Qed.

Lemma quote_string_app (s rest : string) :
  quote_string s +:+ rest = String dquote (quote_chars s +:+ String dquote rest).
Proof.
  unfold quote_string.
  change (String dquote ((quote_chars s +:+ String dquote "") +:+ rest)
          = String dquote (quote_chars s +:+ String dquote rest)).
  by rewrite string_app_assoc.
Qed.

Lemma scan_digits_string_of_uint (d : uint) (rest : string) :
  (match rest with String c _ => digit_of c = None | EmptyString => True end) ->
  scan_digits (DecimalString.NilEmpty.string_of_uint d +:+ rest) = (d, rest).
Proof.
  intros Hrest.
  induction d as [|d IH|d IH|d IH|d IH|d IH|d IH|d IH|d IH|d IH|d IH]; simpl;
    try (rewrite IH; reflexivity).
  destruct rest as [|c rest]; [reflexivity|]. simpl. by rewrite Hrest.
Qed.

Lemma unorm_no_leading_zero (d d' : uint) : Decimal.unorm d = D0 d' -> d' = Nil.
Proof.
  induction d; simpl; try discriminate; auto.
  intros [= <-]. reflexivity.
Qed.

Lemma to_uint_no_leading_zero (p : positive) (d' : uint) : Pos.to_uint p <> D0 d'.
Proof.
  intros H.
  pose proof (DecimalPos.Unsigned.to_of (Pos.to_uint p)) as Hn.
  rewrite DecimalPos.Unsigned.of_to in Hn. simpl in Hn.
  rewrite H in Hn. symmetry in Hn.
  apply unorm_no_leading_zero in Hn. subst d'.
  by apply (DecimalPos.Unsigned.to_uint_nonzero p).
Qed.

Lemma parse_unsigned_pos (p : positive) (rest : string) :
  ends_number rest = true ->
  parse_unsigned (DecimalString.NilEmpty.string_of_uint (Pos.to_uint p) +:+ rest)
  = POk (Z.pos p) rest.
Proof.
  intros Hrest. unfold parse_unsigned.
  rewrite scan_digits_string_of_uint.
  2:{ destruct rest as [|c rest]; [done|]. simpl in Hrest.
      destruct (digit_of c); [done|reflexivity]. }
  assert (Hv : Z.of_uint (Pos.to_uint p) = Z.pos p).
  { unfold Z.of_uint. by rewrite DecimalPos.Unsigned.of_to. }
  assert (Hf : starts_fraction_or_exponent rest = false).
  { destruct rest as [|c rest]; [done|]. simpl in Hrest.
    apply andb_true_iff in Hrest as [_ Hrest]. by apply negb_true_iff in Hrest. }
  pose proof (DecimalPos.Unsigned.to_uint_nonnil p) as Hnil.
  pose proof (to_uint_no_leading_zero p) as Hz.
  destruct (Pos.to_uint p) as [|d|d|d|d|d|d|d|d|d|d]; rewrite ?Hf, ?Hv; try done.
  by destruct (Hz d).
Qed.

Lemma string_of_uint_head (d : uint) :
  d <> Nil ->
  exists c s, DecimalString.NilEmpty.string_of_uint d = String c s
    /\ Ascii.eqb c "-" = false /\ is_ws c = false /\ Ascii.eqb c "{" = false
    /\ Ascii.eqb c "[" = false /\ Ascii.eqb c dquote = false /\ Ascii.eqb c "n" = false
    /\ Ascii.eqb c "t" = false /\ Ascii.eqb c "f" = false.
Proof.
  intros Hd. destruct d; [done|..]; simpl; eexists _, _; (split; [reflexivity|]); done.
Qed.

Lemma parse_number_to_string (n : Z) (rest : string) :
  ends_number rest = true ->
  parse_number (number_to_string n +:+ rest) = POk n rest.
Proof.
  intros Hrest. unfold number_to_string.
  destruct n as [|p|p]; simpl.
  - unfold parse_unsigned. simpl.
    destruct rest as [|c rest]; [reflexivity|]. simpl in Hrest.
    apply andb_true_iff in Hrest as [Hd Hf]. apply negb_true_iff in Hf.
    simpl. destruct (digit_of c); [done|]. cbn in Hf. simpl. by rewrite Hf.
  - pose proof (DecimalPos.Unsigned.to_uint_nonnil p) as Hnil.
    unfold DecimalString.NilZero.string_of_uint.
    destruct (string_of_uint_head _ Hnil) as (c & s & Hs & Hminus & _).
    replace (match Pos.to_uint p with Nil => "0" | _ => DecimalString.NilEmpty.string_of_uint (Pos.to_uint p) end)
      with (DecimalString.NilEmpty.string_of_uint (Pos.to_uint p)) by (by destruct (Pos.to_uint p)).
    rewrite <- (parse_unsigned_pos p rest Hrest).
    rewrite Hs. simpl. by rewrite Hminus.
  - pose proof (DecimalPos.Unsigned.to_uint_nonnil p) as Hnil.
    unfold DecimalString.NilZero.string_of_uint.
    replace (match Pos.to_uint p with Nil => "0" | _ => DecimalString.NilEmpty.string_of_uint (Pos.to_uint p) end)
      with (DecimalString.NilEmpty.string_of_uint (Pos.to_uint p)) by (by destruct (Pos.to_uint p)).
    rewrite (parse_unsigned_pos p rest Hrest). reflexivity.
Qed.

Lemma number_to_string_head (n : Z) :
  exists c s, number_to_string n = String c s
    /\ is_ws c = false /\ Ascii.eqb c "{" = false
    /\ Ascii.eqb c "[" = false /\ Ascii.eqb c dquote = false /\ Ascii.eqb c "n" = false
    /\ Ascii.eqb c "t" = false /\ Ascii.eqb c "f" = false.
Proof.
  unfold number_to_string. destruct n as [|p|p]; simpl.
  - by eexists _, _.
  - pose proof (DecimalPos.Unsigned.to_uint_nonnil p) as Hnil.
    unfold DecimalString.NilZero.string_of_uint.
    destruct (Pos.to_uint p); [done|..]; simpl; by eexists _, _.
  - by eexists _, _.
Qed.

Lemma parse_value_number (fuel : nat) (n : Z) (rest : string) :
  ends_number rest = true ->
  parse_value (S fuel) (number_to_string n +:+ rest) = POk (JNum n) rest.
Proof.
  intros Hrest.
  pose proof (parse_number_to_string n rest Hrest) as Hn.
  destruct (number_to_string_head n) as (c & s & Hs & Hws & H1 & H2 & H3 & H4 & H5 & H6).
  rewrite Hs in *. simpl. rewrite Hws, H1, H2, H3, H4, H5, H6.
  simpl in Hn. rewrite Hn. reflexivity.
Qed.

Lemma parse_value_string (fuel : nat) (s rest : string) :
  parse_value (S fuel) (quote_string s +:+ rest) = POk (JStr s) rest.
Proof.
  rewrite quote_string_app. simpl. by rewrite parse_string_chars_quote.
Qed.

Lemma Tokens_text (a r : string) (e : Z) :
  JSON_stringify
    (Tokens_to_JSON {| access_token := Some a; refresh_token := Some r; expires_at := Int e |})
  = String "{" (quote_string "access_token" +:+ String ":" (quote_string a +:+ String ","
      (quote_string "refresh_token" +:+ String ":" (quote_string r +:+ String ","
        (quote_string "expires_at" +:+ String ":" (number_to_string e +:+ "}")))))).
Proof.
  unfold Tokens_to_JSON. cbn [omap list_omap fmap option_fmap option_map fst snd access_token refresh_token
       expires_at number_to_JSON].
  cbn [JSON_stringify List.map join_comma fst snd].
  rewrite !string_app_assoc. reflexivity.
Qed.

Lemma parse_members_step (fuel : nat) (k rest : string) :
  parse_members (S fuel) (quote_string k +:+ String ":" rest)
  = pbind (parse_value fuel rest) (fun v r3 =>
      match skip_ws r3 with
      | String c3 r4 =>
          if Ascii.eqb c3 "," then pmap (cons (k, v)) (parse_members fuel r4)
          else if Ascii.eqb c3 "}" then POk [(k, v)] r4
          else PSyntaxError
      | EmptyString => PSyntaxError
      end).
Proof.
  rewrite quote_string_app. simpl. rewrite parse_string_chars_quote. reflexivity.
Qed.

Lemma parse_value_object (fuel : nat) (k rest : string) :
  parse_value (S fuel) (String "{" (quote_string k +:+ rest))
  = pmap JObj (parse_members fuel (quote_string k +:+ rest)).
Proof. rewrite quote_string_app. reflexivity. Qed.

Ltac eval_char_tests :=
  repeat match goal with
  | |- context [is_ws ?c] =>
      let b := eval vm_compute in (is_ws c) in change (is_ws c) with b; cbv iota
  | |- context [Ascii.eqb ?c ?d] =>
      let b := eval vm_compute in (Ascii.eqb c d) in change (Ascii.eqb c d) with b; cbv iota
  end.

Lemma JSON_parse_Tokens (a r : string) (e : Z) :
  JSON_parse
    (JSON_stringify
       (Tokens_to_JSON {| access_token := Some a; refresh_token := Some r; expires_at := Int e |}))
  = POk (Tokens_to_JSON {| access_token := Some a; refresh_token := Some r; expires_at := Int e |}) "".
Proof.
  unfold JSON_parse. rewrite Tokens_text.
  set (n := String.length _).
  assert (Hn : exists m, (2 * n)%nat = S (S (S (S m)))).
  { assert (2 <= n)%nat.
    { subst n. rewrite (quote_string_app "access_token"). simpl. lia. }
    exists (2 * n - 4)%nat. lia. }
  destruct Hn as [m ->].
  rewrite parse_value_object, parse_members_step, parse_value_string.
  cbn [pbind skip_ws]; eval_char_tests.
  rewrite parse_members_step, parse_value_string.
  cbn [pbind skip_ws]; eval_char_tests.
  rewrite parse_members_step, parse_value_number by reflexivity.
  reflexivity.
Qed.

(* ===================================================================== *)
(** ** JSON: the parser never runs out of fuel *)

Lemma skip_ws_length (s : string) : (String.length (skip_ws s) <= String.length s)%nat.
Proof. induction s as [|c s IH]; simpl; [lia|]. destruct (is_ws c); simpl; lia. Qed.

Lemma pmap_ok {A B} (f : A -> B) (r : PResult A) b rest :
  pmap f r = POk b rest -> exists a, r = POk a rest /\ b = f a.
Proof. destruct r; simpl; intros [= <- <-] || intros [=]; eauto. Qed.

Lemma pmap_fuel {A B} (f : A -> B) (r : PResult A) :
  pmap f r = POutOfFuel -> r = POutOfFuel.
Proof. by destruct r. Qed.

Lemma parse_string_chars_shorter (s : string) :
  parse_string_chars s <> POutOfFuel
  /\ forall x rest, parse_string_chars s = POk x rest ->
       (String.length rest < String.length s)%nat.
Proof.
  remember (String.length s) as n eqn:Hn.
  revert s Hn. induction n as [n IH] using lt_wf_ind. intros s ->.
  destruct s as [|c s]; [by split|].
  cbn [parse_string_chars].
  destruct (Ascii.eqb c dquote).
  { split; [done|]. intros x rest [= <- <-]. simpl. lia. }
  destruct (Ascii.eqb c backslash).
  - destruct s as [|e s]; [by split|].
    destruct (simple_escape e).
    + destruct (IH (String.length s) ltac:(simpl; lia) s eq_refl) as [Hf Hs].
      split; [by intros H%pmap_fuel|].
      intros x rest (y & Hy & _)%pmap_ok. apply Hs in Hy. simpl. lia.
    + destruct (Ascii.eqb e "u"); [|by split].
      destruct s as [|h1 [|h2 [|h3 [|h4 s]]]]; try by split.
      destruct (hex4 h1 h2 h3 h4) as [k|]; [|by split].
      destruct (k <? 256)%N; [|by split].
      destruct (IH (String.length s) ltac:(simpl; lia) s eq_refl) as [Hf Hs].
      split; [by intros H%pmap_fuel|].
      intros x rest (y & Hy & _)%pmap_ok. apply Hs in Hy. simpl. lia.
  - destruct (N_of_ascii c <? 32)%N; [by split|].
    destruct (IH (String.length s) ltac:(simpl; lia) s eq_refl) as [Hf Hs].
    split; [by intros H%pmap_fuel|].
    intros x rest (y & Hy & _)%pmap_ok. apply Hs in Hy. simpl. lia.
Qed.

Lemma scan_digits_length (s : string) :
  (String.length (scan_digits s).2 <= String.length s)%nat
  /\ ((scan_digits s).1 <> Nil -> (String.length (scan_digits s).2 < String.length s)%nat).
Proof.
  induction s as [|c s [IH1 IH2]]; simpl; [by split|].
  destruct (digit_of c) as [k|]; simpl; [|by split].
  destruct (scan_digits s) as [d rest]; simpl in *. split; intros; lia.
Qed.

Lemma parse_unsigned_shorter (s : string) :
  parse_unsigned s <> POutOfFuel
  /\ forall n rest, parse_unsigned s = POk n rest ->
       (String.length rest < String.length s)%nat.
Proof.
  unfold parse_unsigned.
  destruct (scan_digits_length s) as [_ Hlt].
  destruct (scan_digits s) as [d rest]; simpl in Hlt.
  split.
  - destruct d as [|[]| | | | | | | | |]; repeat case_match; done.
  - intros n rest' H.
    assert (d <> Nil) by (intros ->; done).
    assert (rest' = rest) as ->; [|by apply Hlt].
    destruct d as [|[]| | | | | | | | |]; repeat case_match; congruence.
Qed.

Lemma parse_number_shorter (s : string) :
  parse_number s <> POutOfFuel
  /\ forall n rest, parse_number s = POk n rest ->
       (String.length rest < String.length s)%nat.
Proof.
  unfold parse_number. destruct s as [|c s]; [by split|].
  destruct (Ascii.eqb c "-").
  - destruct (parse_unsigned_shorter s) as [Hf Hs].
    split; [by intros H%pmap_fuel|].
    intros n rest (y & Hy & _)%pmap_ok. apply Hs in Hy. simpl. lia.
  - apply parse_unsigned_shorter.
Qed.

Lemma strip_prefix_length (lit s rest : string) :
  strip_prefix lit s = Some rest ->
  (String.length rest + String.length lit = String.length s)%nat.
Proof.
  revert s. induction lit as [|c lit IH]; intros s; simpl.
  - intros [= ->]. lia.
  - destruct s as [|d s]; [done|]. destruct (Ascii.eqb c d); [|done].
    intros H%IH. simpl. lia.
Qed.

Lemma expect_literal_shorter (lit : string) v s :
  lit <> "" ->
  expect_literal lit v s <> POutOfFuel
  /\ forall x rest, expect_literal lit v s = POk x rest ->
       (String.length rest < String.length s)%nat.
Proof.
  intros Hlit. unfold expect_literal.
  destruct (strip_prefix lit s) as [rest|] eqn:Hp; [|by split].
  split; [done|]. intros x rest' [= <- <-].
  apply strip_prefix_length in Hp. destruct lit; [done|]. simpl in Hp. lia.
Qed.

Lemma skip_ws_cons (s : string) c rest :
  skip_ws s = String c rest -> (String.length rest < String.length s)%nat.
Proof. intros H. pose proof (skip_ws_length s) as Hl. rewrite H in Hl. simpl in Hl. lia. Qed.

Lemma parse_fuel (fuel : nat) :
  (forall s, (2 * String.length s < fuel)%nat -> parser_ok (parse_value fuel) s)
  /\ (forall s, (2 * String.length s + 1 < fuel)%nat -> parser_ok (parse_members fuel) s)
  /\ (forall s, (2 * String.length s + 1 < fuel)%nat -> parser_ok (parse_elements fuel) s).
Proof.
  induction fuel as [|fuel (IHv & IHm & IHe)]; [repeat split; intros; lia|].
  split; [|split]; intros s Hfuel; unfold parser_ok.
  - cbn [parse_value].
    destruct (skip_ws s) as [|c rest] eqn:Hws; [by split|].
    apply skip_ws_cons in Hws.
    destruct (Ascii.eqb c "{").
    { destruct (skip_ws rest) as [|c' rest'] eqn:Hws'; [by split|].
      apply skip_ws_cons in Hws'.
      destruct (Ascii.eqb c' "}").
      { split; [done|]. intros v r [= <- <-]. lia. }
      destruct (IHm rest ltac:(lia)) as [Hf Hs].
      split; [by intros H%pmap_fuel|].
      intros v r (y & Hy & _)%pmap_ok. apply Hs in Hy. lia. }
    destruct (Ascii.eqb c "[").
    { destruct (skip_ws rest) as [|c' rest'] eqn:Hws'; [by split|].
      apply skip_ws_cons in Hws'.
      destruct (Ascii.eqb c' "]").
      { split; [done|]. intros v r [= <- <-]. lia. }
      destruct (IHe rest ltac:(lia)) as [Hf Hs].
      split; [by intros H%pmap_fuel|].
      intros v r (y & Hy & _)%pmap_ok. apply Hs in Hy. lia. }
    destruct (Ascii.eqb c dquote).
    { destruct (parse_string_chars_shorter rest) as [Hf Hs].
      split; [by intros H%pmap_fuel|].
      intros v r (y & Hy & _)%pmap_ok. apply Hs in Hy. lia. }
    assert (Hlit : forall lit v, lit <> "" ->
              parser_ok (expect_literal lit v) (String c rest) ->
              expect_literal lit v (String c rest) <> POutOfFuel
              /\ forall x r, expect_literal lit v (String c rest) = POk x r ->
                   (String.length r < String.length s)%nat).
    { intros lit v _ [Hf Hs]. split; [done|]. intros x r Hx%Hs. simpl in Hx. lia. }
    destruct (Ascii.eqb c "n"); [by apply Hlit; [|apply expect_literal_shorter]|].
    destruct (Ascii.eqb c "t"); [by apply Hlit; [|apply expect_literal_shorter]|].
    destruct (Ascii.eqb c "f"); [by apply Hlit; [|apply expect_literal_shorter]|].
    destruct (parse_number_shorter (String c rest)) as [Hf Hs].
    split; [by intros H%pmap_fuel|].
    intros v r (y & Hy & _)%pmap_ok. apply Hs in Hy. simpl in Hy. lia.
  - cbn [parse_members].
    destruct (skip_ws s) as [|c r0] eqn:Hws; [by split|].
    apply skip_ws_cons in Hws.
    destruct (Ascii.eqb c dquote); [|by split].
    destruct (parse_string_chars_shorter r0) as [Hf0 Hs0].
    destruct (parse_string_chars r0) as [k r1| | |] eqn:Hk; try by split.
    specialize (Hs0 k r1 eq_refl). cbn [pbind].
    destruct (skip_ws r1) as [|c1 r2] eqn:Hws1; [by split|].
    apply skip_ws_cons in Hws1.
    destruct (Ascii.eqb c1 ":"); [|by split].
    destruct (IHv r2 ltac:(lia)) as [Hfv Hsv].
    destruct (parse_value fuel r2) as [v r3| | |] eqn:Hv; try by split.
    specialize (Hsv v r3 eq_refl). cbn [pbind].
    destruct (skip_ws r3) as [|c3 r4] eqn:Hws3; [by split|].
    apply skip_ws_cons in Hws3.
    destruct (Ascii.eqb c3 ",").
    { destruct (IHm r4 ltac:(lia)) as [Hf Hs].
      split; [by intros H%pmap_fuel|].
      intros x r (y & Hy & _)%pmap_ok. apply Hs in Hy. lia. }
    destruct (Ascii.eqb c3 "}"); [|by split].
    split; [done|]. intros x r [= <- <-]. lia.
  - cbn [parse_elements].
    destruct (IHv s ltac:(lia)) as [Hfv Hsv].
    destruct (parse_value fuel s) as [v r1| | |] eqn:Hv; try by split.
    specialize (Hsv v r1 eq_refl). cbn [pbind].
    destruct (skip_ws r1) as [|c r2] eqn:Hws1; [by split|].
    apply skip_ws_cons in Hws1.
    destruct (Ascii.eqb c ",").
    { destruct (IHe r2 ltac:(lia)) as [Hf Hs].
      split; [by intros H%pmap_fuel|].
      intros x r (y & Hy & _)%pmap_ok. apply Hs in Hy. lia. }
    destruct (Ascii.eqb c "]"); [|by split].
    split; [done|]. intros x r [= <- <-]. lia.
Qed.

(** [JSON.parse] never stops for lack of fuel. *)
Lemma JSON_parse_has_fuel (text : string) : JSON_parse text <> POutOfFuel.
Proof.
  unfold JSON_parse.
  destruct (parse_fuel (S (2 * String.length text))) as [Hv _].
  destruct (Hv text ltac:(lia)) as [Hf _].
  destruct (parse_value _ text) as [v rest| | |]; try done.
  cbn [pbind]. by destruct (skip_ws rest).
Qed.

(* ===================================================================== *)
(** ** Running programs: equations for the monad *)

Section run.
Context {A B : Type}.
Implicit Types (m : M A) (k : A -> M B) (w : World).

Lemma bind_returned m k w a w1 :
  m w = (Returned a, w1) -> (m ≫= k) w = k a w1.
Proof. intros H. unfold mbind, M_bind. by rewrite H. Qed.

Lemma bind_thrown m k w e w1 :
  m w = (Thrown e, w1) -> (m ≫= k) w = (Thrown e, w1).
Proof. intros H. unfold mbind, M_bind. by rewrite H. Qed.

Lemma bind_unmodelled m k w w1 :
  m w = (Unmodelled, w1) -> (m ≫= k) w = (Unmodelled, w1).
Proof. intros H. unfold mbind, M_bind. by rewrite H. Qed.

Lemma bind_inv_returned m k w b w' :
  (m ≫= k) w = (Returned b, w') ->
  exists a w1, m w = (Returned a, w1) /\ k a w1 = (Returned b, w').
Proof.
  unfold mbind, M_bind. destruct (m w) as [[a|e|] w1]; intros H; [eauto|done..].
Qed.

Lemma bind_cases m k w :
  (exists a w1, m w = (Returned a, w1) /\ (m ≫= k) w = k a w1)
  \/ (exists e w1, m w = (Thrown e, w1) /\ (m ≫= k) w = (Thrown e, w1))
  \/ (exists w1, m w = (Unmodelled, w1) /\ (m ≫= k) w = (Unmodelled, w1)).
Proof.
  unfold mbind, M_bind. destruct (m w) as [[a|e|] w1]; eauto 6.
Qed.
End run.

Section run_try.
Context {A : Type}.
Implicit Types (m : M A) (h : JsError -> M A) (w : World).

Lemma try_catch_returned m h w a w1 :
  m w = (Returned a, w1) -> try_catch m h w = (Returned a, w1).
Proof. intros H. unfold try_catch. by rewrite H. Qed.

Lemma try_catch_thrown m h w e w1 :
  m w = (Thrown e, w1) -> try_catch m h w = h e w1.
Proof. intros H. unfold try_catch. by rewrite H. Qed.

Lemma try_catch_unmodelled m h w w1 :
  m w = (Unmodelled, w1) -> try_catch m h w = (Unmodelled, w1).
Proof. intros H. unfold try_catch. by rewrite H. Qed.

Lemma try_catch_cases m h w :
  (exists a w1, m w = (Returned a, w1) /\ try_catch m h w = (Returned a, w1))
  \/ (exists e w1, m w = (Thrown e, w1) /\ try_catch m h w = h e w1)
  \/ (exists w1, m w = (Unmodelled, w1) /\ try_catch m h w = (Unmodelled, w1)).
Proof.
  unfold try_catch. destruct (m w) as [[a|e|] w1]; eauto 6.
Qed.
End run_try.

(* ===================================================================== *)
(** ** Frame lemmas *)

Section preserves.
Context {X : Type} (f : World -> X).

Lemma preserves_ret {A} (a : A) : preserves f (mret a).
Proof. by intros w. Qed.

Lemma preserves_throw {A} (e : JsError) : preserves f (@throw A e).
Proof. by intros w. Qed.

Lemma preserves_unmodelled {A} : preserves f (@unmodelled A).
Proof. by intros w. Qed.

Lemma preserves_bind {A B} (m : M A) (k : A -> M B) :
  preserves f m -> (forall a, preserves f (k a)) -> preserves f (m ≫= k).
Proof.
  intros Hm Hk w. specialize (Hm w). unfold mbind, M_bind.
  destruct (m w) as [[a|e|] w1]; simpl in *; [|done..].
  by rewrite Hk.
Qed.

Lemma preserves_try_catch {A} (m : M A) (h : JsError -> M A) :
  preserves f m -> (forall e, preserves f (h e)) -> preserves f (try_catch m h).
Proof.
  intros Hm Hh w. specialize (Hm w). unfold try_catch.
  destruct (m w) as [[a|e|] w1]; simpl in *; [done| |done].
  by rewrite Hh.
Qed.
End preserves.

Section bumps.
Context (f : World -> nat).

Lemma bumps_preserves {A} (m : M A) n : preserves f m -> bumps f n m.
Proof. intros H w. rewrite H. lia. Qed.

Lemma bumps_weaken {A} (m : M A) n n' : (n <= n')%nat -> bumps f n m -> bumps f n' m.
Proof. intros Hn H w. specialize (H w). lia. Qed.

Lemma bumps_bind {A B} (m : M A) (k : A -> M B) a b :
  bumps f a m -> (forall x, bumps f b (k x)) -> bumps f (a + b) (m ≫= k).
Proof.
  intros Hm Hk w. specialize (Hm w). unfold mbind, M_bind.
  destruct (m w) as [[x|e|] w1]; simpl in *; [|lia..].
  specialize (Hk x w1). lia.
Qed.

Lemma bumps_try_catch {A} (m : M A) (h : JsError -> M A) a b :
  bumps f a m -> (forall e, bumps f b (h e)) -> bumps f (a + b) (try_catch m h).
Proof.
  intros Hm Hh w. specialize (Hm w). unfold try_catch.
  destruct (m w) as [[x|e|] w1]; simpl in *; [lia| |lia].
  specialize (Hh e w1). lia.
Qed.
End bumps.

(** The basic steps, and what each of them touches. *)

Ltac step_world :=
  let w := fresh "w" in
  intros w; destruct w as [? [|[] ?] ? [|? ?] ? [|[|?] ?] [|[|?] ?] ?]; reflexivity.

Lemma count_events_app p l1 l2 :
  count_events p (l1 ++ l2) = (count_events p l1 + count_events p l2)%nat.
Proof. induction l1 as [|ev l1 IH]; simpl; [done|]. destruct (p ev); simpl; lia. Qed.

Lemma preserves_log_kv ev : preserves kv (log ev).
Proof. step_world. Qed.
Lemma preserves_log_token_endpoint ev : preserves token_endpoint (log ev).
Proof. step_world. Qed.
Lemma preserves_Date_now_kv : preserves kv Date_now.
Proof. step_world. Qed.
Lemma preserves_Date_now_trace : preserves trace Date_now.
Proof. step_world. Qed.
Lemma preserves_Date_now_token_endpoint : preserves token_endpoint Date_now.
Proof. step_world. Qed.
Lemma preserves_Date_parse {X} (f : World -> X) s : preserves f (Date_parse s).
Proof. by intros w. Qed.
Lemma preserves_kv_fault_kv : preserves kv kv_fault.
Proof. step_world. Qed.
Lemma preserves_kv_fault_trace : preserves trace kv_fault.
Proof. step_world. Qed.
Lemma preserves_kv_lookup {X} (f : World -> X) key : preserves f (kv_lookup key).
Proof. by intros w. Qed.
Lemma preserves_kv_store_trace key value : preserves trace (kv_store key value).
Proof. step_world. Qed.
Lemma preserves_next_token_reply_kv : preserves kv next_token_reply.
Proof. step_world. Qed.
Lemma preserves_next_token_reply_trace : preserves trace next_token_reply.
Proof. step_world. Qed.
Lemma preserves_next_api_reply_kv : preserves kv next_api_reply.
Proof. step_world. Qed.
Lemma preserves_next_api_reply_trace : preserves trace next_api_reply.
Proof. step_world. Qed.

(** One tactic for every "[m] leaves [f] alone" goal: follow the structure
    of the program down to the basic steps. *)
Ltac preserves_basic :=
  let w := fresh "w" in
  intros w; destruct w as [? [|[] ?] ? [|? ?] ? [|[|?] ?] [|[|?] ?] ?];
  unfold refresh_calls, token_requests, api_requests, make_requests;
  cbn; rewrite ?count_events_app; cbn; try reflexivity; lia.

Ltac preserves_step :=
  match goal with
  | |- preserves _ (mret _) => apply preserves_ret
  | |- preserves _ (throw _) => apply preserves_throw
  | |- preserves _ unmodelled => apply preserves_unmodelled
  | |- preserves _ (_ ≫= _) => apply preserves_bind; [|intros ?]
  | |- preserves _ (try_catch _ _) => apply preserves_try_catch; [|intros ?]
  | |- preserves _ (if ?b then _ else _) => destruct b
  | |- preserves _ (match ?x with _ => _ end) => destruct x
  | |- preserves _ (let _ := _ in _) => cbv zeta
  | |- preserves _ _ => assumption
  end.

Create HintDb frame discriminated.

Ltac solve_preserves :=
  repeat first
    [ progress preserves_step
    | solve [eauto 2 with frame]
    | solve [preserves_basic] ].

Lemma preserves_JSON_parse_M {X} (f : World -> X) text : preserves f (JSON_parse_M text).
Proof. unfold JSON_parse_M. solve_preserves. Qed.
Lemma preserves_get_property {X} (f : World -> X) v key : preserves f (get_property v key).
Proof. unfold get_property. solve_preserves. Qed.
Lemma preserves_token_response_json {X} (f : World -> X) r :
  preserves f (token_response_json r).
Proof. unfold token_response_json. solve_preserves. Qed.
#[export] Hint Resolve preserves_JSON_parse_M preserves_get_property
  preserves_token_response_json preserves_Date_parse preserves_kv_lookup : frame.

Lemma preserves_KV_get_kv key : preserves kv (KV_get key).
Proof. unfold KV_get. solve_preserves. Qed.
Lemma preserves_KV_get_trace key : preserves trace (KV_get key).
Proof. unfold KV_get. solve_preserves. Qed.
Lemma preserves_KV_get_token_endpoint key : preserves token_endpoint (KV_get key).
Proof. unfold KV_get. solve_preserves. Qed.
Lemma preserves_KV_get_api key : preserves api (KV_get key).
Proof. unfold KV_get. solve_preserves. Qed.
Lemma preserves_KV_get_clock key : preserves (fun w => (time w, clock w)) (KV_get key).
Proof. unfold KV_get. solve_preserves. Qed.
#[export] Hint Resolve preserves_KV_get_kv preserves_KV_get_trace
  preserves_KV_get_token_endpoint preserves_KV_get_api preserves_KV_get_clock : frame.

Lemma preserves_readTokens_kv env : preserves kv (readTokens env).
Proof. unfold readTokens. solve_preserves. Qed.
Lemma preserves_readTokens_trace env : preserves trace (readTokens env).
Proof. unfold readTokens. solve_preserves. Qed.
Lemma preserves_readTokens_token_endpoint env : preserves token_endpoint (readTokens env).
Proof. unfold readTokens. solve_preserves. Qed.
Lemma preserves_readTokens_api env : preserves api (readTokens env).
Proof. unfold readTokens. solve_preserves. Qed.
Lemma preserves_readTokens_clock env :
  preserves (fun w => (time w, clock w)) (readTokens env).
Proof. unfold readTokens. solve_preserves. Qed.

(* ===================================================================== *)
(** ** The store: [readTokens] and [writeTokens] *)

Lemma KV_get_ok key w :
  next_kv_fault w = false ->
  KV_get key w = (Returned (kv w !! key), drop_kv_faults 1 w).
Proof. destruct w as [? [|[] ?] ? ? ? ? ? ?]; by intros. Qed.

Lemma KV_get_fault key w :
  next_kv_fault w = true ->
  KV_get key w = (Thrown KVError, drop_kv_faults 1 w).
Proof. destruct w as [? [|[] ?] ? ? ? ? ? ?]; by intros. Qed.

Lemma KV_put_ok key value w :
  next_kv_fault w = false ->
  KV_put key value w = (Returned tt, after_put key value w).
Proof. destruct w as [? [|[] ?] ? ? ? ? ? ?]; by intros. Qed.

Lemma KV_put_fault key value w :
  next_kv_fault w = true ->
  KV_put key value w = (Thrown KVError, drop_kv_faults 1 w).
Proof. destruct w as [? [|[] ?] ? ? ? ? ? ?]; by intros. Qed.

Lemma readTokens_fault env w :
  next_kv_fault w = true -> readTokens env w = (Returned None, drop_kv_faults 1 w).
Proof.
  intros Hf. unfold readTokens.
  erewrite try_catch_thrown; [reflexivity|].
  by erewrite bind_thrown; [|apply KV_get_fault].
Qed.


Lemma pure_ret {A} (a : A) : pure_step (mret a).
Proof. by exists (Returned a). Qed.
Lemma pure_throw {A} e : pure_step (@throw A e).
Proof. by exists (Thrown e). Qed.
Lemma pure_unmodelled {A} : pure_step (@unmodelled A).
Proof. by exists Unmodelled. Qed.
Lemma pure_bind {A B} (m : M A) (k : A -> M B) :
  pure_step m -> (forall a, pure_step (k a)) -> pure_step (m ≫= k).
Proof.
  intros [[a|e|] Hm] Hk.
  - destruct (Hk a) as [o Ho]. exists o. intros w.
    by erewrite bind_returned; [|apply Hm].
  - exists (Thrown e). intros w. by erewrite bind_thrown; [|apply Hm].
  - exists Unmodelled. intros w. by erewrite bind_unmodelled; [|apply Hm].
Qed.
Lemma pure_try_catch {A} (m : M A) (h : JsError -> M A) :
  pure_step m -> (forall e, pure_step (h e)) -> pure_step (try_catch m h).
Proof.
  intros [[a|e|] Hm] Hh.
  - exists (Returned a). intros w. by erewrite try_catch_returned; [|apply Hm].
  - destruct (Hh e) as [o Ho]. exists o. intros w.
    by erewrite try_catch_thrown; [|apply Hm].
  - exists Unmodelled. intros w. by erewrite try_catch_unmodelled; [|apply Hm].
Qed.

Ltac solve_pure :=
  repeat match goal with
  | |- pure_step (mret _) => apply pure_ret
  | |- pure_step (throw _) => apply pure_throw
  | |- pure_step unmodelled => apply pure_unmodelled
  | |- pure_step (_ ≫= _) => apply pure_bind; [|intros ?]
  | |- pure_step (try_catch _ _) => apply pure_try_catch; [|intros ?]
  | |- pure_step (if ?b then _ else _) => destruct b
  | |- pure_step (match ?x with _ => _ end) => destruct x
  | |- pure_step (JSON_parse_M _) => unfold JSON_parse_M
  | |- pure_step (get_property _ _) => unfold get_property
  end.

(** What [readTokens] returns is a function of the text under the key,
    once the read itself went through. *)
Lemma readTokens_function env (data : option string) :
  exists o, (forall e, o <> Thrown e) /\
    forall w, next_kv_fault w = false -> kv w !! TOKENS_KEY = data ->
      readTokens env w = (o, drop_kv_faults 1 w).
Proof.
  unfold readTokens.
  match goal with |- context [KV_get _ ≫= ?k] =>
    assert (Hk : pure_step (k data)) by (cbv beta; solve_pure)
  end.
  destruct Hk as [o Ho].
  exists (match o with Thrown _ => Returned None | _ => o end). split.
  { by destruct o. }
  intros w Hf <-.
  destruct o as [a|e|].
  - erewrite try_catch_returned; [reflexivity|].
    erewrite bind_returned; [|by apply KV_get_ok]. apply Ho.
  - erewrite try_catch_thrown; [reflexivity|].
    erewrite bind_returned; [|by apply KV_get_ok]. apply Ho.
  - erewrite try_catch_unmodelled; [reflexivity|].
    erewrite bind_returned; [|by apply KV_get_ok]. apply Ho.
Qed.

Lemma readTokens_world env w : (readTokens env w).2 = drop_kv_faults 1 w.
Proof.
  destruct (next_kv_fault w) eqn:Hf; [by rewrite readTokens_fault|].
  destruct (readTokens_function env (kv w !! TOKENS_KEY)) as (o & _ & Ho).
  by rewrite Ho.
Qed.

Lemma readTokens_not_thrown env w e : (readTokens env w).1 <> Thrown e.
Proof.
  destruct (next_kv_fault w) eqn:Hf; [by rewrite readTokens_fault|].
  destruct (readTokens_function env (kv w !! TOKENS_KEY)) as (o & Hne & Ho).
  rewrite Ho by done. apply Hne.
Qed.

(** A second read of an unchanged namespace gives the first answer again,
    unless the read itself fails. *)
Lemma readTokens_again env w w' :
  kv w' = kv w -> next_kv_fault w = false ->
  (readTokens env w').1 = (readTokens env w).1 \/ (readTokens env w').1 = Returned None.
Proof.
  intros Hkv Hf.
  destruct (next_kv_fault w') eqn:Hf'; [right; by rewrite readTokens_fault|left].
  destruct (readTokens_function env (kv w !! TOKENS_KEY)) as (o & _ & Ho).
  rewrite (Ho w), (Ho w'); by rewrite ?Hkv.
Qed.

Lemma try_catch_inv_returned {A} (m : M A) h w a w' :
  try_catch m h w = (Returned a, w') ->
  m w = (Returned a, w') \/ exists e w1, m w = (Thrown e, w1) /\ h e w1 = (Returned a, w').
Proof. unfold try_catch. destruct (m w) as [[x|e|] w1]; intros H; eauto; done. Qed.

(** [readTokens] hands out only records with three truthy members. *)
Lemma readTokens_valid env w tokens w' :
  readTokens env w = (Returned (Some tokens), w') ->
  exists a r, access_token tokens = Some a /\ refresh_token tokens = Some r
    /\ valid_tokens tokens = true.
Proof.
  unfold readTokens. intros H.
  apply try_catch_inv_returned in H as [Hb|(e & w1 & _ & H)]; [|done].
  apply bind_inv_returned in Hb as (data & w2 & _ & Hb).
  destruct (negb (truthy_opt_string data)); [done|].
  apply bind_inv_returned in Hb as (v & w3 & _ & Hb).
  apply bind_inv_returned in Hb as (a & w4 & _ & Hb).
  apply bind_inv_returned in Hb as (r & w5 & _ & Hb).
  apply bind_inv_returned in Hb as (e & w6 & _ & Hb).
  destruct (negb (truthy a) || negb (truthy r) || negb (truthy e)) eqn:Hc; [done|].
  apply orb_false_iff in Hc as [Hc He]. apply orb_false_iff in Hc as [Ha Hr].
  apply negb_false_iff in Ha, Hr, He.
  destruct a as [[| | |a| |]|], r as [[| | |r| |]|], e as [[| |e| | |]|]; try done.
  injection Hb as <- <-. exists a, r. unfold valid_tokens. simpl in *.
  by rewrite Ha, Hr, He.
Qed.

(** What [readTokens] hands out was parsed from JSON text: its expiry is
    finite. *)
Lemma readTokens_finite env w tokens w' :
  readTokens env w = (Returned (Some tokens), w') ->
  exists e, expires_at tokens = Int e.
Proof.
  unfold readTokens. intros H.
  apply try_catch_inv_returned in H as [Hb|(e & w1 & _ & H)]; [|done].
  apply bind_inv_returned in Hb as (data & w2 & _ & Hb).
  destruct (negb (truthy_opt_string data)); [done|].
  apply bind_inv_returned in Hb as (v & w3 & _ & Hb).
  apply bind_inv_returned in Hb as (a & w4 & _ & Hb).
  apply bind_inv_returned in Hb as (r & w5 & _ & Hb).
  apply bind_inv_returned in Hb as (e & w6 & _ & Hb).
  destruct (negb (truthy a) || negb (truthy r) || negb (truthy e)); [done|].
  destruct a as [[| | |a| |]|], r as [[| | |r| |]|], e as [[| |e| | |]|]; try done.
  injection Hb as <- <-. by exists e.
Qed.

Lemma truthy_string_nonempty s : truthy_string s = true -> exists c s', s = String c s'.
Proof. destruct s; [done|eauto]. Qed.

Lemma stringify_Tokens_truthy a r e :
  truthy_opt_string
    (Some (JSON_stringify
       (Tokens_to_JSON {| access_token := Some a; refresh_token := Some r; expires_at := Int e |})))
  = true.
Proof. by rewrite Tokens_text. Qed.

(** Reading back what [writeTokens] stored. *)
Lemma readTokens_stored env w a r e :
  let tokens := {| access_token := Some a; refresh_token := Some r; expires_at := Int e |} in
  valid_tokens tokens = true ->
  stored w tokens ->
  next_kv_fault w = false ->
  readTokens env w = (Returned (Some tokens), drop_kv_faults 1 w).
Proof.
  intros tokens; subst tokens. intros Hv Hs Hf. unfold readTokens, stored in *.
  erewrite try_catch_returned; [reflexivity|].
  erewrite bind_returned; [|by apply KV_get_ok].
  rewrite Hs. rewrite stringify_Tokens_truthy.
  cbn [negb default from_option id].
  unfold JSON_parse_M. rewrite JSON_parse_Tokens.
  erewrite bind_returned; [|reflexivity].
  unfold valid_tokens in Hv. cbn in Hv.
  apply andb_true_iff in Hv as [Hv He]. apply andb_true_iff in Hv as [Ha Hr].
  do 3 (erewrite bind_returned; [|reflexivity]).
  cbn. by rewrite Ha, Hr, He.
Qed.

(** A record with a missing or falsy member reads as absent. *)
Lemma readTokens_falsy env w data members rest :
  kv w !! TOKENS_KEY = Some data ->
  JSON_parse data = POk (JObj members) rest ->
  truthy (lookup_member "access_token" members)
    && truthy (lookup_member "refresh_token" members)
    && truthy (lookup_member "expires_at" members) = false ->
  readTokens env w = (Returned None, drop_kv_faults 1 w).
Proof.
  intros Hd Hp Hfalsy.
  destruct (next_kv_fault w) eqn:Hf; [by apply readTokens_fault|].
  unfold readTokens.
  erewrite try_catch_returned; [reflexivity|].
  erewrite bind_returned; [|by apply KV_get_ok].
  rewrite Hd. destruct (negb (truthy_opt_string (Some data))); [reflexivity|].
  unfold JSON_parse_M. cbn [default from_option id]. rewrite Hp.
  do 4 (erewrite bind_returned; [|reflexivity]).
  destruct (truthy (lookup_member "access_token" members)),
    (truthy (lookup_member "refresh_token" members)),
    (truthy (lookup_member "expires_at" members)); done.
Qed.

(** [writeTokens] refuses a record with a falsy member and leaves the
    world as it was. *)
Lemma writeTokens_invalid tokens env w :
  valid_tokens tokens = false ->
  writeTokens tokens env w = (Thrown FailedToSaveTokens, w).
Proof.
  intros Hv. unfold writeTokens, valid_tokens in *.
  destruct (truthy_opt_string (access_token tokens)),
    (truthy_opt_string (refresh_token tokens)),
    (number_truthy (expires_at tokens)); done.
Qed.

Lemma writeTokens_fault tokens env w :
  valid_tokens tokens = true -> next_kv_fault w = true ->
  writeTokens tokens env w = (Thrown FailedToSaveTokens, drop_kv_faults 1 w).
Proof.
  intros Hv Hf. unfold writeTokens, valid_tokens in *.
  destruct (truthy_opt_string (access_token tokens)),
    (truthy_opt_string (refresh_token tokens)),
    (number_truthy (expires_at tokens)); try done.
  cbn [negb orb]. erewrite try_catch_thrown; [reflexivity|]. by apply KV_put_fault.
Qed.

Lemma writeTokens_ok tokens env w :
  valid_tokens tokens = true -> next_kv_fault w = false ->
  writeTokens tokens env w
  = (Returned tt, after_put TOKENS_KEY (JSON_stringify (Tokens_to_JSON tokens)) w).
Proof.
  intros Hv Hf. unfold writeTokens, valid_tokens in *.
  destruct (truthy_opt_string (access_token tokens)),
    (truthy_opt_string (refresh_token tokens)),
    (number_truthy (expires_at tokens)); try done.
  cbn [negb orb]. erewrite try_catch_returned; [reflexivity|]. by apply KV_put_ok.
Qed.

(** The three ways a call of [writeTokens] can end. *)
Lemma writeTokens_cases tokens env w :
  (valid_tokens tokens = true /\ next_kv_fault w = false
   /\ writeTokens tokens env w
      = (Returned tt, after_put TOKENS_KEY (JSON_stringify (Tokens_to_JSON tokens)) w))
  \/ (exists w', writeTokens tokens env w = (Thrown FailedToSaveTokens, w') /\ kv w' = kv w
                 /\ trace w' = trace w).
Proof.
  destruct (valid_tokens tokens) eqn:Hv, (next_kv_fault w) eqn:Hf.
  - right. eexists. split; [by apply writeTokens_fault|]. done.
  - left. by rewrite writeTokens_ok.
  - right. eexists. split; [by apply writeTokens_invalid|]. done.
  - right. eexists. split; [by apply writeTokens_invalid|]. done.
Qed.

Ltac unfold_program :=
  match goal with
  | |- preserves _ (fetch_token _ _ _) => unfold fetch_token
  | |- preserves _ (fetch _ _) => unfold fetch
  | |- preserves _ (KV_get _) => unfold KV_get
  | |- preserves _ (KV_put _ _) => unfold KV_put
  | |- preserves _ (sleep _) => unfold sleep
  | |- preserves _ (JSON_parse_M _) => unfold JSON_parse_M
  | |- preserves _ (get_property _ _) => unfold get_property
  | |- preserves _ (token_response_json _) => unfold token_response_json
  | |- preserves _ (readTokens _) => unfold readTokens
  | |- preserves _ (writeTokens _ _) => unfold writeTokens
  | |- preserves _ (refreshAccessToken _ _) => unfold refreshAccessToken
  | |- preserves _ (exchangeCodeForTokens _ _ _) => unfold exchangeCodeForTokens
  | |- preserves _ (getAccessToken _) => unfold getAccessToken
  | |- preserves _ (spotifyFetch _ _ _) => unfold spotifyFetch
  | |- preserves _ (getRetryDelayMs _ _) => unfold getRetryDelayMs
  end.

Ltac frame :=
  repeat first
    [ progress preserves_step
    | progress unfold_program
    | solve [eauto 2 with frame]
    | solve [preserves_basic] ].

Lemma readTokens_counts env w :
  trace (readTokens env w).2 = trace w.
Proof. apply (preserves_readTokens_trace env). Qed.

Lemma Date_now_reads w : Date_now w = (Returned (next_now_ms w), tick w).
Proof. unfold tick, Date_now, next_now_ms. by destruct (clock w). Qed.

Lemma refreshAccessToken_kv rt env : preserves kv (refreshAccessToken rt env).
Proof. frame. Qed.

Lemma refreshAccessToken_api rt env : preserves api (refreshAccessToken rt env).
Proof. frame. Qed.

Lemma refreshAccessToken_refresh_calls rt env w :
  refresh_calls (refreshAccessToken rt env w).2 = S (refresh_calls w).
Proof.
  unfold refreshAccessToken.
  erewrite bind_returned; [|reflexivity].
  match goal with |- refresh_calls (?m ?w1).2 = _ =>
    assert (Hm : preserves refresh_calls m) by frame; rewrite (Hm w1) end.
  unfold refresh_calls. simpl. rewrite count_events_app. simpl. lia.
Qed.

Lemma writeTokens_trace tokens env : preserves trace (writeTokens tokens env).
Proof. frame. Qed.

(* ===================================================================== *)
(** ** [getAccessToken] *)

Lemma getAccessToken_absent env w w1 :
  readTokens env w = (Returned None, w1) ->
  getAccessToken env w = (Returned None, w1).
Proof. intros H. unfold getAccessToken. erewrite bind_returned; [|exact H]. reflexivity. Qed.

Lemma getAccessToken_fresh env w tokens w1 :
  readTokens env w = (Returned (Some tokens), w1) ->
  number_gtb (expires_at tokens) (next_now w1 + 60) = true ->
  getAccessToken env w = (Returned (access_token tokens), tick w1).
Proof.
  intros H Hfresh. unfold getAccessToken.
  erewrite bind_returned; [|exact H]. cbv beta iota.
  erewrite bind_returned; [|apply Date_now_reads].
  fold (next_now w1). by rewrite Hfresh.
Qed.

Lemma getAccessToken_stale env w tokens w1 :
  readTokens env w = (Returned (Some tokens), w1) ->
  number_gtb (expires_at tokens) (next_now w1 + 60) = false ->
  getAccessToken env w
  = try_catch
      (newTokens ← refreshAccessToken (refresh_token tokens) env;
       writeTokens newTokens env;;
       mret (access_token newTokens))
      (fun error => mret None) (tick w1).
Proof.
  intros H Hstale. unfold getAccessToken.
  erewrite bind_returned; [|exact H]. cbv beta iota.
  erewrite bind_returned; [|apply Date_now_reads].
  fold (next_now w1). by rewrite Hstale.
Qed.

Lemma tick_trace w : trace (tick w) = trace w.
Proof. apply preserves_Date_now_trace. Qed.
Lemma tick_kv w : kv (tick w) = kv w.
Proof. apply preserves_Date_now_kv. Qed.
Lemma tick_token_endpoint w : token_endpoint (tick w) = token_endpoint w.
Proof. apply preserves_Date_now_token_endpoint. Qed.

(** The refresh-and-persist block that both callers of
    [refreshAccessToken] run: it enters [refreshAccessToken] once. *)
Lemma refresh_block_refresh_calls {A} rt env (f : Tokens -> A) handler w :
  (forall e, preserves refresh_calls (handler e)) ->
  refresh_calls
    (try_catch (newTokens ← refreshAccessToken rt env; writeTokens newTokens env;; mret (f newTokens))
       handler w).2
  = S (refresh_calls w).
Proof.
  intros Hh.
  set (body := refreshAccessToken rt env ≫= _).
  assert (Hbody : refresh_calls (body w).2 = S (refresh_calls w)).
  { subst body. pose proof (refreshAccessToken_refresh_calls rt env w) as Hr.
    destruct (bind_cases (refreshAccessToken rt env)
                (fun newTokens => writeTokens newTokens env;; mret (f newTokens)) w)
      as [(a & w1 & Hm & ->)|[(e & w1 & Hm & ->)|(w1 & Hm & ->)]];
      rewrite Hm in Hr; simpl in Hr; [|done..].
    assert (Hk : preserves refresh_calls (writeTokens a env;; mret (f a))) by frame.
    by rewrite Hk. }
  destruct (try_catch_cases body handler w)
    as [(a & w1 & Hm & ->)|[(e & w1 & Hm & ->)|(w1 & Hm & ->)]];
    rewrite Hm in Hbody; simpl in Hbody; [done| |done].
  by rewrite Hh.
Qed.

(** C1.  For a stored credential, [getAccessToken] refreshes exactly when
    [expires_at <= now + 60]: with [expires_at > now + 60] it returns the
    stored access token and neither enters [refreshAccessToken] nor calls the
    token endpoint; with [expires_at <= now + 60], that is when the test
    [expires_at > now + 60] of the code fails, it enters
    [refreshAccessToken] once before it returns, and a token it returns is
    the access token of that refresh. *)
Theorem getAccessToken_refreshes_exactly_when_stale
    (env : Env) (w w1 : World) (tokens : Tokens) :
  readTokens env w = (Returned (Some tokens), w1) ->
  (number_gtb (expires_at tokens) (next_now w1 + 60) = true ->
     (getAccessToken env w).1 = Returned (access_token tokens)
     /\ refresh_calls (getAccessToken env w).2 = refresh_calls w
     /\ token_requests (getAccessToken env w).2 = token_requests w)
  /\ (number_gtb (expires_at tokens) (next_now w1 + 60) = false ->
     refresh_calls (getAccessToken env w).2 = S (refresh_calls w)
     /\ forall token, (getAccessToken env w).1 = Returned (Some token) ->
          exists newTokens w2,
            refreshAccessToken (refresh_token tokens) env (tick w1) = (Returned newTokens, w2)
            /\ access_token newTokens = Some token).
Proof.
  intros Hread.
  assert (Htrace : trace (tick w1) = trace w).
  { rewrite tick_trace. by rewrite <- (readTokens_counts env w), Hread. }
  split.
  - intros Hfresh. rewrite (getAccessToken_fresh env w tokens w1 Hread Hfresh). simpl.
    unfold refresh_calls, token_requests. by rewrite Htrace.
  - intros Hstale. rewrite (getAccessToken_stale env w tokens w1 Hread Hstale). split.
    + rewrite refresh_block_refresh_calls by (intros e; apply preserves_ret).
      unfold refresh_calls. by rewrite Htrace.
    + intros token Hrun.
      destruct (try_catch _ _ (tick w1)) as [o w'] eqn:Hblock. simpl in Hrun. subst o.
      apply try_catch_inv_returned in Hblock as [Hb|(e & w2 & _ & Hb)]; [|done].
      apply bind_inv_returned in Hb as (newTokens & w2 & Hr & Hb).
      apply bind_inv_returned in Hb as ([] & w3 & _ & Hb).
      injection Hb as Ha _. eauto.
Qed.

(* ===================================================================== *)
(** ** [refreshAccessToken] and the block that persists its result *)

Lemma fetch_token_inv id secret grant w response w1 :
  fetch_token id secret grant w = (Returned response, w1) ->
  exists later, token_endpoint w = TokenHttp response :: later.
Proof.
  unfold fetch_token. intros H.
  apply bind_inv_returned in H as ([] & w2 & Hlog & H).
  assert (Hte : token_endpoint w2 = token_endpoint w).
  { injection Hlog as <-. reflexivity. }
  rewrite <- Hte. unfold next_token_reply in H.
  destruct (token_endpoint w2) as [|[|r] later]; try done.
  injection H as -> _. eauto.
Qed.

Lemma Date_now_inv w now w1 : Date_now w = (Returned now, w1) -> now = time w1.
Proof. unfold Date_now. destruct (clock w); intros [= <- <-]; reflexivity. Qed.

Lemma readTokens_read_ok env w tokens w1 :
  readTokens env w = (Returned (Some tokens), w1) -> next_kv_fault w = false.
Proof.
  intros H. destruct (next_kv_fault w) eqn:Hf; [|done].
  by rewrite readTokens_fault in H.
Qed.

(** What a refresh that returns has done: it took a success reply with a
    JSON body from the token endpoint, read the store once more, and built
    the new record from the two and from the clock. *)
Lemma refreshAccessToken_inv rt env w newTokens w' :
  refreshAccessToken rt env w = (Returned newTokens, w') ->
  exists response later data current w1,
    token_endpoint w = TokenHttp response :: later
    /\ token_ok response = true
    /\ token_json response = Some data
    /\ kv w1 = kv w /\ (readTokens env w1).1 = Returned current
    /\ newTokens
       = {| access_token := data_access_token data;
            refresh_token :=
              or_opt_string
                (or_opt_string (data_refresh_token data) (current ≫= refresh_token)) rt;
            expires_at := Int (time w' `div` 1000 + or_number (data_expires_in data) 3600) |}.
Proof.
  unfold refreshAccessToken. intros H.
  apply bind_inv_returned in H as ([] & w0 & Hlog & H).
  assert (Hw0 : token_endpoint w0 = token_endpoint w /\ kv w0 = kv w).
  { injection Hlog as <-. done. }
  destruct Hw0 as [Hte Hkv0].
  destruct (negb _ || negb _); [done|].
  apply bind_inv_returned in H as (response & w1 & Hfetch & H).
  match type of Hfetch with ?m w0 = _ =>
    assert (Hkv1 : preserves kv m) by frame; specialize (Hkv1 w0) end.
  rewrite Hfetch in Hkv1. simpl in Hkv1.
  apply fetch_token_inv in Hfetch as [later Hreply].
  destruct (negb (token_ok response)) eqn:Hok; [done|]. apply negb_false_iff in Hok.
  apply bind_inv_returned in H as (data & w2 & Hjson & H).
  unfold token_response_json in Hjson.
  destruct (token_json response) as [data'|] eqn:Hdata; [|done].
  injection Hjson as -> <-.
  apply bind_inv_returned in H as (current & w3 & Hread & H).
  apply bind_inv_returned in H as (now & w4 & Hnow & H).
  apply Date_now_inv in Hnow. injection H as <- <-. subst now.
  exists response, later, data, current, w1.
  rewrite <- Hte, Hreply, Hread. repeat split; try done. congruence.
Qed.

(** The three ways the refresh-and-persist block can end. *)
Lemma refresh_block_cases {A} rt env (f : Tokens -> A) w :
  (exists newTokens w1,
      refreshAccessToken rt env w = (Returned newTokens, w1)
      /\ valid_tokens newTokens = true
      /\ (newTokens ← refreshAccessToken rt env; writeTokens newTokens env;; mret (f newTokens)) w
         = (Returned (f newTokens),
            after_put TOKENS_KEY (JSON_stringify (Tokens_to_JSON newTokens)) w1))
  \/ (exists e w',
      (newTokens ← refreshAccessToken rt env; writeTokens newTokens env;; mret (f newTokens)) w
      = (Thrown e, w') /\ kv w' = kv w)
  \/ (exists w',
      (newTokens ← refreshAccessToken rt env; writeTokens newTokens env;; mret (f newTokens)) w
      = (Unmodelled, w') /\ kv w' = kv w).
Proof.
  pose proof (refreshAccessToken_kv rt env w) as Hkv.
  destruct (bind_cases (refreshAccessToken rt env)
              (fun newTokens => writeTokens newTokens env;; mret (f newTokens)) w)
    as [(newTokens & w1 & Hm & ->)|[(e & w1 & Hm & ->)|(w1 & Hm & ->)]];
    rewrite Hm in Hkv; simpl in Hkv; [|right; eauto..].
  destruct (writeTokens_cases newTokens env w1) as [(Hv & Hf & Hw)|(w2 & Hw & Hkv2 & _)].
  - left. exists newTokens, w1. repeat split; [done..|].
    by erewrite bind_returned; [|exact Hw].
  - right; left. exists FailedToSaveTokens, w2. split; [|congruence].
    by erewrite bind_thrown; [|exact Hw].
Qed.

Lemma bind_returned_1 {A B} (m : M A) (k : A -> M B) w a :
  (m w).1 = Returned a -> (m ≫= k) w = k a (m w).2.
Proof. intros H. apply bind_returned. destruct (m w); simpl in *; by subst. Qed.

Lemma bind_thrown_1 {A B} (m : M A) (k : A -> M B) w e :
  (m w).1 = Thrown e -> (m ≫= k) w = (Thrown e, (m w).2).
Proof. intros H. apply bind_thrown. destruct (m w); simpl in *; by subst. Qed.

Lemma fetch_token_network_error id secret grant w :
  match token_endpoint w with [] | TokenNetworkError :: _ => True | _ => False end ->
  (fetch_token id secret grant w).1 = Thrown NetworkError.
Proof. destruct w as [? ? ? ? ? [|[|?] ?] ? ?]; by intros. Qed.

Lemma fetch_token_reply id secret grant w response later :
  token_endpoint w = TokenHttp response :: later ->
  (fetch_token id secret grant w).1 = Returned response.
Proof. destruct w as [? ? ? ? ? [|[|?] ?] ? ?]; simpl; intros [= -> ->] || intros [=]; done. Qed.

Lemma refreshAccessToken_fails rt env w :
  refresh_fails env w = true ->
  exists e w', refreshAccessToken rt env w = (Thrown e, w').
Proof.
  unfold refresh_fails, refreshAccessToken. intros Hfail.
  rewrite (bind_returned_1 (log (EvRefreshCall rt)) _ w ()) by reflexivity.
  destruct (negb (truthy_opt_string (SPOTIFY_CLIENT_ID env))
            || negb (truthy_opt_string (SPOTIFY_CLIENT_SECRET env))); [by eauto|].
  simpl in Hfail.
  set (w0 := (log (EvRefreshCall rt) w).2) in *.
  assert (Hte : token_endpoint w0 = token_endpoint w) by reflexivity.
  rewrite <- Hte in Hfail. clear Hte.
  destruct (token_endpoint w0) as [|[|response] later] eqn:Hreplies.
  - eexists _, _. erewrite bind_thrown_1; [reflexivity|].
    apply fetch_token_network_error. by rewrite Hreplies.
  - eexists _, _. erewrite bind_thrown_1; [reflexivity|].
    apply fetch_token_network_error. by rewrite Hreplies.
  - erewrite bind_returned_1; [|by eapply fetch_token_reply].
    destruct (negb (token_ok response)); [by eauto|]. simpl in Hfail.
    unfold token_response_json.
    destruct (token_json response); [done|]. by eauto.
Qed.

(** C7.  When the refresh fails (client id or secret missing, network
    error, status outside 200..299, or a body that is not JSON),
    [getAccessToken] returns [null] without throwing and the KV namespace is
    exactly as it was. *)
Theorem getAccessToken_refresh_failure
    (env : Env) (w w1 : World) (tokens : Tokens) :
  readTokens env w = (Returned (Some tokens), w1) ->
  number_gtb (expires_at tokens) (next_now w1 + 60) = false ->
  refresh_fails env w = true ->
  (getAccessToken env w).1 = Returned None /\ kv (getAccessToken env w).2 = kv w.
Proof.
  intros Hread Hstale Hfail.
  rewrite (getAccessToken_stale env w tokens w1 Hread Hstale).
  assert (Hkv : kv (tick w1) = kv w).
  { rewrite tick_kv. by rewrite <- (preserves_readTokens_kv env w), Hread. }
  assert (Hfail' : refresh_fails env (tick w1) = true).
  { unfold refresh_fails in *. rewrite tick_token_endpoint.
    by rewrite <- (preserves_readTokens_token_endpoint env w), Hread in Hfail. }
  destruct (refreshAccessToken_fails (refresh_token tokens) env _ Hfail') as (e & w2 & Hr).
  pose proof (refreshAccessToken_kv (refresh_token tokens) env (tick w1)) as Hkv2.
  rewrite Hr in Hkv2. simpl in Hkv2.
  erewrite try_catch_thrown; [|by erewrite bind_thrown; [|exact Hr]].
  simpl. split; [done|congruence].
Qed.

Lemma or_opt_string_same v : or_opt_string v v = v.
Proof. unfold or_opt_string. by destruct (truthy_opt_string v). Qed.

(** With no refresh token in the reply, the new record takes the one of the
    record last stored, or else the one the caller passed in. *)
Lemma refreshAccessToken_carries_forward env w0 tokens w1 w newTokens w' response later data :
  readTokens env w0 = (Returned (Some tokens), w1) ->
  kv w = kv w0 ->
  token_endpoint w = TokenHttp response :: later ->
  token_json response = Some data ->
  data_refresh_token data = None ->
  refreshAccessToken (refresh_token tokens) env w = (Returned newTokens, w') ->
  refresh_token newTokens = refresh_token tokens
  /\ access_token newTokens = data_access_token data.
Proof.
  intros Hread Hkv Hreply Hjson Hnone Hrefresh.
  apply refreshAccessToken_inv in Hrefresh
    as (response' & later' & data' & current & w2 & Hreply' & _ & Hjson' & Hkv2 & Hcur & ->).
  rewrite Hreply in Hreply'. injection Hreply' as <- <-.
  rewrite Hjson in Hjson'. injection Hjson' as <-.
  split; [|reflexivity]. cbn [refresh_token]. rewrite Hnone.
  destruct (readTokens_again env w0 w2) as [Hsame|Hnone'];
    [congruence|by eapply readTokens_read_ok|..].
  - rewrite Hread in Hsame. simpl in Hsame. rewrite Hcur in Hsame. injection Hsame as ->.
    cbn. apply or_opt_string_same.
  - rewrite Hcur in Hnone'. injection Hnone' as ->. reflexivity.
Qed.

Lemma exchangeCodeForTokens_inv code redirectUri env w newTokens w' :
  exchangeCodeForTokens code redirectUri env w = (Returned newTokens, w') ->
  exists response later data,
    token_endpoint w = TokenHttp response :: later
    /\ token_ok response = true
    /\ token_json response = Some data
    /\ newTokens
       = {| access_token := data_access_token data;
            refresh_token := data_refresh_token data;
            expires_at := Int (time w' `div` 1000 + or_number (data_expires_in data) 3600) |}.
Proof.
  unfold exchangeCodeForTokens. intros H.
  destruct (negb _ || negb _); [done|].
  apply bind_inv_returned in H as (response & w1 & Hfetch & H).
  apply fetch_token_inv in Hfetch as [later Hreply].
  destruct (negb (token_ok response)) eqn:Hok; [done|]. apply negb_false_iff in Hok.
  apply bind_inv_returned in H as (data & w2 & Hjson & H).
  unfold token_response_json in Hjson.
  destruct (token_json response) as [data'|] eqn:Hdata; [|done].
  injection Hjson as -> <-.
  apply bind_inv_returned in H as (now & w4 & Hnow & H).
  apply Date_now_inv in Hnow. injection H as <- <-. subst now.
  by exists response, later, data.
Qed.

Lemma or_number_lifetime data : or_number (data_expires_in data) 3600 = lifetime_used data.
Proof.
  unfold or_number, lifetime_used, truthy_number.
  destruct (data_expires_in data) as [l|]; [|done]. by destruct (l =? 0).
Qed.

(** C8, as amended.  After a refresh or a code exchange that returns, the
    new record expires at the second the clock read when the record was
    built plus the lifetime the reply reports, and plus 3600 when the reply
    reports none or reports 0. *)
Theorem new_expiry_adds_reported_lifetime (env : Env) (w w' : World) (newTokens : Tokens) :
  (exists refreshToken, refreshAccessToken refreshToken env w = (Returned newTokens, w'))
  \/ (exists code redirectUri,
        exchangeCodeForTokens code redirectUri env w = (Returned newTokens, w')) ->
  exists response later data,
    token_endpoint w = TokenHttp response :: later
    /\ token_json response = Some data
    /\ expires_at newTokens = Int (time w' `div` 1000 + lifetime_used data).
Proof.
  intros [[rt H]|(code & uri & H)].
  - apply refreshAccessToken_inv in H
      as (response & later & data & current & w1 & Hreply & _ & Hjson & _ & _ & ->).
    exists response, later, data. by rewrite <- or_number_lifetime.
  - apply exchangeCodeForTokens_inv in H
      as (response & later & data & Hreply & _ & Hjson & ->).
    exists response, later, data. by rewrite <- or_number_lifetime.
Qed.

(* ===================================================================== *)
(** ** The retry policy of [src/index.ts] *)

Lemma shouldRetryTransfer_spec (response : Response) :
  shouldRetryTransfer response = true
  <-> status response = 404 \/ status response = 429
      \/ 500 <= status response <= 504.
Proof.
  unfold shouldRetryTransfer.
  destruct (Z.eqb_spec (status response) 404); cbn [orb]; [split; [lia|done]|].
  destruct (Z.eqb_spec (status response) 429); cbn [orb]; [split; [lia|done]|].
  rewrite andb_true_iff, Z.geb_le, Z.leb_le. lia.
Qed.

Lemma retryable_not_ok (response : Response) :
  shouldRetryTransfer response = true -> ok response = false.
Proof.
  rewrite shouldRetryTransfer_spec. unfold ok. intros H.
  apply andb_false_iff. rewrite !Z.leb_gt. lia.
Qed.

(** [getRetryDelayMs] returns or leaves the model; it never throws. *)
Lemma getRetryDelayMs_not_thrown attempt response w e :
  (getRetryDelayMs attempt response w).1 <> Thrown e.
Proof.
  unfold getRetryDelayMs, Date_parse, Date_now, mbind, M_bind, mret, M_ret, unmodelled.
  repeat case_match; simpl; congruence.
Qed.

Lemma getRetryDelayMs_exponential attempt w :
  1 <= attempt ->
  getRetryDelayMs attempt None w
  = (Returned (Z.min (TRANSFER_RETRY_BASE_DELAY_MS * 2 ^ (attempt - 1))
                 TRANSFER_RETRY_MAX_DELAY_MS), w).
Proof.
  intros H. unfold getRetryDelayMs.
  destruct (attempt <? 1) eqn:Hc; [lia|reflexivity].
Qed.

Lemma sleep_returns ms w : exists w', sleep ms w = (Returned tt, w').
Proof. by eexists. Qed.

(** One iteration of the loop, by what [makeRequest] did. *)
Section iteration.
Context (makeRequest : M Response).
Implicit Types (attempt : Z) (later : list Z) (last : option Response).

Lemma retry_attempts_return attempt later last w response w1 :
  makeRequest w = (Returned response, w1) ->
  ok response || negb (shouldRetryTransfer response)
    || (attempt =? TRANSFER_RETRY_ATTEMPTS) = true ->
  retry_attempts makeRequest (attempt :: later) last w = (Returned response, w1).
Proof.
  intros Hm Hc. cbn [retry_attempts].
  erewrite bind_returned; cycle 1.
  { erewrite try_catch_returned; [reflexivity|].
    erewrite bind_returned; [|exact Hm]. by rewrite Hc. }
  reflexivity.
Qed.

Lemma retry_attempts_retry attempt later last w response w1 :
  makeRequest w = (Returned response, w1) ->
  ok response || negb (shouldRetryTransfer response)
    || (attempt =? TRANSFER_RETRY_ATTEMPTS) = false ->
  retry_attempts makeRequest (attempt :: later) last w
  = (delayMs ← getRetryDelayMs attempt (Some response);
     sleep delayMs;;
     retry_attempts makeRequest later (Some response)) w1.
Proof.
  intros Hm Hc. cbn [retry_attempts].
  pose proof (getRetryDelayMs_not_thrown attempt (Some response) w1) as Hnt.
  unfold mbind at 1, M_bind at 1. unfold try_catch.
  erewrite bind_returned; [|exact Hm]. rewrite Hc.
  unfold mbind, M_bind.
  destruct (getRetryDelayMs attempt (Some response) w1) as [[delay|e|] w2];
    [reflexivity|by destruct (Hnt e)|reflexivity].
Qed.

Lemma retry_attempts_rethrow attempt later last w e w1 :
  makeRequest w = (Thrown e, w1) ->
  attempt = TRANSFER_RETRY_ATTEMPTS ->
  retry_attempts makeRequest (attempt :: later) last w = (Thrown e, w1).
Proof.
  intros Hm ->. cbn [retry_attempts].
  erewrite bind_thrown; [reflexivity|].
  erewrite try_catch_thrown; [reflexivity|].
  by erewrite bind_thrown; [|exact Hm].
Qed.

Lemma retry_attempts_catch attempt later last w e w1 :
  makeRequest w = (Thrown e, w1) ->
  attempt <> TRANSFER_RETRY_ATTEMPTS ->
  retry_attempts makeRequest (attempt :: later) last w
  = (delayMs ← getRetryDelayMs attempt None;
     sleep delayMs;;
     retry_attempts makeRequest later last) w1.
Proof.
  intros Hm Hne. cbn [retry_attempts].
  unfold mbind at 1, M_bind at 1.
  erewrite try_catch_thrown; [|by erewrite bind_thrown; [|exact Hm]].
  destruct (attempt =? TRANSFER_RETRY_ATTEMPTS) eqn:Hc; [lia|].
  unfold mbind, M_bind.
  destruct (getRetryDelayMs attempt None w1) as [[delay|e'|] w2]; reflexivity.
Qed.

Lemma retry_attempts_unmodelled attempt later last w w1 :
  makeRequest w = (Unmodelled, w1) ->
  retry_attempts makeRequest (attempt :: later) last w = (Unmodelled, w1).
Proof.
  intros Hm. cbn [retry_attempts].
  erewrite bind_unmodelled; [reflexivity|].
  erewrite try_catch_unmodelled; [reflexivity|].
  by erewrite bind_unmodelled; [|exact Hm].
Qed.
End iteration.

Lemma counted_bumps (makeRequest : M Response) :
  preserves make_requests makeRequest -> bumps make_requests 1 (counted makeRequest).
Proof.
  intros Hm w. unfold counted.
  rewrite (bind_returned_1 (log EvMakeRequest) _ w ()) by reflexivity.
  rewrite Hm. unfold make_requests. simpl. rewrite count_events_app. simpl. lia.
Qed.

Lemma getRetryDelayMs_make_requests attempt response :
  preserves make_requests (getRetryDelayMs attempt response).
Proof. frame. Qed.

Lemma sleep_make_requests ms : preserves make_requests (sleep ms).
Proof. frame. Qed.

(** Every iteration invokes [makeRequest] once, and there are as many
    iterations as attempt numbers at most. *)
Lemma retry_attempts_bumps (makeRequest : M Response) attempts last :
  preserves make_requests makeRequest ->
  bumps make_requests (length attempts) (retry_attempts (counted makeRequest) attempts last).
Proof.
  intros Hm. revert last.
  induction attempts as [|attempt later IH]; intros last.
  - apply bumps_preserves. cbn. apply preserves_ret.
  - cbn [retry_attempts length].
    change (S (length later)) with ((1 + 0 + 0) + length later)%nat.
    apply bumps_bind.
    + apply bumps_try_catch.
      * apply bumps_bind; [by apply counted_bumps|].
        intros response. apply bumps_preserves.
        pose proof getRetryDelayMs_make_requests. pose proof sleep_make_requests.
        frame.
      * intros e. apply bumps_preserves.
        pose proof getRetryDelayMs_make_requests. pose proof sleep_make_requests.
        frame.
    + intros [response|last']; [|apply IH].
      apply bumps_preserves, preserves_ret.
Qed.

Lemma pause_not_thrown attempt response w e :
  (pause attempt response w).1 <> Thrown e.
Proof.
  unfold pause. pose proof (getRetryDelayMs_not_thrown attempt response w) as Hnt.
  unfold mbind, M_bind.
  destruct (getRetryDelayMs attempt response w) as [[delay|e'|] w1]; simpl; [done| |done].
  by destruct (Hnt e').
Qed.

Lemma pause_make_requests attempt response : preserves make_requests (pause attempt response).
Proof.
  unfold pause.
  pose proof getRetryDelayMs_make_requests. pose proof sleep_make_requests. frame.
Qed.

(** The two steps between attempts are the pause. *)
Lemma bind_pause {A} attempt response (k : M A) w :
  (delayMs ← getRetryDelayMs attempt response; sleep delayMs;; k) w
  = (pause attempt response;; k) w.
Proof.
  unfold pause, mbind, M_bind.
  destruct (getRetryDelayMs attempt response w) as [[delay|e|] w1]; reflexivity.
Qed.

(** The pause after a response returns, unless the response is a 429 whose
    [Retry-After] reads as a number that is no integer. *)
Lemma pause_returns attempt response w :
  1 <= attempt ->
  (forall text,
     status response = 429 ->
     Headers_get (headers response) "Retry-After" = Some text ->
     Number_of_string text <> NumOther) ->
  exists w', pause attempt (Some response) w = (Returned tt, w').
Proof.
  intros Hpos Hnumber. unfold pause, getRetryDelayMs.
  destruct (Z.ltb_spec attempt 1); [lia|].
  destruct (Z.eqb_spec (status response) 429) as [Hstatus|]; [|by eexists].
  destruct (Headers_get (headers response) "Retry-After") as [text|] eqn:Hheader;
    [|by eexists].
  specialize (Hnumber text Hstatus eq_refl).
  destruct (truthy_string text); [|by eexists].
  destruct (Number_of_string text); [by eexists| |done].
  unfold mbind, M_bind, Date_parse, Date_now.
  destruct (Date_parse_host w text) as [retryDate|]; [|by eexists].
  destruct (clock w); destruct (_ >? 0); by eexists.
Qed.

Section attempts.
Context (makeRequest : M Response).
Implicit Types (attempt : Z) (later : list Z) (last : option Response).

(** An invocation that does not call for a retry, or the last one the
    budget allows, ends the loop with its outcome. *)
Lemma retry_attempts_stop attempt later last w outcome w1 :
  makeRequest w = (outcome, w1) ->
  calls_for_retry outcome = false \/ attempt = TRANSFER_RETRY_ATTEMPTS ->
  retry_attempts makeRequest (attempt :: later) last w = (outcome, w1).
Proof.
  intros Hrun Hstop. destruct outcome as [response|e|].
  - apply retry_attempts_return; [exact Hrun|].
    destruct Hstop as [Hfinal| ->]; [|by rewrite Z.eqb_refl, orb_true_r].
    cbn [calls_for_retry] in Hfinal.
    destruct (ok response), (shouldRetryTransfer response); done.
  - destruct Hstop as [Hfinal| ->]; [done|]. by apply retry_attempts_rethrow.
  - by apply retry_attempts_unmodelled.
Qed.

(** An invocation that calls for a retry is followed, while attempts
    remain, by the pause and the remaining attempts. *)
Lemma retry_attempts_go attempt later last w outcome w1 :
  makeRequest w = (outcome, w1) ->
  calls_for_retry outcome = true ->
  attempt <> TRANSFER_RETRY_ATTEMPTS ->
  exists last',
    retry_attempts makeRequest (attempt :: later) last w
    = (pause attempt (response_of outcome);; retry_attempts makeRequest later last') w1.
Proof.
  intros Hrun Hretry Hattempt. destruct outcome as [response|e|]; [| |done].
  - exists (Some response). rewrite <- bind_pause.
    apply retry_attempts_retry; [exact Hrun|].
    cbn [calls_for_retry] in Hretry. apply andb_true_iff in Hretry as [Hok Hstatus].
    apply negb_true_iff in Hok. rewrite Hok, Hstatus.
    by destruct (Z.eqb_spec attempt TRANSFER_RETRY_ATTEMPTS).
  - exists last. rewrite <- bind_pause.
    exact (retry_attempts_catch makeRequest attempt later last w e w1 Hrun Hattempt).
Qed.

Lemma attempt_starts_positive w attempt wk :
  attempt_starts makeRequest w attempt wk -> 1 <= attempt.
Proof. induction 1; lia. Qed.

(** From the start of an attempt on, the loop runs the attempts that are
    left. *)
Lemma attempt_starts_run w attempt wk :
  attempt_starts makeRequest w attempt wk ->
  attempt <= TRANSFER_RETRY_ATTEMPTS ->
  exists last,
    retryTransfer makeRequest w
    = retry_attempts makeRequest (seqZ attempt (4 - attempt)) last wk.
Proof.
  induction 1 as [|attempt wk outcome wk1 wk' Hstart IH Hrun Hretry Hpause]; intros Hle.
  - by exists None.
  - pose proof (attempt_starts_positive _ _ _ Hstart) as Hpos.
    unfold TRANSFER_RETRY_ATTEMPTS in *.
    destruct IH as [last IH]; [lia|].
    assert (Hattempt : attempt = 1 \/ attempt = 2) by lia.
    destruct (retry_attempts_go attempt (seqZ (attempt + 1) (3 - attempt)) last wk outcome wk1
                Hrun Hretry) as [last' Hgo]; [unfold TRANSFER_RETRY_ATTEMPTS; lia|].
    exists last'. rewrite IH.
    replace (seqZ attempt (4 - attempt)) with (attempt :: seqZ (attempt + 1) (3 - attempt))
      by (by destruct Hattempt as [-> | ->]).
    rewrite Hgo. erewrite bind_returned; [|exact Hpause].
    by destruct Hattempt as [-> | ->].
Qed.

(** The outcome of an invocation that does not call for a retry, or of the
    third one, is the outcome of [retryTransfer]. *)
Lemma retryTransfer_attempt w attempt wk outcome wk1 :
  attempt_starts makeRequest w attempt wk ->
  attempt <= TRANSFER_RETRY_ATTEMPTS ->
  makeRequest wk = (outcome, wk1) ->
  calls_for_retry outcome = false \/ attempt = TRANSFER_RETRY_ATTEMPTS ->
  retryTransfer makeRequest w = (outcome, wk1).
Proof.
  intros Hstart Hle Hrun Hstop.
  pose proof (attempt_starts_positive _ _ _ Hstart) as Hpos.
  destruct (attempt_starts_run w attempt wk Hstart Hle) as [last ->].
  unfold TRANSFER_RETRY_ATTEMPTS in *.
  assert (Hattempt : attempt = 1 \/ attempt = 2 \/ attempt = 3) by lia.
  replace (seqZ attempt (4 - attempt)) with (attempt :: seqZ (attempt + 1) (3 - attempt))
    by (by destruct Hattempt as [-> | [-> | ->]]).
  by apply retry_attempts_stop.
Qed.

(** A pause that leaves the model ends the run. *)
Lemma retryTransfer_pause_unmodelled w attempt wk outcome wk1 wx :
  attempt_starts makeRequest w attempt wk ->
  attempt < TRANSFER_RETRY_ATTEMPTS ->
  makeRequest wk = (outcome, wk1) ->
  calls_for_retry outcome = true ->
  pause attempt (response_of outcome) wk1 = (Unmodelled, wx) ->
  retryTransfer makeRequest w = (Unmodelled, wx).
Proof.
  intros Hstart Hlt Hrun Hretry Hpause.
  pose proof (attempt_starts_positive _ _ _ Hstart) as Hpos.
  destruct (attempt_starts_run w attempt wk Hstart) as [last ->]; [lia|].
  unfold TRANSFER_RETRY_ATTEMPTS in *.
  assert (Hattempt : attempt = 1 \/ attempt = 2) by lia.
  replace (seqZ attempt (4 - attempt)) with (attempt :: seqZ (attempt + 1) (3 - attempt))
    by (by destruct Hattempt as [-> | ->]).
  destruct (retry_attempts_go attempt (seqZ (attempt + 1) (3 - attempt)) last wk outcome wk1
              Hrun Hretry) as [last' ->]; [unfold TRANSFER_RETRY_ATTEMPTS; lia|].
  by erewrite bind_unmodelled.
Qed.

(** What an attempt leads to: the end of the run with the outcome of its
    invocation, the start of the next attempt, or a pause that leaves the
    model. *)
Lemma attempt_cases w attempt wk :
  attempt_starts makeRequest w attempt wk ->
  attempt <= TRANSFER_RETRY_ATTEMPTS ->
  (exists outcome wk1,
      makeRequest wk = (outcome, wk1)
      /\ (calls_for_retry outcome = false \/ attempt = TRANSFER_RETRY_ATTEMPTS)
      /\ retryTransfer makeRequest w = (outcome, wk1))
  \/ (exists wk', attempt < TRANSFER_RETRY_ATTEMPTS
                  /\ attempt_starts makeRequest w (attempt + 1) wk')
  \/ (exists outcome wk1 wx,
        attempt < TRANSFER_RETRY_ATTEMPTS
        /\ makeRequest wk = (outcome, wk1)
        /\ calls_for_retry outcome = true
        /\ pause attempt (response_of outcome) wk1 = (Unmodelled, wx)
        /\ retryTransfer makeRequest w = (Unmodelled, wx)).
Proof.
  intros Hstart Hle.
  destruct (makeRequest wk) as [outcome wk1] eqn:Hrun.
  destruct (calls_for_retry outcome) eqn:Hretry; cycle 1.
  { left. exists outcome, wk1. split; [done|]. split; [by left|].
    eapply retryTransfer_attempt; eauto. }
  destruct (Z.eq_dec attempt TRANSFER_RETRY_ATTEMPTS) as [Hlast|Hmore].
  { left. exists outcome, wk1. split; [done|]. split; [by right|].
    eapply retryTransfer_attempt; eauto. }
  assert (Hlt : attempt < TRANSFER_RETRY_ATTEMPTS) by lia.
  pose proof (pause_not_thrown attempt (response_of outcome) wk1) as Hnt.
  destruct (pause attempt (response_of outcome) wk1) as [[[]|e|] wx] eqn:Hpause.
  - right; left. exists wx. split; [done|]. by eapply attempt_next.
  - by destruct (Hnt e).
  - right; right. exists outcome, wk1, wx. repeat split; try done.
    by eapply retryTransfer_pause_unmodelled.
Qed.
End attempts.

Lemma counted_exact (makeRequest : M Response) w :
  preserves make_requests makeRequest ->
  make_requests (counted makeRequest w).2 = S (make_requests w).
Proof.
  intros Hm. unfold counted.
  rewrite (bind_returned_1 (log EvMakeRequest) _ w ()) by reflexivity.
  rewrite Hm. unfold make_requests. simpl. rewrite count_events_app. simpl. lia.
Qed.

(** Attempt number [attempt] starts after [attempt - 1] invocations. *)
Lemma attempt_starts_count (makeRequest : M Response) w attempt wk :
  preserves make_requests makeRequest ->
  attempt_starts (counted makeRequest) w attempt wk ->
  make_requests wk = (make_requests w + Z.to_nat (attempt - 1))%nat.
Proof.
  intros Hm.
  induction 1 as [|attempt wk outcome wk1 wk' Hstart IH Hrun Hretry Hpause].
  - simpl. lia.
  - pose proof (attempt_starts_positive _ _ _ _ Hstart) as Hpos.
    pose proof (pause_make_requests attempt (response_of outcome) wk1) as Hp.
    rewrite Hpause in Hp. simpl in Hp. rewrite Hp.
    pose proof (counted_exact makeRequest wk Hm) as Hc.
    rewrite Hrun in Hc. simpl in Hc. rewrite Hc, IH. lia.
Qed.

(** The attempts that are left invoke [makeRequest] once at least. *)
Lemma retry_attempts_at_least (makeRequest : M Response) attempts last w :
  preserves make_requests makeRequest ->
  (make_requests w + Nat.min 1 (length attempts)
   <= make_requests (retry_attempts (counted makeRequest) attempts last w).2)%nat.
Proof.
  intros Hm. revert last w.
  induction attempts as [|attempt later IH]; intros last w; [simpl; lia|].
  cbn [length]. replace (Nat.min 1 (S (length later))) with 1%nat by lia.
  pose proof (counted_exact makeRequest w Hm) as Hc.
  destruct (counted makeRequest w) as [outcome w1] eqn:Hrun. simpl in Hc.
  destruct (calls_for_retry outcome) eqn:Hretry; cycle 1.
  { erewrite retry_attempts_stop; [|exact Hrun|by left]. simpl. lia. }
  destruct (Z.eq_dec attempt TRANSFER_RETRY_ATTEMPTS) as [Hlast|Hmore].
  { erewrite retry_attempts_stop; [|exact Hrun|by right]. simpl. lia. }
  destruct (retry_attempts_go (counted makeRequest) attempt later last w outcome w1
              Hrun Hretry Hmore) as [last' ->].
  pose proof (pause_make_requests attempt (response_of outcome) w1) as Hp.
  destruct (pause attempt (response_of outcome) w1) as [[[]|e|] wx] eqn:Hpause; simpl in Hp.
  - erewrite bind_returned; [|exact Hpause].
    specialize (IH last' wx). lia.
  - erewrite bind_thrown; [|exact Hpause]. simpl. lia.
  - erewrite bind_unmodelled; [|exact Hpause]. simpl. lia.
Qed.

(** C3.  The retryable statuses are exactly 404, 429 and 500..504.
    Whatever the attempt, a response that is ok or has another status is what
    [retryTransfer] returns, in the world that invocation left: nothing is
    invoked after it.  A response that is not ok and has a retryable status
    is returned when it is the response of attempt 3; on attempt 1 or 2 it
    is followed, after the pause, by the next attempt, whose outcome is the
    result when it ends the loop.  (The pause returns, unless the response is
    a 429 whose [Retry-After] reads as a number that is no integer, which
    the model has no delay for.)  In numbers, for a [makeRequest] whose
    invocations show in the trace: [retryTransfer] invokes it at most three
    times, exactly [attempt] times when the response of that attempt is ok or
    has a status that is not retryable, and more than [attempt] times when
    that response is not ok, retryable, and not the third. *)
Theorem retryTransfer_attempt_budget (makeRequest : M Response) (w : World) :
  (forall response,
      shouldRetryTransfer response = true
      <-> status response = 404 \/ status response = 429 \/ 500 <= status response <= 504)
  /\ (forall attempt wk response wk1,
        attempt_starts makeRequest w attempt wk ->
        attempt <= TRANSFER_RETRY_ATTEMPTS ->
        makeRequest wk = (Returned response, wk1) ->
        (ok response = true \/ shouldRetryTransfer response = false ->
           retryTransfer makeRequest w = (Returned response, wk1))
        /\ (ok response = false -> shouldRetryTransfer response = true ->
            (attempt = TRANSFER_RETRY_ATTEMPTS ->
               retryTransfer makeRequest w = (Returned response, wk1))
            /\ (attempt < TRANSFER_RETRY_ATTEMPTS ->
                ((forall text,
                     status response = 429 ->
                     Headers_get (headers response) "Retry-After" = Some text ->
                     Number_of_string text <> NumOther) ->
                   exists wk', pause attempt (Some response) wk1 = (Returned tt, wk'))
                /\ forall wk', pause attempt (Some response) wk1 = (Returned tt, wk') ->
                     attempt_starts makeRequest w (attempt + 1) wk'
                     /\ forall outcome w',
                          makeRequest wk' = (outcome, w') ->
                          calls_for_retry outcome = false
                          \/ attempt + 1 = TRANSFER_RETRY_ATTEMPTS ->
                          retryTransfer makeRequest w = (outcome, w'))))
  /\ (forall request,
        makeRequest = counted request ->
        preserves make_requests request ->
        (make_requests (retryTransfer makeRequest w).2 <= make_requests w + 3)%nat
        /\ forall attempt wk response wk1,
             attempt_starts makeRequest w attempt wk ->
             attempt <= TRANSFER_RETRY_ATTEMPTS ->
             makeRequest wk = (Returned response, wk1) ->
             (ok response = true \/ shouldRetryTransfer response = false ->
                make_requests (retryTransfer makeRequest w).2
                = (make_requests w + Z.to_nat attempt)%nat)
             /\ (ok response = false -> shouldRetryTransfer response = true ->
                 attempt < TRANSFER_RETRY_ATTEMPTS ->
                 forall wk', pause attempt (Some response) wk1 = (Returned tt, wk') ->
                   (make_requests w + Z.to_nat attempt + 1
                    <= make_requests (retryTransfer makeRequest w).2)%nat)).
Proof.
  split; [apply shouldRetryTransfer_spec|].
  assert (Hfinal : forall response,
            ok response = true \/ shouldRetryTransfer response = false ->
            calls_for_retry (Returned response) = false).
  { intros response [Hok|Hstatus]; cbn [calls_for_retry]; [by rewrite Hok|].
    rewrite Hstatus. apply andb_false_r. }
  assert (Hnext : forall attempt wk response wk1 wk',
            attempt_starts makeRequest w attempt wk ->
            makeRequest wk = (Returned response, wk1) ->
            ok response = false -> shouldRetryTransfer response = true ->
            pause attempt (Some response) wk1 = (Returned tt, wk') ->
            attempt_starts makeRequest w (attempt + 1) wk').
  { intros attempt wk response wk1 wk' Hstart Hrun Hok Hstatus Hpause.
    eapply attempt_next; [exact Hstart|exact Hrun| |exact Hpause].
    cbn [calls_for_retry]. by rewrite Hok, Hstatus. }
  split.
  - intros attempt wk response wk1 Hstart Hle Hrun. split.
    + intros Hstop.
      eapply retryTransfer_attempt; [exact Hstart|exact Hle|exact Hrun|].
      left. by apply Hfinal.
    + intros Hok Hstatus. split.
      * intros Hlast.
        eapply retryTransfer_attempt; [exact Hstart|exact Hle|exact Hrun|by right].
      * intros Hlt. split.
        { apply pause_returns. by eapply attempt_starts_positive. }
        intros wk' Hpause.
        pose proof (Hnext _ _ _ _ _ Hstart Hrun Hok Hstatus Hpause) as Hstart'.
        split; [exact Hstart'|].
        intros outcome w' Hrun' Hstop.
        eapply retryTransfer_attempt; [exact Hstart'|lia|exact Hrun'|exact Hstop].
  - intros request -> Hm. split.
    { apply (retry_attempts_bumps request (seqZ 1 TRANSFER_RETRY_ATTEMPTS) None Hm w). }
    intros attempt wk response wk1 Hstart Hle Hrun.
    pose proof (attempt_starts_positive _ _ _ _ Hstart) as Hpos.
    pose proof (attempt_starts_count request w attempt wk Hm Hstart) as Hcount.
    pose proof (counted_exact request wk Hm) as Hone.
    rewrite Hrun in Hone. simpl in Hone.
    split.
    + intros Hstop.
      erewrite retryTransfer_attempt; [|exact Hstart|exact Hle|exact Hrun|left; by apply Hfinal].
      simpl. lia.
    + intros Hok Hstatus Hlt wk' Hpause.
      pose proof (Hnext _ _ _ _ _ Hstart Hrun Hok Hstatus Hpause) as Hstart'.
      pose proof (attempt_starts_count request w _ wk' Hm Hstart') as Hcount'.
      destruct (attempt_starts_run (counted request) w _ wk' Hstart') as [last ->]; [lia|].
      pose proof (retry_attempts_at_least request
                    (seqZ (attempt + 1) (4 - (attempt + 1))) last wk' Hm) as Hleast.
      unfold TRANSFER_RETRY_ATTEMPTS in *.
      assert (Hlen : length (seqZ (attempt + 1) (4 - (attempt + 1))) <> O).
      { assert (Hattempt : attempt = 1 \/ attempt = 2) by lia.
        by destruct Hattempt as [-> | ->]. }
      lia.
Qed.

Lemma retry_attempts_outcome (makeRequest : M Response) attempts last w o w' :
  attempts <> [] -> ends_with_final attempts ->
  retry_attempts makeRequest attempts last w = (o, w') ->
  o = Unmodelled \/ exists w0, makeRequest w0 = (o, w').
Proof.
  revert last w.
  induction attempts as [|attempt later IH]; intros last w Hne Hfinal Hrun; [done|].
  assert (Hlater : later = [] /\ attempt = TRANSFER_RETRY_ATTEMPTS
                   \/ later <> [] /\ ends_with_final later).
  { destruct later as [|next later']; [left; by split|right; split; [done|]].
    exact Hfinal. }
  assert (Hcont : forall response last' w1,
            (getRetryDelayMs attempt response
             ≫= fun delayMs : Z => sleep delayMs;; retry_attempts makeRequest later last') w1
            = (o, w') ->
            later <> [] -> ends_with_final later ->
            o = Unmodelled \/ exists w0, makeRequest w0 = (o, w')).
  { intros response last' w1 Hk Hne' Hfin'.
    pose proof (getRetryDelayMs_not_thrown attempt response w1) as Hnt.
    destruct (bind_cases (getRetryDelayMs attempt response)
                (fun delayMs : Z => sleep delayMs;; retry_attempts makeRequest later last') w1)
      as [(d & w2 & _ & Hb)|[(e & w2 & Hd & Hb)|(w2 & _ & Hb)]]; rewrite Hb in Hk.
    - destruct (sleep_returns d w2) as [w3 Hs].
      erewrite bind_returned in Hk; [|exact Hs]. by eapply IH.
    - rewrite Hd in Hnt. by destruct (Hnt e).
    - injection Hk as <- <-. by left. }
  destruct (makeRequest w) as [[response|e|] w1] eqn:Hm.
  - destruct (ok response || negb (shouldRetryTransfer response)
              || (attempt =? TRANSFER_RETRY_ATTEMPTS)) eqn:Hc.
    + erewrite retry_attempts_return in Hrun by done.
      injection Hrun as <- <-. right. by exists w.
    + erewrite retry_attempts_retry in Hrun by done.
      destruct Hlater as [[_ ->]|[Hne' Hfin']].
      { rewrite Z.eqb_refl, orb_true_r in Hc. done. }
      by eapply Hcont.
  - destruct (Z.eq_dec attempt TRANSFER_RETRY_ATTEMPTS) as [Heq|Hneq].
    + erewrite retry_attempts_rethrow in Hrun by done.
      injection Hrun as <- <-. right. by exists w.
    + erewrite retry_attempts_catch in Hrun by done.
      destruct Hlater as [[_ ->]|[Hne' Hfin']]; [done|].
      by eapply Hcont.
  - erewrite retry_attempts_unmodelled in Hrun by done.
    injection Hrun as <- <-. by left.
Qed.

(** C6 as worded fails on [flaky_world]: two responses were
    received, yet the error of the third attempt is thrown. *)
Lemma last_response_as_claimed_fails : ~ last_response_as_claimed.
Proof.
  intros Hclaim.
  specialize (Hclaim "/me/player" sample_init flaky_world
                (ApiHttp unavailable) (ApiHttp unavailable) ApiNetworkError
                eq_refl eq_refl).
  vm_compute in Hclaim. discriminate Hclaim.
Qed.

Ltac attempt_case Hstart Hrun :=
  let o := fresh "o" in let wk1 := fresh "wk1" in let wx := fresh "wx" in
  let Hm := fresh "Hm" in let Hstop := fresh "Hstop" in let Hres := fresh "Hres" in
  let Hlt := fresh "Hlt" in let Hnext := fresh "Hnext" in
  let Hretry := fresh "Hretry" in let Hpause := fresh "Hpause" in
  match type of Hstart with
  | attempt_starts ?m ?w ?k ?wk =>
      destruct (attempt_cases m w k wk Hstart ltac:(unfold TRANSFER_RETRY_ATTEMPTS; lia))
        as [(o & wk1 & Hm & Hstop & Hres)
           |[(wx & Hlt & Hnext)|(o & wk1 & wx & Hlt & Hm & Hretry & Hpause & Hres)]];
      [ rewrite Hres in Hrun; injection Hrun as <- <-; left; exists k, wk;
        split; [unfold TRANSFER_RETRY_ATTEMPTS; lia|done]
      | idtac
      | rewrite Hres in Hrun; injection Hrun as <- <-; right; split; [done|];
        by exists k, wk, o, wk1 ]
  end.

(** C6, as amended.  The outcome of [retryTransfer], and the world it ends
    in, are those of the last invocation of [makeRequest] in its run: an
    invocation that did not call for a retry, or the third one.  (The run can
    also leave the model in the pause after an attempt.)  Whatever the third
    invocation yields is the result: a response, ok or not, is returned, and
    an error is thrown again, whether or not the attempts before it had
    received responses.  An error on attempt 1 or 2 is followed by a sleep of
    the exponential delay and by the next attempt, whose outcome is the
    result when it does not call for a retry or is the third. *)
Theorem retryTransfer_final_outcome (makeRequest : M Response) (w : World) :
  (forall outcome w',
      retryTransfer makeRequest w = (outcome, w') ->
      (exists attempt wk,
          attempt <= TRANSFER_RETRY_ATTEMPTS
          /\ attempt_starts makeRequest w attempt wk
          /\ makeRequest wk = (outcome, w')
          /\ (calls_for_retry outcome = false \/ attempt = TRANSFER_RETRY_ATTEMPTS))
      \/ (outcome = Unmodelled
          /\ exists attempt wk failed wk1,
               attempt < TRANSFER_RETRY_ATTEMPTS
               /\ attempt_starts makeRequest w attempt wk
               /\ makeRequest wk = (failed, wk1)
               /\ calls_for_retry failed = true
               /\ pause attempt (response_of failed) wk1 = (Unmodelled, w')))
  /\ (forall w3 outcome w',
        attempt_starts makeRequest w TRANSFER_RETRY_ATTEMPTS w3 ->
        makeRequest w3 = (outcome, w') ->
        retryTransfer makeRequest w = (outcome, w'))
  /\ (forall attempt wk e wk1,
        attempt_starts makeRequest w attempt wk ->
        attempt < TRANSFER_RETRY_ATTEMPTS ->
        makeRequest wk = (Thrown e, wk1) ->
        let delay := Z.min (TRANSFER_RETRY_BASE_DELAY_MS * 2 ^ (attempt - 1))
                       TRANSFER_RETRY_MAX_DELAY_MS in
        pause attempt None wk1 = sleep delay wk1
        /\ attempt_starts makeRequest w (attempt + 1) (sleep delay wk1).2
        /\ forall outcome w',
             makeRequest (sleep delay wk1).2 = (outcome, w') ->
             calls_for_retry outcome = false \/ attempt + 1 = TRANSFER_RETRY_ATTEMPTS ->
             retryTransfer makeRequest w = (outcome, w')).
Proof.
  split; [|split].
  - intros outcome w' Hrun.
    pose proof (attempt_first makeRequest w) as Hfirst.
    attempt_case Hfirst Hrun.
    attempt_case Hnext Hrun.
    attempt_case Hnext0 Hrun.
    unfold TRANSFER_RETRY_ATTEMPTS in *. lia.
  - intros w3 outcome w' Hstart Hrun.
    eapply retryTransfer_attempt; [exact Hstart|done|exact Hrun|by right].
  - intros attempt wk e wk1 Hstart Hlt Hrun delay.
    pose proof (attempt_starts_positive _ _ _ _ Hstart) as Hpos.
    assert (Hpause : pause attempt None wk1 = sleep delay wk1).
    { unfold pause. erewrite bind_returned; [reflexivity|].
      by apply getRetryDelayMs_exponential. }
    assert (Hnext : attempt_starts makeRequest w (attempt + 1) (sleep delay wk1).2).
    { eapply attempt_next; [exact Hstart|exact Hrun|done|].
      cbn [response_of]. by rewrite Hpause. }
    split; [exact Hpause|]. split; [exact Hnext|].
    intros outcome w' Hrun' Hstop.
    eapply retryTransfer_attempt; [exact Hnext|lia|exact Hrun'|exact Hstop].
Qed.

(** The seconds branch: whatever integer [Number] reads from the header is
    turned into milliseconds and capped, with no check of its sign. *)
Lemma getRetryDelayMs_seconds attempt response text seconds w :
  status response = 429 ->
  Headers_get (headers response) "Retry-After" = Some text ->
  truthy_string text = true ->
  Number_of_string text = NumInt seconds ->
  getRetryDelayMs attempt (Some response) w
  = (Returned (Z.min (seconds * 1000) TRANSFER_RETRY_MAX_DELAY_MS), w).
Proof.
  intros Hstatus Hheader Htruthy Hnumber. unfold getRetryDelayMs.
  by rewrite Hstatus, Hheader, Htruthy, Hnumber.
Qed.

(** No delay exceeds the cap. *)
Lemma getRetryDelayMs_at_most_max attempt response w delay w' :
  getRetryDelayMs attempt response w = (Returned delay, w') ->
  delay <= TRANSFER_RETRY_MAX_DELAY_MS.
Proof.
  unfold getRetryDelayMs, Date_parse, Date_now, mbind, M_bind, mret, M_ret, unmodelled.
  intros H. repeat case_match; simplify_eq; apply Z.le_min_r.
Qed.

(** C5 at the failing input: a 429 with [Retry-After: 0] gives a delay of
    0 ms, and [Retry-After: -1] a delay of -1000 ms, where the exponential
    policy for the first attempt gives 350 ms. *)
Theorem getRetryDelayMs_nonpositive_retry_after (w : World) :
  getRetryDelayMs 1
    (Some {| status := 429; headers := {[ "retry-after" := "0" ]}; body := "" |}) w
  = (Returned 0, w)
  /\ getRetryDelayMs 1
    (Some {| status := 429; headers := {[ "retry-after" := "-1" ]}; body := "" |}) w
  = (Returned (-1000), w)
  /\ getRetryDelayMs 1 None w = (Returned 350, w).
Proof. repeat split. Qed.

(* ===================================================================== *)
(** ** [spotifyFetch] *)

(** C2 as worded fails on [revoked_world]: [getAccessToken] refreshes the
    stale credential, the first request is answered with 401, and the call
    refreshes a second time. *)
Lemma single_refresh_as_claimed_fails : ~ single_refresh_as_claimed.
Proof.
  intros Hclaim.
  specialize (Hclaim "/me/player" sample_init sample_env revoked_world "A2"
                unauthorized [ApiHttp success]).
  assert (Hrun : refresh_calls (spotifyFetch "/me/player" sample_init sample_env revoked_world).2
                 = 2%nat) by (vm_compute; reflexivity).
  rewrite Hrun in Hclaim.
  assert (Hstart : refresh_calls revoked_world = 0%nat) by reflexivity.
  rewrite Hstart in Hclaim.
  assert (Hfirst : (getAccessToken sample_env revoked_world).1 = Returned (Some "A2"))
    by (vm_compute; reflexivity).
  specialize (Hclaim Hfirst eq_refl eq_refl eq_refl). lia.
Qed.

Lemma fetch_api_requests url init : bumps api_requests 1 (fetch url init).
Proof.
  intros w. unfold fetch.
  rewrite (bind_returned_1 (log (EvApiRequest url init)) _ w ()) by reflexivity.
  assert (Hn : preserves api_requests next_api_reply) by frame.
  rewrite Hn. unfold api_requests. simpl. rewrite count_events_app. simpl. lia.
Qed.

Lemma getAccessToken_api_requests env : preserves api_requests (getAccessToken env).
Proof. frame. Qed.

Lemma refresh_block_bumps {A} rt env (f : Tokens -> A) handler :
  (forall e, preserves refresh_calls (handler e)) ->
  bumps refresh_calls 1
    (try_catch (newTokens ← refreshAccessToken rt env; writeTokens newTokens env;; mret (f newTokens))
       handler).
Proof. intros Hh w. rewrite refresh_block_refresh_calls by done. lia. Qed.

Lemma getAccessToken_refresh_calls env : bumps refresh_calls 1 (getAccessToken env).
Proof.
  unfold getAccessToken.
  apply (bumps_bind refresh_calls _ _ 0 1); [apply bumps_preserves; frame|].
  intros [tokens|]; [|apply bumps_preserves; frame].
  apply (bumps_bind refresh_calls _ _ 0 1); [apply bumps_preserves; frame|].
  intros now_ms. cbv zeta.
  destruct (number_gtb (expires_at tokens) _); [apply bumps_preserves; frame|].
  apply refresh_block_bumps. intros e. apply preserves_ret.
Qed.

(** After the access token was obtained: at most one more refresh, at most
    two requests to the resource API. *)
Lemma spotifyFetch_counts path options env :
  bumps api_requests 2 (spotifyFetch path options env)
  /\ bumps refresh_calls 2 (spotifyFetch path options env)
  /\ forall w, (refresh_calls (spotifyFetch path options env w).2
                <= refresh_calls (getAccessToken env w).2 + 1)%nat.
Proof.
  assert (Hrest : forall (accessToken : option string),
    let rest :=
      (if negb (truthy_opt_string accessToken) then throw NoAccessTokenAvailable
       else
         let url := if String.prefix "http" path then path else SPOTIFY_API_BASE +:+ path in
         response ← fetch url (with_bearer options accessToken);
         if status response =? 401 then
           tokens ← readTokens env;
           match tokens with
           | None => mret response
           | Some tokens =>
               refreshed ←
                 try_catch
                   (newTokens ← refreshAccessToken (refresh_token tokens) env;
                    writeTokens newTokens env;;
                    mret (Some (access_token newTokens)))
                   (fun error => mret None);
               match refreshed with
               | Some refreshedToken => fetch url (with_bearer options refreshedToken)
               | None => mret response
               end
           end
         else mret response) in
    bumps api_requests 2 rest /\ bumps refresh_calls 1 rest).
  { intros accessToken rest. subst rest. cbv zeta.
    destruct (negb (truthy_opt_string accessToken)).
    { split; apply bumps_preserves, preserves_throw. }
    split.
    - apply (bumps_bind api_requests _ _ 1 1); [apply fetch_api_requests|].
      intros response. destruct (status response =? 401); [|apply bumps_preserves; frame].
      apply (bumps_bind api_requests _ _ 0 1); [apply bumps_preserves; frame|].
      intros [tokens|]; [|apply bumps_preserves; frame].
      apply (bumps_bind api_requests _ _ 0 1); [apply bumps_preserves; frame|].
      intros [refreshedToken|]; [apply fetch_api_requests|apply bumps_preserves; frame].
    - apply (bumps_bind refresh_calls _ _ 0 1); [apply bumps_preserves; frame|].
      intros response. destruct (status response =? 401); [|apply bumps_preserves; frame].
      apply (bumps_bind refresh_calls _ _ 0 1); [apply bumps_preserves; frame|].
      intros [tokens|]; [|apply bumps_preserves; frame].
      apply (bumps_bind refresh_calls _ _ 1 0).
      + apply refresh_block_bumps. intros e. apply preserves_ret.
      + intros [refreshedToken|]; apply bumps_preserves; frame. }
  repeat split.
  - unfold spotifyFetch.
    apply (bumps_bind api_requests _ _ 0 2);
      [apply bumps_preserves, getAccessToken_api_requests|].
    intros accessToken. apply (Hrest accessToken).
  - unfold spotifyFetch.
    apply (bumps_bind refresh_calls _ _ 1 1); [apply getAccessToken_refresh_calls|].
    intros accessToken. apply (Hrest accessToken).
  - intros w. unfold spotifyFetch. unfold mbind at 1, M_bind at 1.
    destruct (getAccessToken env w) as [[accessToken|e|] wa]; simpl; [|lia..].
    apply (Hrest accessToken).
Qed.

Lemma spotifyFetch_unauthorized path options env w token wa response wb :
  getAccessToken env w = (Returned (Some token), wa) ->
  truthy_string token = true ->
  fetch (request_url path) (with_bearer options (Some token)) wa = (Returned response, wb) ->
  status response = 401 ->
  ((readTokens env wb).1 = Returned None ->
     (spotifyFetch path options env w).1 = Returned response)
  /\ (forall tokens, (readTokens env wb).1 = Returned (Some tokens) ->
        refresh_fails env wb = true ->
        (spotifyFetch path options env w).1 = Returned response).
Proof.
  intros Htoken Htruthy Hfetch Hstatus.
  unfold spotifyFetch.
  erewrite bind_returned; [|exact Htoken].
  cbn [truthy_opt_string]. rewrite Htruthy. cbn [negb]. cbv zeta.
  erewrite bind_returned; [|exact Hfetch].
  rewrite Hstatus. cbn [Z.eqb Pos.eqb].
  split.
  - intros Hread. by erewrite bind_returned_1; [|exact Hread].
  - intros tokens Hread Hfail.
    erewrite bind_returned_1; [|exact Hread]. cbv beta iota.
    set (wc := (readTokens env wb).2).
    assert (Hfail' : refresh_fails env wc = true).
    { unfold refresh_fails in *. subst wc.
      by rewrite (preserves_readTokens_token_endpoint env wb). }
    destruct (refreshAccessToken_fails (refresh_token tokens) env wc Hfail') as (e & w' & Hr).
    erewrite bind_returned; cycle 1.
    { erewrite try_catch_thrown; [reflexivity|]. by erewrite bind_thrown; [|exact Hr]. }
    reflexivity.
Qed.

(** C2, as amended.  One call of [spotifyFetch] sends at most two requests
    to the resource API (the original and one retry) and enters
    [refreshAccessToken] at most once after it has obtained its access token
    (at most twice in all, counting a refresh that [getAccessToken] made
    before the first request).  When the first request is answered with 401
    and no credential is stored, or the refresh fails, the call returns that
    401 response. *)
Theorem spotifyFetch_single_retry
    (path : string) (options : RequestInit) (env : Env) (w : World) :
  (api_requests (spotifyFetch path options env w).2 <= api_requests w + 2)%nat
  /\ (refresh_calls (spotifyFetch path options env w).2
      <= refresh_calls (getAccessToken env w).2 + 1)%nat
  /\ (refresh_calls (spotifyFetch path options env w).2 <= refresh_calls w + 2)%nat
  /\ forall token wa response wb,
       getAccessToken env w = (Returned (Some token), wa) ->
       truthy_string token = true ->
       fetch (request_url path) (with_bearer options (Some token)) wa
       = (Returned response, wb) ->
       status response = 401 ->
       ((readTokens env wb).1 = Returned None ->
          (spotifyFetch path options env w).1 = Returned response)
       /\ (forall tokens, (readTokens env wb).1 = Returned (Some tokens) ->
             refresh_fails env wb = true ->
             (spotifyFetch path options env w).1 = Returned response).
Proof.
  destruct (spotifyFetch_counts path options env) as (Hapi & Hrefresh & Hafter).
  split; [apply Hapi|]. split; [apply Hafter|]. split; [apply Hrefresh|].
  intros token wa response wb. apply spotifyFetch_unauthorized.
Qed.

(* ===================================================================== *)
(** ** Storage round trip, expiry, and the store boundary *)

(** C8 as worded fails when the reply reports a lifetime of 0: the
    record then expires 3600 seconds after the clock, not 0. *)
Lemma expiry_as_claimed_fails : ~ expiry_as_claimed.
Proof.
  intros Hclaim.
  assert (Hrun : refreshAccessToken (Some "R1") sample_env zero_lifetime_world
                 = (Returned {| access_token := Some "A2"; refresh_token := Some "R1";
                                expires_at := Int 1700003600 |},
                    (refreshAccessToken (Some "R1") sample_env zero_lifetime_world).2))
    by (vm_compute; reflexivity).
  specialize (Hclaim _ _ _ _ _ _ _ _ Hrun eq_refl eq_refl).
  vm_compute in Hclaim. discriminate Hclaim.
Qed.

(** C9 as worded fails in two ways.  [writeTokens] accepts a record whose
    [expires_at] is [Infinity], which is stored as [null] and read back as
    absent; and a read that the namespace rejects returns absent whatever was
    written before it. *)
Lemma round_trip_as_claimed_fails :
  ~ round_trip_as_claimed
  /\ (writeTokens unending_tokens sample_env empty_world).1 = Returned tt
  /\ (readTokens sample_env (writeTokens unending_tokens sample_env empty_world).2).1
     = Returned None
  /\ (writeTokens fresh_tokens sample_env failing_read_world).1 = Returned tt
  /\ (readTokens sample_env (writeTokens fresh_tokens sample_env failing_read_world).2).1
     = Returned None.
Proof.
  split; [|repeat split; vm_compute; reflexivity].
  intros Hclaim.
  specialize (Hclaim sample_env unending_tokens empty_world
                (writeTokens unending_tokens sample_env empty_world).2).
  assert (Hwrite : writeTokens unending_tokens sample_env empty_world
                   = (Returned tt, (writeTokens unending_tokens sample_env empty_world).2))
    by (vm_compute; reflexivity).
  specialize (Hclaim Hwrite). vm_compute in Hclaim. discriminate Hclaim.
Qed.

(** C9, as amended.  A record with a finite [expires_at] that [writeTokens]
    accepted is what the [readTokens] that follows returns, member for
    member, when the namespace does not reject that read; when it does,
    [readTokens] returns absent. *)
Theorem write_then_read_round_trip (env : Env) (tokens : Tokens) (w w1 : World) (e : Z) :
  writeTokens tokens env w = (Returned tt, w1) ->
  expires_at tokens = Int e ->
  (next_kv_fault w1 = false ->
     readTokens env w1 = (Returned (Some tokens), drop_kv_faults 1 w1))
  /\ (next_kv_fault w1 = true ->
     readTokens env w1 = (Returned None, drop_kv_faults 1 w1)).
Proof.
  intros Hwrite Hfinite. split; [|by apply readTokens_fault].
  intros Hread.
  destruct (writeTokens_cases tokens env w) as [(Hv & _ & Hw)|(w2 & Hw & _)];
    rewrite Hw in Hwrite; [|done].
  injection Hwrite as <-.
  assert (Hfields : exists a r, access_token tokens = Some a /\ refresh_token tokens = Some r).
  { unfold valid_tokens in Hv.
    destruct (access_token tokens), (refresh_token tokens); cbn in Hv;
      rewrite ?andb_false_r in Hv; try done. eauto. }
  destruct Hfields as (a & r & Ha & Hr).
  destruct tokens as [at' rt' e']. simpl in Ha, Hr, Hfinite. subst at' rt' e'.
  apply readTokens_stored; [exact Hv| |exact Hread].
  unfold stored, after_put. cbn [kv]. apply lookup_insert_eq.
Qed.

(** C10.  No record with an empty or missing access token, an empty or
    missing refresh token, or an expiry of 0 or NaN crosses the store: what
    [readTokens] returns has three truthy members; a stored object with a
    missing or falsy member reads as absent; and [writeTokens] throws on such
    a record and leaves the world as it was. *)
Theorem store_boundary_rejects_falsy (env : Env) :
  (forall w tokens w',
      readTokens env w = (Returned (Some tokens), w') ->
      exists a r e,
        access_token tokens = Some a /\ a <> ""
        /\ refresh_token tokens = Some r /\ r <> ""
        /\ expires_at tokens = Int e /\ e <> 0)
  /\ (forall w data members rest,
        kv w !! TOKENS_KEY = Some data ->
        JSON_parse data = POk (JObj members) rest ->
        truthy (lookup_member "access_token" members)
          && truthy (lookup_member "refresh_token" members)
          && truthy (lookup_member "expires_at" members) = false ->
        (readTokens env w).1 = Returned None)
  /\ (forall tokens w,
        access_token tokens = None \/ access_token tokens = Some ""
        \/ refresh_token tokens = None \/ refresh_token tokens = Some ""
        \/ expires_at tokens = Int 0 \/ expires_at tokens = NaN ->
        writeTokens tokens env w = (Thrown FailedToSaveTokens, w)).
Proof.
  repeat split.
  - intros w tokens w' Hread.
    destruct (readTokens_finite env w tokens w' Hread) as [e Hfinite].
    apply readTokens_valid in Hread as (a & r & Ha & Hr & Hv).
    exists a, r, e. unfold valid_tokens in Hv. rewrite Ha, Hr, Hfinite in Hv. cbn in Hv.
    apply andb_true_iff in Hv as [Hv He]. apply andb_true_iff in Hv as [Hta Htr].
    repeat split; try done.
    + by intros ->.
    + by intros ->.
    + unfold truthy_number in He. apply negb_true_iff in He. lia.
  - intros w data members rest Hdata Hparse Hfalsy.
    by erewrite readTokens_falsy.
  - intros tokens w Hfalsy. apply writeTokens_invalid. unfold valid_tokens.
    destruct Hfalsy as [-> | [-> | [-> | [-> | [-> | ->]]]]]; cbn;
      rewrite ?andb_false_r; done.
Qed.

(* ===================================================================== *)
(** ** The refresh token across a refresh *)

Lemma fetch_kv url init : preserves kv (fetch url init).
Proof. frame. Qed.

Lemma stored_after_put tokens w :
  stored (after_put TOKENS_KEY (JSON_stringify (Tokens_to_JSON tokens)) w) tokens.
Proof. unfold stored, after_put. cbn [kv]. apply lookup_insert_eq. Qed.

Lemma getAccessToken_persists env w w1 tokens response later data :
  readTokens env w = (Returned (Some tokens), w1) ->
  number_gtb (expires_at tokens) (next_now w1 + 60) = false ->
  token_endpoint w = TokenHttp response :: later ->
  token_json response = Some data ->
  data_refresh_token data = None ->
  (kv (getAccessToken env w).2 = kv w
   \/ exists newTokens,
        stored (getAccessToken env w).2 newTokens
        /\ refresh_token newTokens = refresh_token tokens
        /\ access_token newTokens = data_access_token data)
  /\ forall token, (getAccessToken env w).1 = Returned (Some token) ->
       exists newTokens,
         stored (getAccessToken env w).2 newTokens
         /\ refresh_token newTokens = refresh_token tokens
         /\ access_token newTokens = Some token.
Proof.
  intros Hread Hstale Hreply Hjson Hnone.
  rewrite (getAccessToken_stale env w tokens w1 Hread Hstale).
  assert (Hkv : kv (tick w1) = kv w).
  { rewrite tick_kv. by rewrite <- (preserves_readTokens_kv env w), Hread. }
  assert (Hte : token_endpoint (tick w1) = TokenHttp response :: later).
  { rewrite tick_token_endpoint.
    by rewrite <- Hreply, <- (preserves_readTokens_token_endpoint env w), Hread. }
  destruct (refresh_block_cases (refresh_token tokens) env access_token (tick w1))
    as [(newTokens & w2 & Hr & Hv & Hb)|[(e & w2 & Hb & Hkv2)|(w2 & Hb & Hkv2)]].
  - erewrite try_catch_returned; [|exact Hb]. cbn [fst snd].
    destruct (refreshAccessToken_carries_forward env w tokens w1 (tick w1) newTokens w2
                response later data) as [Hrt Hat]; try done.
    pose proof (stored_after_put newTokens w2) as Hs.
    split; [right; by exists newTokens|].
    intros token [= Htoken]. by exists newTokens.
  - erewrite try_catch_thrown; [|exact Hb]. cbn. split; [left; congruence|done].
  - erewrite try_catch_unmodelled; [|exact Hb]. cbn. split; [left; congruence|done].
Qed.

Lemma spotifyFetch_persists path options env w token wa answer wb tokens wc
    response later data :
  getAccessToken env w = (Returned (Some token), wa) ->
  truthy_string token = true ->
  fetch (request_url path) (with_bearer options (Some token)) wa = (Returned answer, wb) ->
  status answer = 401 ->
  readTokens env wb = (Returned (Some tokens), wc) ->
  token_endpoint wb = TokenHttp response :: later ->
  token_json response = Some data ->
  data_refresh_token data = None ->
  kv (spotifyFetch path options env w).2 = kv wb
  \/ exists newTokens,
       stored (spotifyFetch path options env w).2 newTokens
       /\ refresh_token newTokens = refresh_token tokens
       /\ access_token newTokens = data_access_token data.
Proof.
  intros Htoken Htruthy Hfetch Hstatus Hread Hreply Hjson Hnone.
  unfold spotifyFetch.
  erewrite bind_returned; [|exact Htoken].
  cbn [truthy_opt_string]. rewrite Htruthy. cbn [negb]. cbv zeta.
  erewrite bind_returned; [|exact Hfetch].
  rewrite Hstatus. cbn [Z.eqb Pos.eqb].
  erewrite bind_returned; [|exact Hread]. cbv beta iota.
  assert (Hkv : kv wc = kv wb).
  { by rewrite <- (preserves_readTokens_kv env wb), Hread. }
  assert (Hte : token_endpoint wc = TokenHttp response :: later).
  { by rewrite <- Hreply, <- (preserves_readTokens_token_endpoint env wb), Hread. }
  destruct (refresh_block_cases (refresh_token tokens) env
              (fun newTokens => Some (access_token newTokens)) wc)
    as [(newTokens & w2 & Hr & Hv & Hb)|[(e & w2 & Hb & Hkv2)|(w2 & Hb & Hkv2)]].
  - erewrite bind_returned; [|by erewrite try_catch_returned; [|exact Hb]].
    destruct (refreshAccessToken_carries_forward env wb tokens wc wc newTokens w2
                response later data) as [Hrt Hat]; try done.
    right. exists newTokens. split; [|done].
    unfold stored. rewrite fetch_kv. apply stored_after_put.
  - erewrite bind_returned; [|by erewrite try_catch_thrown; [|exact Hb]].
    left. cbn. congruence.
  - erewrite bind_unmodelled; [|by erewrite try_catch_unmodelled; [|exact Hb]].
    left. cbn. congruence.
Qed.

(** C4.  When the reply of the token endpoint has no [refresh_token], the
    record built by [refreshAccessToken] and persisted by its two callers
    carries the refresh token that was stored before.  For
    [refreshAccessToken] called with the stored refresh token: the record it
    returns has that refresh token.  For [getAccessToken] and for the 401
    path of [spotifyFetch]: either nothing is written, or the namespace then
    holds a record with the old refresh token and the new access token; and
    whenever [getAccessToken] returns a token, such a record has been
    written. *)
Theorem refresh_keeps_stored_refresh_token
    (env : Env) (tokens : Tokens)
    (response : TokenResponse) (later : list TokenReply) (data : TokenData) :
  token_json response = Some data ->
  data_refresh_token data = None ->
  (forall w0 w1 w newTokens w',
      readTokens env w0 = (Returned (Some tokens), w1) ->
      kv w = kv w0 ->
      token_endpoint w = TokenHttp response :: later ->
      refreshAccessToken (refresh_token tokens) env w = (Returned newTokens, w') ->
      refresh_token newTokens = refresh_token tokens)
  /\ (forall w w1,
        readTokens env w = (Returned (Some tokens), w1) ->
        number_gtb (expires_at tokens) (next_now w1 + 60) = false ->
        token_endpoint w = TokenHttp response :: later ->
        (kv (getAccessToken env w).2 = kv w
         \/ exists newTokens,
              stored (getAccessToken env w).2 newTokens
              /\ refresh_token newTokens = refresh_token tokens
              /\ access_token newTokens = data_access_token data)
        /\ forall token, (getAccessToken env w).1 = Returned (Some token) ->
             exists newTokens,
               stored (getAccessToken env w).2 newTokens
               /\ refresh_token newTokens = refresh_token tokens
               /\ access_token newTokens = Some token)
  /\ (forall path options w token wa answer wb wc,
        getAccessToken env w = (Returned (Some token), wa) ->
        truthy_string token = true ->
        fetch (request_url path) (with_bearer options (Some token)) wa
        = (Returned answer, wb) ->
        status answer = 401 ->
        readTokens env wb = (Returned (Some tokens), wc) ->
        token_endpoint wb = TokenHttp response :: later ->
        kv (spotifyFetch path options env w).2 = kv wb
        \/ exists newTokens,
             stored (spotifyFetch path options env w).2 newTokens
             /\ refresh_token newTokens = refresh_token tokens
             /\ access_token newTokens = data_access_token data).
Proof.
  intros Hjson Hnone. split; [|split].
  - intros w0 w1 w newTokens w' Hread Hkv Hreply Hrun.
    by destruct (refreshAccessToken_carries_forward env w0 tokens w1 w newTokens w'
                   response later data).
  - intros w w1 Hread Hstale Hreply. by eapply getAccessToken_persists.
  - intros path options w token wa answer wb wc Htoken Htruthy Hfetch Hstatus Hread Hreply.
    by eapply spotifyFetch_persists.
Qed.

(* ===================================================================== *)
(** ** The theorems at work on sample worlds *)

Lemma getAccessToken_refreshes_exactly_when_stale_witness :
  readTokens sample_env stale_world
  = (Returned (Some stale_tokens), drop_kv_faults 1 stale_world)
  /\ number_gtb (expires_at stale_tokens) (next_now (drop_kv_faults 1 stale_world) + 60)
     = false
  /\ refresh_calls (getAccessToken sample_env stale_world).2 = S (refresh_calls stale_world).
Proof.
  assert (Hread : readTokens sample_env stale_world
                  = (Returned (Some stale_tokens), drop_kv_faults 1 stale_world))
    by (vm_compute; reflexivity).
  assert (Hstale : number_gtb (expires_at stale_tokens)
                      (next_now (drop_kv_faults 1 stale_world) + 60) = false)
    by (vm_compute; reflexivity).
  split; [exact Hread|]. split; [exact Hstale|].
  apply (getAccessToken_refreshes_exactly_when_stale sample_env stale_world _ stale_tokens Hread).
  exact Hstale.
Defined.

Lemma spotifyFetch_single_retry_witness :
  getAccessToken sample_env unauthorized_world
  = (Returned (Some "A1"), (getAccessToken sample_env unauthorized_world).2)
  /\ (spotifyFetch "/me/player/devices" sample_init sample_env unauthorized_world).1
     = Returned unauthorized.
Proof.
  assert (Htoken : getAccessToken sample_env unauthorized_world
                   = (Returned (Some "A1"), (getAccessToken sample_env unauthorized_world).2))
    by (vm_compute; reflexivity).
  split; [exact Htoken|].
  destruct (spotifyFetch_single_retry "/me/player/devices" sample_init sample_env
              unauthorized_world) as (_ & _ & _ & H401).
  refine (proj2 (H401 "A1" _ unauthorized
                   (fetch (request_url "/me/player/devices")
                      (with_bearer sample_init (Some "A1"))
                      (getAccessToken sample_env unauthorized_world).2).2
                   Htoken eq_refl _ eq_refl) fresh_tokens _ _);
    vm_compute; reflexivity.
Defined.

Lemma retryTransfer_attempt_budget_witness :
  preserves make_requests sample_request
  /\ counted sample_request recovering_world
     = (Returned unavailable, (counted sample_request recovering_world).2)
  /\ pause 1 (Some unavailable) (counted sample_request recovering_world).2
     = (Returned tt, after_failed_attempts (counted sample_request) 1 recovering_world)
  /\ counted sample_request (after_failed_attempts (counted sample_request) 1 recovering_world)
     = (Returned success,
        (counted sample_request
           (after_failed_attempts (counted sample_request) 1 recovering_world)).2)
  /\ retryTransfer (counted sample_request) recovering_world
     = (Returned success,
        (counted sample_request
           (after_failed_attempts (counted sample_request) 1 recovering_world)).2)
  /\ make_requests (retryTransfer (counted sample_request) recovering_world).2
     = (make_requests recovering_world + 2)%nat.
Proof.
  assert (Hquiet : preserves make_requests sample_request) by (unfold sample_request; frame).
  assert (Hfirst : counted sample_request recovering_world
                   = (Returned unavailable, (counted sample_request recovering_world).2))
    by (vm_compute; reflexivity).
  assert (Hpause : pause 1 (Some unavailable) (counted sample_request recovering_world).2
                   = (Returned tt,
                      after_failed_attempts (counted sample_request) 1 recovering_world))
    by (vm_compute; reflexivity).
  assert (Hsecond :
            counted sample_request
              (after_failed_attempts (counted sample_request) 1 recovering_world)
            = (Returned success,
               (counted sample_request
                  (after_failed_attempts (counted sample_request) 1 recovering_world)).2))
    by (vm_compute; reflexivity).
  split; [exact Hquiet|]. split; [exact Hfirst|]. split; [exact Hpause|].
  split; [exact Hsecond|].
  destruct (retryTransfer_attempt_budget (counted sample_request) recovering_world)
    as (_ & Hattempt & Hcount).
  destruct (Hattempt 1 recovering_world unavailable _ (attempt_first _ _)
              ltac:(vm_compute; discriminate) Hfirst) as [_ Hretry].
  destruct (Hretry eq_refl eq_refl) as [_ Hnext].
  destruct (proj2 (Hnext ltac:(reflexivity)) _ Hpause) as [Hstart Hresult].
  split; [exact (Hresult _ _ Hsecond (or_introl eq_refl))|].
  destruct (Hcount sample_request eq_refl Hquiet) as [_ Hexact].
  exact (proj1 (Hexact (1 + 1) _ success _ Hstart ltac:(vm_compute; discriminate) Hsecond)
           (or_introl eq_refl)).
Defined.

Lemma refresh_keeps_stored_refresh_token_witness :
  readTokens sample_env stale_world
  = (Returned (Some stale_tokens), drop_kv_faults 1 stale_world)
  /\ (getAccessToken sample_env stale_world).1 = Returned (Some "A2")
  /\ exists newTokens,
       stored (getAccessToken sample_env stale_world).2 newTokens
       /\ refresh_token newTokens = Some "R1"
       /\ access_token newTokens = Some "A2".
Proof.
  assert (Hread : readTokens sample_env stale_world
                  = (Returned (Some stale_tokens), drop_kv_faults 1 stale_world))
    by (vm_compute; reflexivity).
  assert (Hrun : (getAccessToken sample_env stale_world).1 = Returned (Some "A2"))
    by (vm_compute; reflexivity).
  split; [exact Hread|]. split; [exact Hrun|].
  destruct (refresh_keeps_stored_refresh_token sample_env stale_tokens
              {| token_status := 200;
                 token_json := Some {| data_access_token := Some "A2";
                                       data_refresh_token := None;
                                       data_expires_in := Some 3600 |} |}
              [] _ eq_refl eq_refl) as (_ & Hget & _).
  refine (proj2 (Hget stale_world _ Hread _ eq_refl) "A2" Hrun).
  vm_compute; reflexivity.
Defined.

Lemma retryTransfer_final_outcome_witness :
  attempt_starts sample_request flaky_world 3
    (after_failed_attempts sample_request 2 flaky_world)
  /\ sample_request (after_failed_attempts sample_request 2 flaky_world)
     = (Thrown NetworkError,
        (sample_request (after_failed_attempts sample_request 2 flaky_world)).2)
  /\ retryTransfer sample_request flaky_world
     = (Thrown NetworkError,
        (sample_request (after_failed_attempts sample_request 2 flaky_world)).2).
Proof.
  assert (Hsecond : attempt_starts sample_request flaky_world 2
                      (after_failed_attempts sample_request 1 flaky_world)).
  { refine (attempt_next _ _ 1 flaky_world (Returned unavailable)
              (sample_request flaky_world).2 _ (attempt_first _ _) _ _ _);
      vm_compute; reflexivity. }
  assert (Hthird : attempt_starts sample_request flaky_world 3
                     (after_failed_attempts sample_request 2 flaky_world)).
  { refine (attempt_next _ _ 2 _ (Returned unavailable)
              (sample_request (after_failed_attempts sample_request 1 flaky_world)).2 _
              Hsecond _ _ _);
      vm_compute; reflexivity. }
  assert (Hlast : sample_request (after_failed_attempts sample_request 2 flaky_world)
                  = (Thrown NetworkError,
                     (sample_request (after_failed_attempts sample_request 2 flaky_world)).2))
    by (vm_compute; reflexivity).
  split; [exact Hthird|]. split; [exact Hlast|].
  destruct (retryTransfer_final_outcome sample_request flaky_world) as (_ & Hfinal & _).
  exact (Hfinal _ _ _ Hthird Hlast).
Defined.

Lemma getAccessToken_refresh_failure_witness :
  readTokens sample_env rejecting_world
  = (Returned (Some stale_tokens), drop_kv_faults 1 rejecting_world)
  /\ refresh_fails sample_env rejecting_world = true
  /\ (getAccessToken sample_env rejecting_world).1 = Returned None
  /\ kv (getAccessToken sample_env rejecting_world).2 = kv rejecting_world.
Proof.
  assert (Hread : readTokens sample_env rejecting_world
                  = (Returned (Some stale_tokens), drop_kv_faults 1 rejecting_world))
    by (vm_compute; reflexivity).
  split; [exact Hread|]. split; [reflexivity|].
  apply (getAccessToken_refresh_failure sample_env rejecting_world _ stale_tokens Hread).
  - vm_compute; reflexivity.
  - reflexivity.
Defined.

Lemma new_expiry_adds_reported_lifetime_witness :
  refreshAccessToken (Some "R1") sample_env stale_world
  = (Returned {| access_token := Some "A2"; refresh_token := Some "R1";
                 expires_at := Int 1700003600 |},
     (refreshAccessToken (Some "R1") sample_env stale_world).2)
  /\ exists response later data,
       token_endpoint stale_world = TokenHttp response :: later
       /\ token_json response = Some data
       /\ Int 1700003600
          = Int (time (refreshAccessToken (Some "R1") sample_env stale_world).2 `div` 1000
                 + lifetime_used data).
Proof.
  assert (Hrun : refreshAccessToken (Some "R1") sample_env stale_world
                 = (Returned {| access_token := Some "A2"; refresh_token := Some "R1";
                                expires_at := Int 1700003600 |},
                    (refreshAccessToken (Some "R1") sample_env stale_world).2))
    by (vm_compute; reflexivity).
  split; [exact Hrun|].
  apply (new_expiry_adds_reported_lifetime sample_env stale_world _
           {| access_token := Some "A2"; refresh_token := Some "R1";
              expires_at := Int 1700003600 |}).
  left. exists (Some "R1"). exact Hrun.
Defined.

Lemma write_then_read_round_trip_witness :
  writeTokens fresh_tokens sample_env empty_world
  = (Returned tt, (writeTokens fresh_tokens sample_env empty_world).2)
  /\ expires_at fresh_tokens = Int 1700003600
  /\ next_kv_fault (writeTokens fresh_tokens sample_env empty_world).2 = false
  /\ (readTokens sample_env (writeTokens fresh_tokens sample_env empty_world).2).1
     = Returned (Some fresh_tokens).
Proof.
  assert (Hwrite : writeTokens fresh_tokens sample_env empty_world
                   = (Returned tt, (writeTokens fresh_tokens sample_env empty_world).2))
    by (vm_compute; reflexivity).
  split; [exact Hwrite|]. split; [reflexivity|]. split; [reflexivity|].
  destruct (write_then_read_round_trip sample_env fresh_tokens empty_world _ 1700003600
              Hwrite eq_refl) as [Hback _].
  by rewrite (Hback eq_refl).
Defined.

Lemma store_boundary_rejects_falsy_witness :
  access_token {| access_token := Some ""; refresh_token := Some "R1";
                  expires_at := Int 1700003600 |} = Some ""
  /\ writeTokens {| access_token := Some ""; refresh_token := Some "R1";
                    expires_at := Int 1700003600 |} sample_env empty_world
     = (Thrown FailedToSaveTokens, empty_world).
Proof.
  split; [reflexivity|].
  apply (store_boundary_rejects_falsy sample_env). right; left. reflexivity.
Defined.

(* ===================================================================== *)
(** ** Further properties of the token lifecycle and the request core *)

Lemma pow2_pos n : 0 <= n -> 1 <= 2 ^ n.
Proof. intros H. pose proof (Z.pow_pos_nonneg 2 n). lia. Qed.

(** X1.  No delay that [getRetryDelayMs] returns exceeds 2000 ms.  A delay
    of zero or less comes only from a 429 response whose [Retry-After] header
    [Number] reads as a number of seconds that is zero or less: the
    exponential policy and the HTTP-date branch give positive delays.
    Computing the delay leaves the KV namespace and the trace as they are. *)
Theorem getRetryDelayMs_delay_range
    (attempt : Z) (response : option Response) (w w' : World) (delay : Z) :
  getRetryDelayMs attempt response w = (Returned delay, w') ->
  delay <= TRANSFER_RETRY_MAX_DELAY_MS
  /\ (delay <= 0 ->
        exists r text seconds,
          response = Some r /\ status r = 429
          /\ Headers_get (headers r) "Retry-After" = Some text
          /\ Number_of_string text = NumInt seconds /\ seconds <= 0)
  /\ kv w' = kv w /\ trace w' = trace w.
Proof.
  intros H. split; [by eapply getRetryDelayMs_at_most_max|].
  split.
  - intros Hle.
    assert (Hexp : forall w0,
      (if attempt <? 1 then unmodelled
       else mret (Z.min (TRANSFER_RETRY_BASE_DELAY_MS * 2 ^ (attempt - 1))
                    TRANSFER_RETRY_MAX_DELAY_MS)) w0 = (Returned delay, w') -> False).
    { intros w0. destruct (attempt <? 1) eqn:Ha; [done|]. intros [= <- _].
      pose proof (pow2_pos (attempt - 1)).
      unfold TRANSFER_RETRY_BASE_DELAY_MS, TRANSFER_RETRY_MAX_DELAY_MS in Hle. lia. }
    unfold getRetryDelayMs in H. cbv zeta in H.
    destruct response as [r|]; [|by destruct (Hexp _ H)].
    destruct (status r =? 429) eqn:Hs; [|by destruct (Hexp _ H)].
    destruct (Headers_get (headers r) "Retry-After") as [text|] eqn:Hh;
      [|by destruct (Hexp _ H)].
    destruct (truthy_string text); [|by destruct (Hexp _ H)].
    destruct (Number_of_string text) as [seconds| |] eqn:Hn; [| |done].
    + injection H as <- _. exists r, text, seconds.
      repeat split; try done; [lia|].
      unfold TRANSFER_RETRY_MAX_DELAY_MS in Hle. lia.
    + apply bind_inv_returned in H as (retryDate & w1 & Hp & H).
      destruct retryDate as [retryDate|]; [|by destruct (Hexp _ H)].
      apply bind_inv_returned in H as (now & w2 & Hnow & H).
      destruct (retryDate - now >? 0) eqn:Hd; [|by destruct (Hexp _ H)].
      injection H as <- _.
      unfold TRANSFER_RETRY_MAX_DELAY_MS in Hle. lia.
  - assert (Hkv : preserves kv (getRetryDelayMs attempt response)) by frame.
    assert (Htr : preserves trace (getRetryDelayMs attempt response)) by frame.
    specialize (Hkv w). specialize (Htr w). rewrite H in Hkv, Htr. done.
Qed.

Lemma sleeps_log ev w :
  sleeps (log ev w).2 = (sleeps w ++ match ev with EvSleep ms => [ms] | _ => [] end)%list.
Proof. unfold sleeps. cbn. rewrite omap_app. by destruct ev. Qed.

Lemma preserves_log_sleeps ev :
  match ev with EvSleep _ => False | _ => True end -> preserves sleeps (log ev).
Proof. intros H w. rewrite sleeps_log. destruct ev; try done; apply app_nil_r. Qed.

#[export] Hint Extern 1 (preserves sleeps (log _)) =>
  apply preserves_log_sleeps; exact I : frame.

Lemma getRetryDelayMs_sleeps attempt response :
  preserves sleeps (getRetryDelayMs attempt response).
Proof. frame. Qed.

Lemma slept_within_refl n w w' : sleeps w' = sleeps w -> slept_within n w w'.
Proof.
  intros H. exists []. rewrite app_nil_r. repeat split; [done|simpl; lia|constructor].
Qed.

Lemma delay_then_sleep attempt response (k : M Response) n w :
  (forall w1, slept_within n w1 (k w1).2) ->
  slept_within (S n) w
    ((delayMs ← getRetryDelayMs attempt response; sleep delayMs;; k) w).2.
Proof.
  intros Hk.
  pose proof (getRetryDelayMs_sleeps attempt response w) as Hs.
  destruct (bind_cases (getRetryDelayMs attempt response)
              (fun delayMs : Z => sleep delayMs;; k) w)
    as [(d & w1 & Hm & ->)|[(e & w1 & Hm & ->)|(w1 & Hm & ->)]];
    rewrite Hm in Hs; simpl in Hs; [|by apply slept_within_refl..].
  apply getRetryDelayMs_at_most_max in Hm.
  rewrite (bind_returned_1 (sleep d) _ w1 ()) by reflexivity.
  destruct (Hk (sleep d w1).2) as (delays & Hd & Hlen & Hall).
  exists (d :: delays). split; [|split].
  - rewrite Hd. unfold sleep. rewrite sleeps_log, Hs. by rewrite <- app_assoc.
  - simpl. lia.
  - by constructor.
Qed.

Lemma retry_attempts_sleeps (makeRequest : M Response) attempts last w :
  preserves sleeps makeRequest ->
  slept_within (sleeping_attempts attempts) w (retry_attempts makeRequest attempts last w).2.
Proof.
  intros Hquiet. revert last w.
  induction attempts as [|attempt later IH]; intros last w.
  { by apply slept_within_refl. }
  pose proof (Hquiet w) as Hs.
  assert (Hgo : forall response last' w1,
            attempt <> TRANSFER_RETRY_ATTEMPTS -> sleeps w1 = sleeps w ->
            slept_within (sleeping_attempts (attempt :: later)) w
              ((delayMs ← getRetryDelayMs attempt response; sleep delayMs;;
                retry_attempts makeRequest later last') w1).2).
  { intros response last' w1 Hne Hw1.
    destruct (delay_then_sleep attempt response (retry_attempts makeRequest later last')
                (sleeping_attempts later) w1 (IH last')) as (delays & Hd & Hlen & Hall).
    exists delays. rewrite Hd, Hw1. split; [done|]. split; [|done].
    unfold sleeping_attempts in *. rewrite filter_cons_True by done. simpl. lia. }
  destruct (makeRequest w) as [[response|e|] w1] eqn:Hm; simpl in Hs.
  - destruct (ok response || negb (shouldRetryTransfer response)
              || (attempt =? TRANSFER_RETRY_ATTEMPTS)) eqn:Hc.
    + erewrite retry_attempts_return by done. by apply slept_within_refl.
    + erewrite retry_attempts_retry by done. apply Hgo; [|done].
      intros ->. by rewrite Z.eqb_refl, orb_true_r in Hc.
  - destruct (Z.eq_dec attempt TRANSFER_RETRY_ATTEMPTS) as [Heq|Hne].
    + erewrite retry_attempts_rethrow by done. by apply slept_within_refl.
    + erewrite retry_attempts_catch by done. by apply Hgo.
  - erewrite retry_attempts_unmodelled by done. by apply slept_within_refl.
Qed.

(** X2.  [retryTransfer] sleeps at most twice, never after the last
    attempt, and each time for at most 2000 ms, whatever [makeRequest] does,
    as long as [makeRequest] does not sleep itself. *)
Theorem retryTransfer_sleep_budget (makeRequest : M Response) (w : World) :
  preserves sleeps makeRequest ->
  exists delays,
    sleeps (retryTransfer makeRequest w).2 = (sleeps w ++ delays)%list
    /\ (length delays <= 2)%nat
    /\ Forall (fun delay => delay <= TRANSFER_RETRY_MAX_DELAY_MS) delays.
Proof.
  intros Hquiet.
  apply (retry_attempts_sleeps makeRequest [1; 2; 3] None w Hquiet).
Qed.

Lemma valid_tokens_access tokens :
  valid_tokens tokens = true ->
  exists a r, access_token tokens = Some a /\ refresh_token tokens = Some r
    /\ truthy_string a = true /\ truthy_string r = true
    /\ number_truthy (expires_at tokens) = true.
Proof.
  unfold valid_tokens. intros H.
  apply andb_true_iff in H as [H He]. apply andb_true_iff in H as [Ha Hr].
  destruct (access_token tokens) as [a|], (refresh_token tokens) as [r|]; try done.
  by exists a, r.
Qed.

(** The ways a call of [getAccessToken] can go, by what [readTokens]
    returned and by the clock. *)
Lemma getAccessToken_cases env w :
  (exists w1, readTokens env w = (Returned None, w1)
     /\ getAccessToken env w = (Returned None, w1))
  \/ (exists tokens w1, readTokens env w = (Returned (Some tokens), w1)
        /\ number_gtb (expires_at tokens) (next_now w1 + 60) = true
        /\ getAccessToken env w = (Returned (access_token tokens), tick w1))
  \/ (exists tokens w1, readTokens env w = (Returned (Some tokens), w1)
        /\ number_gtb (expires_at tokens) (next_now w1 + 60) = false
        /\ getAccessToken env w
           = try_catch
               (newTokens ← refreshAccessToken (refresh_token tokens) env;
                writeTokens newTokens env;;
                mret (access_token newTokens))
               (fun error => mret None) (tick w1))
  \/ (exists w1, readTokens env w = (Unmodelled, w1)
        /\ getAccessToken env w = (Unmodelled, w1)).
Proof.
  pose proof (readTokens_not_thrown env w) as Hnt.
  destruct (readTokens env w) as [[[tokens|]|e|] w1] eqn:Hread.
  - destruct (number_gtb (expires_at tokens) (next_now w1 + 60)) eqn:Hfresh.
    + right; left. exists tokens, w1. split; [done|]. split; [done|].
      by apply getAccessToken_fresh.
    + right; right; left. exists tokens, w1. split; [done|]. split; [done|].
      by apply getAccessToken_stale.
  - left. exists w1. split; [done|]. by apply getAccessToken_absent.
  - by destruct (Hnt e).
  - right; right; right. exists w1. split; [done|].
    unfold getAccessToken. by erewrite bind_unmodelled.
Qed.

Lemma getAccessToken_result (env : Env) (w : World) :
  (forall e, (getAccessToken env w).1 <> Thrown e)
  /\ (forall token, (getAccessToken env w).1 = Returned (Some token) -> token <> "").
Proof.
  destruct (getAccessToken_cases env w)
    as [(w1 & _ & ->)|[(tokens & w1 & Hread & _ & ->)
       |[(tokens & w1 & Hread & _ & ->)|(w1 & _ & ->)]]]; simpl.
  - split; [done|]. intros token [=].
  - split; [done|]. intros token [= Ha].
    apply readTokens_valid in Hread as (a & r & Ha' & _ & Hv).
    apply valid_tokens_access in Hv as (a'' & _ & Ha'' & _ & Ht & _).
    assert (token = a'') by congruence. subst. by intros ->.
  - destruct (refresh_block_cases (refresh_token tokens) env access_token (tick w1))
      as [(newTokens & w2 & Hr & Hv & Hb)|[(e & w2 & Hb & _)|(w2 & Hb & _)]].
    + erewrite try_catch_returned; [|exact Hb]. simpl. split; [done|].
      intros token [= Ha].
      apply valid_tokens_access in Hv as (a & _ & Ha' & _ & Ht & _).
      assert (token = a) by congruence. subst. by intros ->.
    + erewrite try_catch_thrown; [|exact Hb]. simpl. split; [done|]. intros token [=].
    + erewrite try_catch_unmodelled; [|exact Hb]. simpl. split; [done|]. intros token [=].
  - split; [done|]. intros token [=].
Qed.

(** X3.  [getAccessToken] never throws, and a token it returns is never
    the empty string: the result is [null] or an access token that is not
    empty. *)
Theorem getAccessToken_null_or_nonempty (env : Env) (w : World) :
  (forall e, (getAccessToken env w).1 <> Thrown e)
  /\ (forall token, (getAccessToken env w).1 = Returned (Some token) -> token <> "").
Proof. apply getAccessToken_result. Qed.

Lemma readTokens_not_object env w data v rest :
  kv w !! TOKENS_KEY = Some data ->
  JSON_parse data = POk v rest ->
  is_object v = false ->
  readTokens env w = (Returned None, drop_kv_faults 1 w).
Proof.
  intros Hd Hp Hv.
  destruct (next_kv_fault w) eqn:Hf; [by apply readTokens_fault|].
  unfold readTokens.
  assert (Hget : KV_get TOKENS_KEY w = (Returned (Some data), drop_kv_faults 1 w)).
  { rewrite KV_get_ok by done. by rewrite Hd. }
  destruct (negb (truthy_opt_string (Some data))) eqn:Ht.
  { erewrite try_catch_returned; [reflexivity|].
    erewrite bind_returned; [|exact Hget]. by rewrite Ht. }
  destruct v; try done.
  - (* null *)
    erewrite try_catch_thrown; [reflexivity|].
    erewrite bind_returned; [|exact Hget]. rewrite Ht.
    unfold JSON_parse_M. cbn [default from_option id]. rewrite Hp.
    erewrite bind_returned; [|reflexivity]. reflexivity.
  - erewrite try_catch_returned; [reflexivity|].
    erewrite bind_returned; [|exact Hget]. rewrite Ht.
    unfold JSON_parse_M. cbn [default from_option id]. rewrite Hp.
    do 4 (erewrite bind_returned; [|reflexivity]). reflexivity.
  - erewrite try_catch_returned; [reflexivity|].
    erewrite bind_returned; [|exact Hget]. rewrite Ht.
    unfold JSON_parse_M. cbn [default from_option id]. rewrite Hp.
    do 4 (erewrite bind_returned; [|reflexivity]). reflexivity.
  - erewrite try_catch_returned; [reflexivity|].
    erewrite bind_returned; [|exact Hget]. rewrite Ht.
    unfold JSON_parse_M. cbn [default from_option id]. rewrite Hp.
    do 4 (erewrite bind_returned; [|reflexivity]). reflexivity.
  - erewrite try_catch_returned; [reflexivity|].
    erewrite bind_returned; [|exact Hget]. rewrite Ht.
    unfold JSON_parse_M. cbn [default from_option id]. rewrite Hp.
    do 4 (erewrite bind_returned; [|reflexivity]). reflexivity.
Qed.

Lemma readTokens_missing env w :
  kv w !! TOKENS_KEY = None \/ kv w !! TOKENS_KEY = Some "" ->
  readTokens env w = (Returned None, drop_kv_faults 1 w).
Proof.
  intros Hd.
  destruct (next_kv_fault w) eqn:Hf; [by apply readTokens_fault|].
  unfold readTokens.
  erewrite try_catch_returned; [reflexivity|].
  erewrite bind_returned; [|by apply KV_get_ok].
  by destruct Hd as [-> | ->].
Qed.

Lemma readTokens_syntax_error env w data :
  kv w !! TOKENS_KEY = Some data ->
  JSON_parse data = PSyntaxError ->
  readTokens env w = (Returned None, drop_kv_faults 1 w).
Proof.
  intros Hd Hp.
  destruct (next_kv_fault w) eqn:Hf; [by apply readTokens_fault|].
  unfold readTokens.
  assert (Hget : KV_get TOKENS_KEY w = (Returned (Some data), drop_kv_faults 1 w)).
  { rewrite KV_get_ok by done. by rewrite Hd. }
  destruct (negb (truthy_opt_string (Some data))) eqn:Ht.
  { erewrite try_catch_returned; [reflexivity|].
    erewrite bind_returned; [|exact Hget]. by rewrite Ht. }
  erewrite try_catch_thrown; [reflexivity|].
  erewrite bind_returned; [|exact Hget]. rewrite Ht.
  unfold JSON_parse_M. cbn [default from_option id]. rewrite Hp. reflexivity.
Qed.

(** X4.  [readTokens] never throws, and all it changes in the world is
    that one fault flag of the namespace is used up.  It returns [null] when
    the read of the namespace fails, when nothing or the empty string is
    stored under the key, when the stored text is not JSON, and when it is
    JSON for anything but an object. *)
Theorem readTokens_absent_on_failure (env : Env) (w : World) :
  (forall e, (readTokens env w).1 <> Thrown e)
  /\ (readTokens env w).2 = drop_kv_faults 1 w
  /\ (next_kv_fault w = true
      \/ kv w !! TOKENS_KEY = None
      \/ kv w !! TOKENS_KEY = Some ""
      \/ (exists data, kv w !! TOKENS_KEY = Some data
            /\ (JSON_parse data = PSyntaxError
                \/ exists v rest, JSON_parse data = POk v rest /\ is_object v = false)) ->
      (readTokens env w).1 = Returned None).
Proof.
  split; [intros e; apply readTokens_not_thrown|].
  split; [apply readTokens_world|].
  intros [Hf|[Hd|[Hd|(data & Hd & [Hp|(v & rest & Hp & Hv)])]]].
  - by rewrite readTokens_fault.
  - rewrite readTokens_missing; [done|by left].
  - rewrite readTokens_missing; [done|by right].
  - by erewrite readTokens_syntax_error.
  - by erewrite readTokens_not_object.
Qed.

(** X5.  A call of [writeTokens] ends in one of two ways.  Either it
    returns: then the record was valid, the namespace holds its serialisation
    under the key, and every other key is as before.  Or it throws [Failed
    to save tokens], for an invalid record (whose [Invalid token structure]
    is caught by the function's own [catch]) as for a write the namespace
    rejects, and the namespace is as it was. *)
Theorem writeTokens_single_error (tokens : Tokens) (env : Env) (w : World) :
  (writeTokens tokens env w).1 = Returned tt
  /\ valid_tokens tokens = true
  /\ stored (writeTokens tokens env w).2 tokens
  /\ (forall key, key <> TOKENS_KEY ->
        kv (writeTokens tokens env w).2 !! key = kv w !! key)
  \/ (writeTokens tokens env w).1 = Thrown FailedToSaveTokens
     /\ (valid_tokens tokens = false \/ next_kv_fault w = true)
     /\ kv (writeTokens tokens env w).2 = kv w.
Proof.
  destruct (valid_tokens tokens) eqn:Hv, (next_kv_fault w) eqn:Hf.
  - right. rewrite writeTokens_fault by done. repeat split; by right.
  - left. rewrite writeTokens_ok by done. repeat split.
    + apply stored_after_put.
    + intros key Hne. unfold after_put. cbn [kv snd]. by rewrite lookup_insert_ne.
  - right. rewrite writeTokens_invalid by done. repeat split; by left.
  - right. rewrite writeTokens_invalid by done. repeat split; by left.
Qed.

Lemma fetch_token_token_requests id secret grant :
  bumps token_requests 1 (fetch_token id secret grant).
Proof.
  intros w. unfold fetch_token.
  rewrite (bind_returned_1 (log (EvTokenRequest id secret grant)) _ w ()) by reflexivity.
  assert (Hn : preserves token_requests next_token_reply) by frame.
  rewrite Hn. unfold token_requests. simpl. rewrite count_events_app. simpl. lia.
Qed.

Lemma exchangeCodeForTokens_store code uri env :
  preserves (fun w => (kv w, kv_faults w)) (exchangeCodeForTokens code uri env).
Proof. frame. Qed.

(** X6.  [exchangeCodeForTokens] fails loudly and stays away from the
    store.  With the client id or secret missing it throws and the world is
    as it was, so no request is sent; on a reply whose status is not 2xx it
    throws [Token exchange failed] with that status; when it returns, the
    access token and the refresh token of the record are those of the reply,
    with no fallback for a missing refresh token; and in every case the KV
    namespace and its fault queue are untouched. *)
Theorem exchangeCodeForTokens_fails_loudly
    (code redirectUri : string) (env : Env) (w : World) :
  (truthy_opt_string (SPOTIFY_CLIENT_ID env) && truthy_opt_string (SPOTIFY_CLIENT_SECRET env)
   = false ->
     exchangeCodeForTokens code redirectUri env w = (Thrown ClientCredentialsNotConfigured, w))
  /\ (forall response later,
        truthy_opt_string (SPOTIFY_CLIENT_ID env)
        && truthy_opt_string (SPOTIFY_CLIENT_SECRET env) = true ->
        token_endpoint w = TokenHttp response :: later ->
        token_ok response = false ->
        (exchangeCodeForTokens code redirectUri env w).1
        = Thrown (TokenExchangeFailed (token_status response)))
  /\ (forall tokens w',
        exchangeCodeForTokens code redirectUri env w = (Returned tokens, w') ->
        exists response later data,
          token_endpoint w = TokenHttp response :: later
          /\ token_json response = Some data
          /\ access_token tokens = data_access_token data
          /\ refresh_token tokens = data_refresh_token data)
  /\ kv (exchangeCodeForTokens code redirectUri env w).2 = kv w
  /\ kv_faults (exchangeCodeForTokens code redirectUri env w).2 = kv_faults w.
Proof.
  split; [|split; [|split]].
  - intros Hconf. unfold exchangeCodeForTokens. cbv zeta.
    destruct (truthy_opt_string (SPOTIFY_CLIENT_ID env)),
      (truthy_opt_string (SPOTIFY_CLIENT_SECRET env)); done.
  - intros response later Hconf Hreply Hok. unfold exchangeCodeForTokens. cbv zeta.
    apply andb_true_iff in Hconf as [-> ->]. cbn [negb orb].
    erewrite bind_returned_1; [|by eapply fetch_token_reply].
    by rewrite Hok.
  - intros tokens w' Hrun.
    apply exchangeCodeForTokens_inv in Hrun as (response & later & data & Hreply & _ & Hjson & ->).
    by exists response, later, data.
  - pose proof (exchangeCodeForTokens_store code redirectUri env w) as H.
    by injection H.
Qed.

(** X7.  When the reply to a refresh carries a [refresh_token] that is
    not empty, the record that [refreshAccessToken] returns has that new
    refresh token, and the access token of the reply; the namespace is not
    written by [refreshAccessToken] itself. *)
Theorem refreshAccessToken_adopts_new_refresh_token
    (refreshToken : option string) (env : Env) (w w' : World) (newTokens : Tokens)
    (response : TokenResponse) (later : list TokenReply) (data : TokenData)
    (rotated : string) :
  token_endpoint w = TokenHttp response :: later ->
  token_json response = Some data ->
  data_refresh_token data = Some rotated ->
  rotated <> "" ->
  refreshAccessToken refreshToken env w = (Returned newTokens, w') ->
  refresh_token newTokens = Some rotated
  /\ access_token newTokens = data_access_token data
  /\ kv w' = kv w.
Proof.
  intros Hreply Hjson Hrot Hne Hrun.
  pose proof (refreshAccessToken_kv refreshToken env w) as Hkv.
  rewrite Hrun in Hkv. simpl in Hkv.
  apply refreshAccessToken_inv in Hrun
    as (response' & later' & data' & current & w1 & Hreply' & _ & Hjson' & _ & _ & ->).
  rewrite Hreply in Hreply'. injection Hreply' as <- <-.
  rewrite Hjson in Hjson'. injection Hjson' as <-.
  split; [|done]. cbn [refresh_token]. rewrite Hrot.
  unfold or_opt_string. cbn [truthy_opt_string].
  destruct rotated; done.
Qed.

(** X8.  After [getAccessToken] has refreshed a stale credential and
    returned the new token, the next call, if it finds the clock more than 60
    seconds before the new expiry and the read of the namespace goes through,
    returns the same token from the store without another refresh: its world
    differs from the one it started in by one read of the namespace and one
    reading of the clock. *)
Theorem getAccessToken_reuses_refreshed_token
    (env : Env) (w wr w1 : World) (tokens : Tokens) (token : string)
    (response : TokenResponse) (later : list TokenReply) (data : TokenData) :
  readTokens env w = (Returned (Some tokens), wr) ->
  number_gtb (expires_at tokens) (next_now wr + 60) = false ->
  token_endpoint w = TokenHttp response :: later ->
  token_json response = Some data ->
  getAccessToken env w = (Returned (Some token), w1) ->
  next_kv_fault w1 = false ->
  next_now (drop_kv_faults 1 w1) + 60 < time w1 `div` 1000 + lifetime_used data ->
  getAccessToken env w1 = (Returned (Some token), tick (drop_kv_faults 1 w1)).
Proof.
  intros Hread Hstale Hreply Hjson Hget Hf Hlife.
  rewrite (getAccessToken_stale env w tokens wr Hread Hstale) in Hget.
  assert (Hte : token_endpoint (tick wr) = TokenHttp response :: later).
  { rewrite tick_token_endpoint.
    by rewrite <- Hreply, <- (preserves_readTokens_token_endpoint env w), Hread. }
  destruct (refresh_block_cases (refresh_token tokens) env access_token (tick wr))
    as [(newTokens & w2 & Hr & Hv & Hb)|[(e & w2 & Hb & _)|(w2 & Hb & _)]].
  - erewrite try_catch_returned in Hget; [|exact Hb].
    apply pair_equal_spec in Hget as [Ha Hw1]. injection Ha as Ha.
    apply refreshAccessToken_inv in Hr
      as (response' & later' & data' & current & w3 & Hreply' & _ & Hjson' & _ & _ & Hnew).
    rewrite Hte in Hreply'. injection Hreply' as <- <-.
    rewrite Hjson in Hjson'. injection Hjson' as <-.
    assert (He : expires_at newTokens = Int (time w1 `div` 1000 + lifetime_used data)).
    { rewrite Hnew, <- Hw1. cbn [expires_at]. by rewrite or_number_lifetime. }
    apply valid_tokens_access in Hv as Hfields.
    destruct Hfields as (a & r & Ha' & Hr' & _).
    destruct newTokens as [at' rt' e'].
    cbn [access_token refresh_token expires_at] in Ha', Hr', Ha, He.
    assert (a = token) by congruence. subst a at' rt' e'.
    set (e' := time w1 `div` 1000 + lifetime_used data) in *.
    assert (Hs : stored w1 {| access_token := Some token; refresh_token := Some r;
                              expires_at := Int e' |}).
    { rewrite <- Hw1. apply stored_after_put. }
    pose proof (readTokens_stored env w1 token r e' Hv Hs Hf) as Hread1.
    rewrite (getAccessToken_fresh env w1 _ _ Hread1); [done|].
    cbn [expires_at number_gtb]. apply Z.gtb_gt. lia.
  - erewrite try_catch_thrown in Hget; [|exact Hb]. done.
  - erewrite try_catch_unmodelled in Hget; [|exact Hb]. done.
Qed.

Lemma api_log_log ev w :
  api_log (log ev w).2
  = (api_log w ++ match ev with EvApiRequest url init => [(url, init)] | _ => [] end)%list.
Proof. unfold api_log. cbn. rewrite omap_app. by destruct ev. Qed.

Lemma preserves_log_api_log ev :
  match ev with EvApiRequest _ _ => False | _ => True end -> preserves api_log (log ev).
Proof. intros H w. rewrite api_log_log. destruct ev; try done; apply app_nil_r. Qed.

#[export] Hint Extern 1 (preserves api_log (log _)) =>
  apply preserves_log_api_log; exact I : frame.

Lemma fetch_api_log url init w :
  api_log (fetch url init w).2 = (api_log w ++ [(url, init)])%list.
Proof.
  unfold fetch.
  rewrite (bind_returned_1 (log (EvApiRequest url init)) _ w ()) by reflexivity.
  assert (Hn : preserves api_log next_api_reply) by frame.
  by rewrite Hn, api_log_log.
Qed.

Lemma getAccessToken_api_log env : preserves api_log (getAccessToken env).
Proof. frame. Qed.

Lemma getAccessToken_api env : preserves api (getAccessToken env).
Proof. frame. Qed.

(** X9.  When [getAccessToken] yields [null] (nothing stored, or the
    refresh failed), [spotifyFetch] throws [No access token available] and
    sends no request to the resource API. *)
Theorem spotifyFetch_without_token
    (path : string) (options : RequestInit) (env : Env) (w : World) :
  (getAccessToken env w).1 = Returned None ->
  spotifyFetch path options env w = (Thrown NoAccessTokenAvailable, (getAccessToken env w).2)
  /\ api (spotifyFetch path options env w).2 = api w
  /\ api_log (spotifyFetch path options env w).2 = api_log w.
Proof.
  intros Hnone.
  assert (Hrun : spotifyFetch path options env w
                 = (Thrown NoAccessTokenAvailable, (getAccessToken env w).2)).
  { unfold spotifyFetch. by erewrite bind_returned_1; [|exact Hnone]. }
  rewrite Hrun. split; [done|]. cbn [snd].
  split; [apply getAccessToken_api|apply getAccessToken_api_log].
Qed.

(** X10.  When the first request of [spotifyFetch] ends in anything but a
    401 response (another response, or a network error), that outcome is the
    outcome of [spotifyFetch], and the world is the one after that request:
    there is no refresh and no retry. *)
Theorem spotifyFetch_passes_through
    (path : string) (options : RequestInit) (env : Env) (w wa wb : World)
    (token : string) (o : Outcome Response) :
  getAccessToken env w = (Returned (Some token), wa) ->
  fetch (request_url path) (with_bearer options (Some token)) wa = (o, wb) ->
  (forall response, o = Returned response -> status response <> 401) ->
  spotifyFetch path options env w = (o, wb).
Proof.
  intros Htoken Hfetch Hstatus.
  assert (Hne : token <> "").
  { apply (proj2 (getAccessToken_result env w)). by rewrite Htoken. }
  unfold spotifyFetch.
  erewrite bind_returned; [|exact Htoken].
  cbn [truthy_opt_string]. destruct token as [|c token]; [done|]. cbn [truthy_string negb].
  cbv zeta. fold (request_url path).
  destruct o as [response|e|].
  - erewrite bind_returned; [|exact Hfetch].
    specialize (Hstatus response eq_refl).
    destruct (Z.eqb_spec (status response) 401); done.
  - by erewrite bind_thrown; [|exact Hfetch].
  - by erewrite bind_unmodelled; [|exact Hfetch].
Qed.

(** X11.  The 401 path of [spotifyFetch] when the refresh succeeds and
    the new record is saved: the call then is the retried request, sent with
    the new access token, whatever that request yields (a second 401 is
    returned as it is, a network error of the retry is thrown), and the
    namespace holds the new record. *)
Theorem spotifyFetch_retries_with_new_token
    (path : string) (options : RequestInit) (env : Env) (w wa wb wc wd we : World)
    (token : string) (response : Response) (tokens newTokens : Tokens) :
  getAccessToken env w = (Returned (Some token), wa) ->
  fetch (request_url path) (with_bearer options (Some token)) wa = (Returned response, wb) ->
  status response = 401 ->
  readTokens env wb = (Returned (Some tokens), wc) ->
  refreshAccessToken (refresh_token tokens) env wc = (Returned newTokens, wd) ->
  writeTokens newTokens env wd = (Returned tt, we) ->
  spotifyFetch path options env w
  = fetch (request_url path) (with_bearer options (access_token newTokens)) we
  /\ stored we newTokens.
Proof.
  intros Htoken Hfetch Hstatus Hread Hrefresh Hwrite.
  assert (Hne : token <> "").
  { apply (proj2 (getAccessToken_result env w)). by rewrite Htoken. }
  split.
  - unfold spotifyFetch.
    erewrite bind_returned; [|exact Htoken].
    cbn [truthy_opt_string]. destruct token as [|c token]; [done|]. cbn [truthy_string negb].
    cbv zeta. fold (request_url path).
    erewrite bind_returned; [|exact Hfetch].
    rewrite Hstatus. cbn [Z.eqb Pos.eqb].
    erewrite bind_returned; [|exact Hread]. cbv beta iota.
    erewrite bind_returned; cycle 1.
    { erewrite try_catch_returned; [reflexivity|].
      erewrite bind_returned; [|exact Hrefresh].
      erewrite bind_returned; [|exact Hwrite]. reflexivity. }
    reflexivity.
  - destruct (writeTokens_cases newTokens env wd) as [(_ & _ & Hw)|(w2 & Hw & _)];
      rewrite Hw in Hwrite; [|done].
    injection Hwrite as <-. apply stored_after_put.
Qed.

Lemma logged_refl {X} (f : World -> list X) P n w w' : f w' = f w -> logged f P n w w'.
Proof.
  intros H. exists []. rewrite app_nil_r. repeat split; [done|simpl; lia|constructor].
Qed.

Lemma logged_trans {X} (f : World -> list X) P a b w w1 w2 :
  logged f P a w w1 -> logged f P b w1 w2 -> logged f P (a + b) w w2.
Proof.
  intros (l1 & H1 & Hn1 & Hp1) (l2 & H2 & Hn2 & Hp2).
  exists (l1 ++ l2)%list. split; [|split].
  - by rewrite H2, H1, <- app_assoc.
  - rewrite length_app. lia.
  - by apply Forall_app.
Qed.

Lemma with_bearer_headers options token :
  header_of "Authorization" (init_headers (with_bearer options token))
  = Some ("Bearer " +:+ template token)
  /\ header_of "Content-Type" (init_headers (with_bearer options token))
     = Some "application/json".
Proof.
  unfold with_bearer. cbn [init_headers].
  assert (Hset : forall key value obj, header_of key (assign key value obj) = Some value).
  { intros key value obj. induction obj as [|[k v] obj IH]; simpl.
    - by rewrite String.eqb_refl.
    - destruct (String.eqb k key) eqn:Hk; simpl; by rewrite Hk. }
  assert (Hother : forall key value name obj,
            name <> key -> header_of name (assign key value obj) = header_of name obj).
  { intros key value name obj Hne. induction obj as [|[k v] obj IH]; simpl.
    - destruct (String.eqb_spec key name); [congruence|done].
    - destruct (String.eqb_spec k key) as [->|Hk]; simpl.
      + by destruct (String.eqb_spec key name); [congruence|].
      + by rewrite IH. }
  split; [|apply Hset].
  rewrite Hother by done. apply Hset.
Qed.

Lemma truthy_string_ne s : s <> "" -> truthy_string s = true.
Proof. by destruct s. Qed.

Lemma fetch_logged path options token n w :
  token <> "" ->
  logged api_log (authenticated_request path options) (S n) w
    (fetch (request_url path) (with_bearer options (Some token)) w).2.
Proof.
  intros Hne. exists [(request_url path, with_bearer options (Some token))].
  split; [apply fetch_api_log|]. split; [simpl; lia|].
  constructor; [|constructor]. split; [done|]. by exists token.
Qed.

Lemma spotifyFetch_api_log path options env w :
  logged api_log (authenticated_request path options) 2 w (spotifyFetch path options env w).2.
Proof.
  pose proof (getAccessToken_api_log env w) as Hlog.
  pose proof (getAccessToken_result env w) as [Hnt Hne].
  unfold spotifyFetch.
  destruct (getAccessToken env w) as [[[token|]|e|] wa] eqn:Htoken; simpl in Hlog, Hne.
  2: { erewrite bind_returned; [|exact Htoken]. by apply logged_refl. }
  2: { by destruct (Hnt e). }
  2: { erewrite bind_unmodelled; [|exact Htoken]. by apply logged_refl. }
  specialize (Hne token eq_refl).
  erewrite bind_returned; [|exact Htoken].
  cbn [truthy_opt_string]. rewrite (truthy_string_ne token Hne). cbn [negb].
  cbv zeta. fold (request_url path).
  pose proof (fetch_logged path options token 0 wa Hne) as Hfirst.
  assert (Hstart : logged api_log (authenticated_request path options) 0 w wa)
    by by apply logged_refl.
  set (init := with_bearer options (Some token)) in *.
  destruct (fetch (request_url path) init wa) as [[response|e|] wb] eqn:Hfetch;
    cbn [snd] in Hfirst.
  2: { erewrite bind_thrown; [|exact Hfetch].
       apply (logged_trans _ _ 0 2 w wa); [done|].
       destruct Hfirst as (new & ? & ? & ?). exists new. repeat split; try done. lia. }
  2: { erewrite bind_unmodelled; [|exact Hfetch].
       apply (logged_trans _ _ 0 2 w wa); [done|].
       destruct Hfirst as (new & ? & ? & ?). exists new. repeat split; try done. lia. }
  erewrite bind_returned; [|exact Hfetch].
  assert (Hone : logged api_log (authenticated_request path options) 1 w wb)
    by by apply (logged_trans _ _ 0 1 w wa).
  assert (Hstop : forall w', api_log w' = api_log wb ->
            logged api_log (authenticated_request path options) 2 w w').
  { intros w' Hw'. apply (logged_trans _ _ 1 1 w wb); [done|]. by apply logged_refl. }
  destruct (status response =? 401); [|by apply Hstop].
  pose proof (preserves_readTokens_trace env wb) as Hread.
  pose proof (readTokens_not_thrown env wb) as Hrnt.
  destruct (readTokens env wb) as [[[tokens|]|e|] wc] eqn:Hr; simpl in Hread.
  2: { erewrite bind_returned; [|exact Hr]. apply Hstop. unfold api_log. simpl.
       by rewrite Hread. }
  2: { by destruct (Hrnt e). }
  2: { erewrite bind_unmodelled; [|exact Hr]. apply Hstop. unfold api_log. simpl.
       by rewrite Hread. }
  erewrite bind_returned; [|exact Hr]. cbv beta iota.
  assert (Hwc : api_log wc = api_log wb) by (unfold api_log; by rewrite Hread).
  match goal with |- context [try_catch ?b ?h] =>
    assert (Hblock : preserves api_log (try_catch b h)) by frame;
    specialize (Hblock wc) end.
  destruct (refresh_block_cases (refresh_token tokens) env
              (fun newTokens => Some (access_token newTokens)) wc)
    as [(newTokens & w2 & _ & Hv & Hb)|[(e & w2 & Hb & _)|(w2 & Hb & _)]].
  - erewrite try_catch_returned in Hblock; [|exact Hb]. cbn [snd] in Hblock.
    erewrite bind_returned; [|by erewrite try_catch_returned; [|exact Hb]].
    apply valid_tokens_access in Hv as (a & _ & -> & _ & Ha & _).
    apply (logged_trans _ _ 1 1 w wb); [done|].
    destruct (fetch_logged path options a 0
                (after_put TOKENS_KEY (JSON_stringify (Tokens_to_JSON newTokens)) w2))
      as (new & Hnew & Hlen & Hall); [by intros ->|].
    exists new. split; [|done]. by rewrite Hnew, Hblock, Hwc.
  - erewrite try_catch_thrown in Hblock; [|exact Hb].
    change (api_log w2 = api_log wc) in Hblock.
    erewrite bind_returned; [|by erewrite try_catch_thrown; [|exact Hb]].
    apply Hstop. change (api_log w2 = api_log wb). by rewrite Hblock, Hwc.
  - erewrite try_catch_unmodelled in Hblock; [|exact Hb].
    change (api_log w2 = api_log wc) in Hblock.
    erewrite bind_unmodelled; [|by erewrite try_catch_unmodelled; [|exact Hb]].
    apply Hstop. change (api_log w2 = api_log wb). by rewrite Hblock, Hwc.
Qed.

(** X12.  Every request that one call of [spotifyFetch] sends to the
    resource API (there are at most two) goes to the URL of the path and
    carries the caller's options with a bearer token that is not empty.  The
    headers [Authorization] and [Content-Type] of such a request are [Bearer
    <token>] and [application/json], whatever the caller supplied under these
    names; method and body are the caller's. *)
Theorem spotifyFetch_requests_authenticated
    (path : string) (options : RequestInit) (env : Env) (w : World) :
  (exists sent,
      api_log (spotifyFetch path options env w).2 = (api_log w ++ sent)%list
      /\ (length sent <= 2)%nat
      /\ Forall (authenticated_request path options) sent)
  /\ (forall token,
        header_of "Authorization" (init_headers (with_bearer options (Some token)))
        = Some ("Bearer " +:+ token)
        /\ header_of "Content-Type" (init_headers (with_bearer options (Some token)))
           = Some "application/json"
        /\ method (with_bearer options (Some token)) = method options
        /\ init_body (with_bearer options (Some token)) = init_body options).
Proof.
  split; [apply spotifyFetch_api_log|].
  intros token. destruct (with_bearer_headers options (Some token)) as [Ha Hc]. done.
Qed.

Lemma string_ind3 (P : string -> Prop) :
  P "" ->
  (forall a, P (String a "")) ->
  (forall a b, P (String a (String b ""))) ->
  (forall a b c s, P s -> P (String a (String b (String c s)))) ->
  forall s, P s.
Proof.
  intros H0 H1 H2 H3.
  refine (fix IH (s : string) : P s :=
            match s with
            | EmptyString => H0
            | String a EmptyString => H1 a
            | String a (String b EmptyString) => H2 a b
            | String a (String b (String c s')) => H3 a b c s' (IH s')
            end).
Qed.

Lemma all_chars_app p s t : all_chars p (s +:+ t) = all_chars p s && all_chars p t.
Proof. induction s as [|c s IH]; simpl; [done|]. rewrite IH. by rewrite andb_assoc. Qed.

Lemma string_length_app s t : String.length (s +:+ t) = (String.length s + String.length t)%nat.
Proof. induction s as [|c s IH]; simpl; [done|]. by rewrite IH. Qed.

Lemma to_base64url_cons c s : to_base64url (String c s) = base64url_char c +:+ to_base64url s.
Proof.
  unfold to_base64url, base64url_char. cbn [replace_char].
  destruct (Ascii.eqb_spec c "+") as [->|Hp]; [reflexivity|].
  cbn [replace_char].
  destruct (Ascii.eqb_spec c "/") as [->|Hs]; [reflexivity|].
  cbn [replace_char].
  destruct (Ascii.eqb_spec c "=") as [->|He]; reflexivity.
Qed.

Lemma base64_char_cases (P : ascii -> Prop) :
  (forall n : nat, (n < 64)%nat -> P (base64_char (N.of_nat n))) ->
  P "/"%char ->
  forall n, P (base64_char n).
Proof.
  intros Hsmall Hslash n.
  destruct (N.ltb_spec n 64) as [Hlt|Hge].
  - rewrite <- (N2Nat.id n). apply Hsmall. lia.
  - unfold base64_char.
    destruct (N.ltb_spec n 26); [lia|]. destruct (N.ltb_spec n 52); [lia|].
    destruct (N.ltb_spec n 62); [lia|]. destruct (N.eqb_spec n 62); [lia|]. exact Hslash.
Qed.

Lemma forall_below (P : nat -> bool) (bound : nat) :
  forallb P (seq 0 bound) = true -> forall n, (n < bound)%nat -> P n = true.
Proof.
  intros H n Hn. rewrite forallb_forall in H. apply H. apply in_seq. lia.
Qed.

Lemma base64url_char_safe n :
  all_chars url_safe_char (base64url_char (base64_char n)) = true
  /\ String.length (base64url_char (base64_char n)) = 1%nat.
Proof.
  apply (base64_char_cases
           (fun c => all_chars url_safe_char (base64url_char c) = true
                     /\ String.length (base64url_char c) = 1%nat)); [|by split].
  intros k Hk.
  pose proof (forall_below
    (fun k => all_chars url_safe_char (base64url_char (base64_char (N.of_nat k)))
              && Nat.eqb (String.length (base64url_char (base64_char (N.of_nat k)))) 1)
    64 eq_refl k Hk) as H.
  cbv beta in H. apply andb_true_iff in H as [H1 H2].
  split; [done|]. by apply Nat.eqb_eq.
Qed.

Lemma fold_left_append (array : list ascii) (acc : string) :
  fold_left (fun acc byte => acc +:+ String byte "") array acc
  = acc +:+ string_of_list_ascii array.
Proof.
  revert acc. induction array as [|c array IH]; intros acc; simpl.
  - induction acc as [|x acc IHacc]; simpl; congruence.
  - rewrite IH. rewrite string_app_assoc. reflexivity.
Qed.

Lemma generateState_unfold array :
  generateState array = to_base64url (btoa (string_of_list_ascii array)).
Proof. unfold generateState. by rewrite fold_left_append. Qed.

Lemma to_base64url_btoa_safe s :
  all_chars url_safe_char (to_base64url (btoa s)) = true
  /\ String.length (to_base64url (btoa s)) = ((4 * String.length s + 2) / 3)%nat.
Proof.
  induction s as [|a|a b|a b c s [IH1 IH2]] using string_ind3.
  - by split.
  - cbn [btoa]. cbv zeta. rewrite !to_base64url_cons.
    destruct (base64url_char_safe (N_of_ascii a / 4)) as [H1 L1].
    destruct (base64url_char_safe (N_of_ascii a mod 4 * 16)) as [H2 L2].
    split.
    + rewrite !all_chars_app, H1, H2. reflexivity.
    + rewrite !string_length_app, L1, L2. reflexivity.
  - cbn [btoa]. cbv zeta. rewrite !to_base64url_cons.
    destruct (base64url_char_safe (N_of_ascii a / 4)) as [H1 L1].
    destruct (base64url_char_safe (N_of_ascii a mod 4 * 16 + N_of_ascii b / 16)) as [H2 L2].
    destruct (base64url_char_safe (N_of_ascii b mod 16 * 4)) as [H3 L3].
    split.
    + rewrite !all_chars_app, H1, H2, H3. reflexivity.
    + rewrite !string_length_app, L1, L2, L3. reflexivity.
  - cbn [btoa]. cbv zeta. rewrite !to_base64url_cons.
    destruct (base64url_char_safe (N_of_ascii a / 4)) as [H1 L1].
    destruct (base64url_char_safe (N_of_ascii a mod 4 * 16 + N_of_ascii b / 16)) as [H2 L2].
    destruct (base64url_char_safe (N_of_ascii b mod 16 * 4 + N_of_ascii c / 64)) as [H3 L3].
    destruct (base64url_char_safe (N_of_ascii c mod 64)) as [H4 L4].
    split.
    + rewrite !all_chars_app, H1, H2, H3, H4, IH1. reflexivity.
    + rewrite !string_length_app, L1, L2, L3, L4, IH2. cbn [String.length].
      replace (4 * S (S (S (String.length s))) + 2)%nat
        with ((4 * String.length s + 2) + 4 * 3)%nat by lia.
      rewrite Nat.div_add by lia. lia.
Qed.

Lemma string_of_list_ascii_length l : String.length (string_of_list_ascii l) = length l.
Proof. induction l as [|c l IH]; simpl; congruence. Qed.

Lemma generateState_safe array :
  all_chars url_safe_char (generateState array) = true
  /\ String.length (generateState array) = ((4 * length array + 2) / 3)%nat.
Proof.
  rewrite generateState_unfold.
  destruct (to_base64url_btoa_safe (string_of_list_ascii array)) as [H L].
  split; [done|]. by rewrite L, string_of_list_ascii_length.
Qed.

(** X14.  [generateState] yields letters, digits, [-] and [_] only.  For
    n random bytes the state has the 4n/3 characters, rounded up, of unpadded
    base64: 43 for the 32 bytes the code draws. *)
Theorem generateState_url_safe (array : list ascii) :
  all_chars url_safe_char (generateState array) = true
  /\ String.length (generateState array) = ((4 * length array + 2) / 3)%nat
  /\ (length array = 32%nat -> String.length (generateState array) = 43%nat).
Proof.
  destruct (generateState_safe array) as [H L].
  split; [done|]. split; [done|]. intros H32. by rewrite L, H32.
Qed.

Lemma all_chars_impl (p q : ascii -> bool) s :
  (forall c, p c = true -> q c = true) -> all_chars p s = true -> all_chars q s = true.
Proof.
  intros Hpq. induction s as [|c s IH]; simpl; [done|].
  intros H. apply andb_true_iff in H as [Hc Hs]. by rewrite Hpq, IH.
Qed.

Lemma url_safe_char_spec c :
  url_safe_char c = true ->
  Ascii.eqb c ";" = false /\ Ascii.eqb c "=" = false /\ Ascii.eqb c "%" = false
  /\ is_js_space c = false /\ form_urlencode_char c = String c "".
Proof.
  destruct c as [[] [] [] [] [] [] [] []]; intros H; try discriminate H;
    repeat split; reflexivity.
Qed.

Lemma split_on_none sep s :
  all_chars (fun c => negb (Ascii.eqb c sep)) s = true -> split_on sep s = [s].
Proof.
  induction s as [|c s IH]; simpl; [done|].
  intros H. apply andb_true_iff in H as [Hc Hs].
  apply negb_true_iff in Hc. rewrite Hc, IH by done. reflexivity.
Qed.

Lemma trim_left_none s :
  all_chars (fun c => negb (is_js_space c)) s = true -> trim_left s = s.
Proof.
  destruct s as [|c s]; simpl; [done|].
  intros H. apply andb_true_iff in H as [Hc _]. apply negb_true_iff in Hc. by rewrite Hc.
Qed.

Lemma trim_right_none s :
  all_chars (fun c => negb (is_js_space c)) s = true -> trim_right s = s.
Proof.
  induction s as [|c s IH]; simpl; [done|].
  intros H. apply andb_true_iff in H as [Hc Hs]. apply negb_true_iff in Hc.
  rewrite IH by done. rewrite Hc. by destruct s.
Qed.

Lemma trim_none s :
  all_chars (fun c => negb (is_js_space c)) s = true -> trim s = s.
Proof. intros H. unfold trim. rewrite trim_left_none by done. by apply trim_right_none. Qed.

Lemma decodeURIComponent_plain s :
  all_chars (fun c => negb (Ascii.eqb c "%")) s = true ->
  decodeURIComponent s = DecodedOk s.
Proof.
  induction s as [|c s IH]; [done|].
  intros H. cbn [all_chars] in H. apply andb_true_iff in H as [Hc Hs].
  apply negb_true_iff in Hc. cbn [decodeURIComponent]. rewrite Hc, IH by done. reflexivity.
Qed.

(** The header [oauth_state=<state>] read back. *)
Lemma parseCookies_state state :
  all_chars url_safe_char state = true ->
  parseCookies (Some ("oauth_state=" +:+ state))
  = DecodedOk {[ "oauth_state" := state ]}.
Proof.
  intros Hsafe.
  assert (Hsemi : all_chars (fun c => negb (Ascii.eqb c ";")) state = true).
  { eapply all_chars_impl; [|exact Hsafe]. intros c Hc.
    by destruct (url_safe_char_spec c Hc) as (-> & _). }
  assert (Heq : all_chars (fun c => negb (Ascii.eqb c "=")) state = true).
  { eapply all_chars_impl; [|exact Hsafe]. intros c Hc.
    by destruct (url_safe_char_spec c Hc) as (_ & -> & _). }
  assert (Hpct : all_chars (fun c => negb (Ascii.eqb c "%")) state = true).
  { eapply all_chars_impl; [|exact Hsafe]. intros c Hc.
    by destruct (url_safe_char_spec c Hc) as (_ & _ & -> & _). }
  assert (Hsp : all_chars (fun c => negb (is_js_space c)) state = true).
  { eapply all_chars_impl; [|exact Hsafe]. intros c Hc.
    by destruct (url_safe_char_spec c Hc) as (_ & _ & _ & -> & _). }
  unfold parseCookies.
  assert (Ht : truthy_opt_string (Some ("oauth_state=" +:+ state)) = true) by reflexivity.
  rewrite Ht. cbn [negb default from_option id].
  rewrite split_on_none by (rewrite all_chars_app; by rewrite Hsemi).
  cbn [fold_left dbind]. unfold parseCookie.
  rewrite trim_none by (rewrite all_chars_app; by rewrite Hsp).
  assert (Hsplit : split_on "=" ("oauth_state=" +:+ state) = ["oauth_state"; state]).
  { cbn. by rewrite split_on_none. }
  rewrite Hsplit. cbn [truthy_string length Z.of_nat andb join_with].
  rewrite decodeURIComponent_plain by done. reflexivity.
Qed.

Lemma getStateCookie_state request state :
  Headers_get (request_headers request) "Cookie" = Some ("oauth_state=" +:+ state) ->
  state <> "" ->
  all_chars url_safe_char state = true ->
  getStateCookie request = DecodedOk (Some state).
Proof.
  intros Hheader Hne Hsafe. unfold getStateCookie. rewrite Hheader.
  rewrite parseCookies_state by done. cbn [dmap dbind].
  rewrite lookup_singleton_eq. unfold or_opt_string. cbn [truthy_opt_string].
  by rewrite truthy_string_ne.
Qed.

Lemma generateState_nonempty array : array <> [] -> generateState array <> "".
Proof.
  intros Hne Hempty.
  destruct (generateState_safe array) as [_ L]. rewrite Hempty in L.
  destruct array as [|c array]; [done|]. cbn [String.length length] in L.
  assert (1 <= (4 * S (length array) + 2) / 3)%nat; [|lia].
  apply Nat.div_le_lower_bound; lia.
Qed.

(** X15.  A state that [generateState] produced, sent back as the header
    [Cookie: oauth_state=<state>], is what [getStateCookie] returns, and
    [validateState] then accepts that state and no other as the received
    one. *)
Theorem state_cookie_round_trip (array : list ascii) (request : Request) :
  array <> [] ->
  Headers_get (request_headers request) "Cookie"
  = Some ("oauth_state=" +:+ generateState array) ->
  getStateCookie request = DecodedOk (Some (generateState array))
  /\ (forall received,
        validateState (Some (generateState array)) received = true
        <-> received = generateState array).
Proof.
  intros Hne Hheader. split.
  - apply getStateCookie_state; [done|by apply generateState_nonempty|].
    apply generateState_safe.
  - intros received. unfold validateState. rewrite String.eqb_eq. split; congruence.
Qed.

(** X16.  [validateState] succeeds on what [getStateCookie] returned only
    if the request carried a [Cookie] header that is not empty and the stored
    state is the received one, which is then not empty: a missing or empty
    [oauth_state] cookie never validates, not even against an empty state. *)
Theorem validateState_needs_cookie
    (request : Request) (stored : option string) (received : string) :
  getStateCookie request = DecodedOk stored ->
  validateState stored received = true ->
  stored = Some received /\ received <> ""
  /\ exists header, Headers_get (request_headers request) "Cookie" = Some header
                    /\ header <> "".
Proof.
  unfold getStateCookie, validateState. intros Hget Hvalid.
  destruct stored as [s|]; [|done]. apply String.eqb_eq in Hvalid. subst s.
  destruct (parseCookies _) as [cookies| |] eqn:Hparse; try done.
  cbn [dmap dbind] in Hget. injection Hget as Hget.
  unfold or_opt_string in Hget.
  destruct (truthy_opt_string (cookies !! "oauth_state")) eqn:Ht; [|done].
  rewrite Hget in Ht. cbn in Ht.
  split; [done|]. split; [by intros ->|].
  unfold parseCookies in Hparse.
  destruct (Headers_get (request_headers request) "Cookie") as [[|c header]|] eqn:Hh.
  - cbn in Hparse. injection Hparse as <-. by rewrite lookup_empty in Hget.
  - by eexists.
  - cbn in Hparse. injection Hparse as <-. by rewrite lookup_empty in Hget.
Qed.

Lemma parseCookies_fold_ok (cookies : list string) acc result :
  fold_left (fun acc cookie => dbind acc (fun cookies => parseCookie cookies cookie))
    cookies acc = DecodedOk result ->
  Forall (fun cookie => exists before after, parseCookie before cookie = DecodedOk after)
    cookies.
Proof.
  revert acc. induction cookies as [|cookie cookies IH]; intros acc H; [constructor|].
  cbn [fold_left] in H. constructor; [|by eapply IH].
  assert (Hacc : exists after, dbind acc (fun cookies => parseCookie cookies cookie)
                               = DecodedOk after).
  { clear IH. revert H.
    generalize (dbind acc (fun cookies => parseCookie cookies cookie)).
    induction cookies as [|next cookies IH]; intros d H; cbn [fold_left] in H; [by eexists|].
    destruct d as [after| |]; [by eexists|..].
    - apply IH in H as [after H]. done.
    - apply IH in H as [after H]. done. }
  destruct Hacc as [after Hacc]. destruct acc as [before| |]; try done.
  by exists before, after.
Qed.

(** X17.  One cookie whose value has a malformed percent escape makes
    [getStateCookie] raise a URIError, whichever cookie it is and whatever the
    others are (unless the decoding of an earlier cookie already leaves the
    model): [parseCookies] decodes every cookie of the header, not only
    [oauth_state]. *)
Theorem getStateCookie_malformed_cookie
    (request : Request) (header cookie name : string) (valueParts : list string) :
  Headers_get (request_headers request) "Cookie" = Some header ->
  cookie ∈ split_on ";" header ->
  split_on "=" (trim cookie) = name :: valueParts ->
  name <> "" ->
  valueParts <> [] ->
  decodeURIComponent (join_with "=" valueParts) = DecodeURIError ->
  getStateCookie request = DecodeURIError \/ getStateCookie request = DecodeUnmodelled.
Proof.
  intros Hheader Hin Hsplit Hname Hparts Hdecode.
  unfold getStateCookie. rewrite Hheader.
  destruct (parseCookies (Some header)) as [cookies| |] eqn:Hparse; [|by left|by right].
  exfalso. unfold parseCookies in Hparse.
  destruct header as [|c header].
  { cbn in Hin. apply list_elem_of_singleton in Hin as ->. cbn in Hsplit.
    by injection Hsplit as <- _. }
  cbn [truthy_opt_string truthy_string negb default from_option id] in Hparse.
  apply parseCookies_fold_ok in Hparse.
  rewrite Forall_forall in Hparse.
  destruct (Hparse cookie Hin) as (before & after & Hone).
  unfold parseCookie in Hone. rewrite Hsplit in Hone.
  rewrite (truthy_string_ne name Hname) in Hone.
  destruct valueParts as [|v vs]; [done|].
  cbn [length andb] in Hone.
  replace (0 <? Z.of_nat (S (length vs))) with true in Hone by (symmetry; apply Z.ltb_lt; lia).
  rewrite Hdecode in Hone. done.
Qed.

Lemma form_urlencode_safe s :
  all_chars url_safe_char s = true -> form_urlencode s = s.
Proof.
  induction s as [|c s IH]; [done|].
  intros H. cbn [all_chars] in H. apply andb_true_iff in H as [Hc Hs].
  cbn [form_urlencode]. rewrite IH by done.
  by destruct (url_safe_char_spec c Hc) as (_ & _ & _ & _ & ->).
Qed.

(** X18.  [handleLogin] answers 302 and leaves the world as it is.  The
    state it draws is in the [Set-Cookie] header and, unencoded, the last
    parameter of the [Location] URL, after [response_type=code], the encoded
    client id, the encoded redirect URI and the scope. *)
Theorem handleLogin_binds_state
    (array : list ascii) (request : Request) (env : Env) (w : World) :
  exists response,
    handleLogin array request env w = (Returned response, w)
    /\ status response = 302
    /\ Headers_get (headers response) "Set-Cookie"
       = Some (createStateCookie (generateState array))
    /\ Headers_get (headers response) "Location"
       = Some (buildAuthorizeUrl (generateState array) env)
    /\ buildAuthorizeUrl (generateState array) env
       = SPOTIFY_AUTH_URL +:+ "?response_type=code&client_id="
         +:+ form_urlencode (template (SPOTIFY_CLIENT_ID env))
         +:+ "&redirect_uri=" +:+ form_urlencode (template (SPOTIFY_REDIRECT_URI env))
         +:+ "&scope=user-read-playback-state+user-modify-playback-state&state="
         +:+ generateState array.
Proof.
  eexists. split; [reflexivity|]. split; [reflexivity|].
  split; [reflexivity|]. split; [reflexivity|].
  unfold buildAuthorizeUrl, URLSearchParams_toString.
  cbn [List.map join_with fst snd].
  rewrite (form_urlencode_safe (generateState array)) by apply generateState_safe.
  change (form_urlencode "response_type") with "response_type".
  change (form_urlencode "code") with "code".
  change (form_urlencode "client_id") with "client_id".
  change (form_urlencode "redirect_uri") with "redirect_uri".
  change (form_urlencode "scope") with "scope".
  change (form_urlencode "state") with "state".
  change (form_urlencode "user-read-playback-state user-modify-playback-state")
    with "user-read-playback-state+user-modify-playback-state".
  rewrite !string_app_assoc. reflexivity.
Qed.

Lemma new_Response_body text status headers w :
  body_status status = true ->
  new_Response (Some text) status headers w
  = (Returned {| status := status; headers := headers; body := text |}, w).
Proof.
  unfold body_status, new_Response. intros H.
  apply andb_true_iff in H as [H Hnull]. apply andb_true_iff in H as [Hlo Hhi].
  apply negb_true_iff in Hnull. rewrite Hnull.
  destruct (Z.ltb_spec status 200); [lia|]. destruct (Z.ltb_spec 599 status); [lia|].
  reflexivity.
Qed.

Lemma jsonError_run code message status w :
  body_status status = true ->
  jsonError code message status w = (Returned (error_response code message status), w).
Proof. intros H. unfold jsonError. cbv zeta. by rewrite new_Response_body. Qed.

Lemma jsonSuccess_run data w : jsonSuccess data w = (Returned (json_response 200 data), w).
Proof. reflexivity. Qed.

Lemma cors_jsonError code message status w :
  body_status status = true ->
  (r ← jsonError code message status; mret (addCorsHeaders r)) w
  = (Returned (addCorsHeaders (error_response code message status)), w).
Proof. intros H. by erewrite bind_returned; [|by apply jsonError_run]. Qed.

Lemma cors_jsonError_some code message status w :
  body_status status = true ->
  (r ← jsonError code message status; mret (Some (addCorsHeaders r))) w
  = (Returned (Some (addCorsHeaders (error_response code message status))), w).
Proof. intros H. by erewrite bind_returned; [|by apply jsonError_run]. Qed.

(** With a status that takes no body, or none that [new Response] takes
    at all, [jsonError] throws. *)
Lemma jsonError_throws code message status w :
  body_status status = false ->
  exists e, jsonError code message status w = (Thrown e, w) /\ e <> SyntaxError.
Proof.
  unfold body_status, jsonError, new_Response. cbv zeta. intros H.
  destruct (Z.ltb_spec status 200); cbn [orb]; [by exists RangeError|].
  destruct (Z.ltb_spec 599 status); [by exists RangeError|].
  destruct (Z.leb_spec 200 status); [|lia]. destruct (Z.leb_spec status 599); [|lia].
  cbn [andb] in H. apply negb_false_iff in H. rewrite H. by exists TypeError.
Qed.

Lemma get_property_run v key w :
  get_property v key w
  = (match v with JNull => Thrown TypeError | _ => Returned (member_of v key) end, w).
Proof. by destruct v. Qed.

Lemma prefix_api path :
  String.prefix "/api" path = true -> exists rest, path = "/api" +:+ rest.
Proof.
  destruct path as [|c1 [|c2 [|c3 [|c4 rest]]]]; cbn [String.prefix];
    repeat (destruct (ascii_dec _ _) as [<-|]; [|done]); try done.
  intros _. by exists rest.
Qed.

Lemma checkAutomationKey_spec request env :
  checkAutomationKey request env = true
  <-> exists key, Headers_get (request_headers request) "X-Automation-Key" = Some key
                  /\ AUTOMATION_KEY env = Some key.
Proof.
  unfold checkAutomationKey. cbv zeta.
  destruct (Headers_get _ _) as [provided|], (AUTOMATION_KEY env) as [key|];
    try (split; [done|by intros (? & ? & ?)]).
  rewrite String.eqb_eq. split.
  - intros ->. by exists key.
  - intros (k & [= ->] & [= ->]). done.
Qed.

(** X19.  A request to a path that starts with [/api], other than a
    preflight, whose [X-Automation-Key] header is missing or differs from the
    configured key, or for which no key is configured at all, is answered 401
    INVALID_AUTOMATION_KEY, and the world is untouched: the store is not read
    and no network call is made. *)
Theorem api_requires_automation_key
    (statusText : Response -> string) (page_text : Page -> string)
    (array : list ascii) (request : Request) (env : Env) (w : World) :
  String.prefix "/api" (pathname request) = true ->
  request_method request <> "OPTIONS" ->
  (forall key, Headers_get (request_headers request) "X-Automation-Key" = Some key ->
               AUTOMATION_KEY env <> Some key) ->
  handleRequest statusText page_text array request env w
  = (Returned (addCorsHeaders
       (error_response "INVALID_AUTOMATION_KEY"
          (JStr "Invalid or missing X-Automation-Key header") 401)), w).
Proof.
  intros Hpath Hmethod Hkey.
  assert (Hcheck : checkAutomationKey request env = false).
  { destruct (checkAutomationKey request env) eqn:Hc; [|done].
    apply checkAutomationKey_spec in Hc as (key & Hh & Hk). by destruct (Hkey key Hh). }
  apply prefix_api in Hpath as Hrest. destruct Hrest as [rest Hrest].
  unfold handleRequest. cbv zeta. rewrite Hpath, Hrest.
  destruct (String.eqb_spec (request_method request) "OPTIONS") as [|_]; [done|].
  cbn [andb].
  change (String.eqb ("/api" +:+ rest) "/health") with false.
  change (String.eqb ("/api" +:+ rest) "/login") with false.
  change (String.eqb ("/api" +:+ rest) "/callback") with false.
  rewrite !andb_false_r. rewrite Hcheck. cbn [negb].
  by apply cors_jsonError.
Qed.

Section outcomes.
Context {A B : Type}.
Implicit Types (m : M A) (k : A -> M B).

Lemma never_throws_ret (a : A) : never_throws (mret a).
Proof. by intros w e. Qed.

Lemma never_throws_unmodelled : never_throws (@unmodelled A).
Proof. by intros w e. Qed.

Lemma never_throws_bind m k :
  never_throws m -> (forall a, never_throws (k a)) -> never_throws (m ≫= k).
Proof.
  intros Hm Hk w e. specialize (Hm w). unfold mbind, M_bind.
  destruct (m w) as [[a|e'|] w1]; simpl in *; [apply Hk|by destruct (Hm e')|done].
Qed.

Lemma never_throws_try_catch m (h : JsError -> M A) :
  (forall e, never_throws (h e)) -> never_throws (try_catch m h).
Proof.
  intros Hh w e. unfold try_catch.
  destruct (m w) as [[a|e'|] w1]; simpl; [done|apply Hh|done].
Qed.

Lemma returns_ret (P : A -> Prop) (a : A) : P a -> returns P (mret a).
Proof. intros H w a' w' [= <- _]. done. Qed.

Lemma returns_throw (P : A -> Prop) e : returns P (throw e).
Proof. by intros w a w'. Qed.

Lemma returns_unmodelled (P : A -> Prop) : returns P unmodelled.
Proof. by intros w a w'. Qed.

Lemma returns_bind (P : B -> Prop) m k :
  (forall a, returns P (k a)) -> returns P (m ≫= k).
Proof.
  intros Hk w b w' H. apply bind_inv_returned in H as (a & w1 & _ & H). by eapply Hk.
Qed.

Lemma returns_try_catch (P : A -> Prop) m (h : JsError -> M A) :
  returns P m -> (forall e, returns P (h e)) -> returns P (try_catch m h).
Proof.
  intros Hm Hh w a w' H.
  apply try_catch_inv_returned in H as [H|(e & w1 & _ & H)]; [by eapply Hm|by eapply Hh].
Qed.
End outcomes.

Lemma never_throws_new_Response_null status headers :
  (200 <=? status) && (status <=? 599) = true ->
  never_throws (new_Response None status headers).
Proof.
  intros H w e. unfold new_Response.
  apply andb_true_iff in H as [Hlo Hhi]. apply Z.leb_le in Hlo, Hhi.
  destruct (Z.ltb_spec status 200); [lia|]. destruct (Z.ltb_spec 599 status); [lia|]. done.
Qed.

Lemma never_throws_new_Response text status headers :
  body_status status = true -> never_throws (new_Response (Some text) status headers).
Proof. intros H w e. by rewrite new_Response_body. Qed.

Lemma never_throws_jsonError code message status :
  body_status status = true -> never_throws (jsonError code message status).
Proof. intros H w e. by rewrite jsonError_run. Qed.

Lemma never_throws_readTokens env : never_throws (readTokens env).
Proof. intros w e. apply readTokens_not_thrown. Qed.

Lemma never_throws_getAccessToken env : never_throws (getAccessToken env).
Proof. intros w e. apply getAccessToken_result. Qed.

Ltac never_throws_step :=
  match goal with
  | |- never_throws (mret _) => apply never_throws_ret
  | |- never_throws unmodelled => apply never_throws_unmodelled
  | |- never_throws (try_catch _ _) => apply never_throws_try_catch; intros ?
  | |- never_throws (new_Response None _ _) =>
      apply never_throws_new_Response_null; reflexivity
  | |- never_throws (new_Response (Some _) _ _) =>
      apply never_throws_new_Response; reflexivity
  | |- never_throws (jsonError _ _ _) => apply never_throws_jsonError; reflexivity
  | |- never_throws (jsonSuccess _) => apply never_throws_new_Response; reflexivity
  | |- never_throws (readTokens _) => apply never_throws_readTokens
  | |- never_throws (getAccessToken _) => apply never_throws_getAccessToken
  | |- never_throws (_ ≫= _) => apply never_throws_bind; [|intros ?]
  | |- never_throws (if ?b then _ else _) => destruct b
  | |- never_throws (match ?x with _ => _ end) => destruct x
  end.

Ltac solve_never_throws := repeat never_throws_step.

Lemma never_throws_handleGetDevices statusText env :
  never_throws (handleGetDevices statusText env).
Proof. unfold handleGetDevices. solve_never_throws. Qed.

Lemma never_throws_handleTransfer statusText request env :
  never_throws (handleTransfer statusText request env).
Proof. unfold handleTransfer. solve_never_throws. Qed.

Lemma never_throws_handleTransferEcho statusText env :
  never_throws (handleTransferEcho statusText env).
Proof. unfold handleTransferEcho. solve_never_throws. Qed.

Lemma never_throws_requireAuth env : never_throws (requireAuth env).
Proof. unfold requireAuth. solve_never_throws. Qed.

(** X20.  [handleRequest] never throws on a request other than [GET
    /callback]: every such request is answered, unless the run leaves the
    model. *)
Theorem routes_never_throw
    (statusText : Response -> string) (page_text : Page -> string)
    (array : list ascii) (request : Request) (env : Env) (w : World) (e : JsError) :
  request_method request <> "GET" \/ pathname request <> "/callback" ->
  (handleRequest statusText page_text array request env w).1 <> Thrown e.
Proof.
  intros Hroute. revert w e.
  change (never_throws (handleRequest statusText page_text array request env)).
  unfold handleRequest. cbv zeta.
  destruct (String.eqb _ "OPTIONS" && _).
  { unfold handleOptions. solve_never_throws. }
  destruct (String.eqb _ "GET" && String.eqb _ "/health").
  { unfold handleHealth. solve_never_throws. }
  destruct (String.eqb _ "GET" && String.eqb _ "/login").
  { unfold handleLogin. solve_never_throws. }
  destruct (String.eqb_spec (request_method request) "GET") as [Hm|_];
    destruct (String.eqb_spec (pathname request) "/callback") as [Hp|_];
    cbn [andb]; [by destruct Hroute|..].
  all: destruct (String.prefix "/api" _); [|solve_never_throws].
  all: destruct (negb _); [solve_never_throws|].
  all: apply never_throws_bind; [apply never_throws_requireAuth|]; intros [authError|];
    [solve_never_throws|].
  all: repeat match goal with
       | |- never_throws (if ?b then _ else _) => destruct b
       end;
    first [apply never_throws_handleGetDevices | apply never_throws_handleTransfer
          | apply never_throws_handleTransferEcho | solve_never_throws].
Qed.

Lemma has_cors_addCorsHeaders response : has_cors (addCorsHeaders response).
Proof.
  unfold has_cors, addCorsHeaders, Headers_get. cbn [headers].
  change (lower "Access-Control-Allow-Origin") with "access-control-allow-origin".
  change (lower "Access-Control-Allow-Methods") with "access-control-allow-methods".
  change (lower "Access-Control-Allow-Headers") with "access-control-allow-headers".
  split; [|split].
  - rewrite lookup_insert_ne by done. rewrite lookup_insert_ne by done.
    apply lookup_insert_eq.
  - rewrite lookup_insert_ne by done. apply lookup_insert_eq.
  - apply lookup_insert_eq.
Qed.

Ltac returns_step :=
  match goal with
  | |- returns _ (mret (addCorsHeaders _)) => apply returns_ret, has_cors_addCorsHeaders
  | |- returns _ (mret (Some (addCorsHeaders _))) =>
      apply returns_ret, has_cors_addCorsHeaders
  | |- returns _ (throw _) => apply returns_throw
  | |- returns _ unmodelled => apply returns_unmodelled
  | |- returns _ (try_catch _ _) => apply returns_try_catch; [|intros ?]
  | |- returns _ (_ ≫= _) => apply returns_bind; intros ?
  | |- returns _ (if ?b then _ else _) => destruct b
  | |- returns _ (match ?x with _ => _ end) => destruct x
  end.

Ltac solve_returns := repeat returns_step.

Lemma returns_cors_transfer_failure statusText response :
  returns has_cors (transfer_failure statusText response).
Proof. unfold transfer_failure. solve_returns. Qed.

Lemma returns_cors_devices_failure statusText response :
  returns has_cors (devices_failure statusText response).
Proof. unfold devices_failure. solve_returns. Qed.

Lemma returns_cors_handleGetDevices statusText env :
  returns has_cors (handleGetDevices statusText env).
Proof.
  unfold handleGetDevices.
  repeat first [apply returns_cors_devices_failure | returns_step].
Qed.

Lemma returns_cors_handleTransfer statusText request env :
  returns has_cors (handleTransfer statusText request env).
Proof.
  unfold handleTransfer.
  repeat first [apply returns_cors_transfer_failure | returns_step].
Qed.

Lemma returns_cors_handleTransferEcho statusText env :
  returns has_cors (handleTransferEcho statusText env).
Proof.
  unfold handleTransferEcho.
  repeat first [apply returns_cors_transfer_failure | apply returns_cors_devices_failure
               | returns_step].
Qed.

Lemma returns_cors_requireAuth env :
  returns (fun authError => forall response, authError = Some response -> has_cors response)
    (requireAuth env).
Proof.
  unfold requireAuth.
  apply returns_bind. intros [tokens|].
  - apply returns_bind. intros accessToken. destruct (negb _).
    + apply returns_bind. intros r. apply returns_ret. intros response [= <-].
      apply has_cors_addCorsHeaders.
    + by apply returns_ret.
  - apply returns_bind. intros r. apply returns_ret. intros response [= <-].
    apply has_cors_addCorsHeaders.
Qed.

(** X21.  Every response to a request whose path starts with [/api]
    carries the three CORS headers, whichever handler or check produced it. *)
Theorem api_responses_carry_cors
    (statusText : Response -> string) (page_text : Page -> string)
    (array : list ascii) (request : Request) (env : Env) (w w' : World)
    (response : Response) :
  String.prefix "/api" (pathname request) = true ->
  handleRequest statusText page_text array request env w = (Returned response, w') ->
  Headers_get (headers response) "Access-Control-Allow-Origin" = Some "*"
  /\ Headers_get (headers response) "Access-Control-Allow-Methods"
     = Some "GET, POST, OPTIONS"
  /\ Headers_get (headers response) "Access-Control-Allow-Headers"
     = Some "Content-Type, X-Automation-Key".
Proof.
  intros Hpath. revert w response w'.
  change (returns has_cors (handleRequest statusText page_text array request env)).
  apply prefix_api in Hpath as Hrest. destruct Hrest as [rest Hrest].
  unfold handleRequest. cbv zeta. rewrite Hpath, Hrest.
  change (String.eqb ("/api" +:+ rest) "/health") with false.
  change (String.eqb ("/api" +:+ rest) "/login") with false.
  change (String.eqb ("/api" +:+ rest) "/callback") with false.
  rewrite !andb_false_r, andb_true_r.
  destruct (String.eqb _ "OPTIONS").
  { unfold handleOptions. solve_returns. }
  destruct (negb _); [solve_returns|].
  intros w response w' H.
  apply bind_inv_returned in H as (authError & w1 & Hauth & H).
  destruct authError as [authError|].
  { injection H as <- _. by eapply (returns_cors_requireAuth env w _ w1 Hauth). }
  revert H.
  repeat match goal with
         | |- (if ?b then _ else _) _ = _ -> _ => destruct b
         end.
  - apply returns_cors_handleGetDevices.
  - apply returns_cors_handleTransfer.
  - apply returns_cors_handleTransferEcho.
  - assert (Hnf : returns has_cors
                    (r ← jsonError "NOT_FOUND" (JStr "Not found") 404;
                     mret (addCorsHeaders r))) by solve_returns.
    apply Hnf.
Qed.

Lemma json_of_run text w : json_of text w = (json_outcome text, w).
Proof.
  unfold json_of, json_outcome, JSON_parse_M.
  destruct (JSON_parse text) as [v rest| | |]; try reflexivity.
  erewrite bind_returned; [|reflexivity]. by destruct (canonical v).
Qed.

Lemma pure_json_of text : pure_step (json_of text).
Proof. exists (json_outcome text). apply json_of_run. Qed.

Lemma pure_get_property v key : pure_step (get_property v key).
Proof. eexists. apply get_property_run. Qed.

Lemma pure_optional_property v key : pure_step (optional_property v key).
Proof. unfold optional_property. destruct v as [[]|]; solve_pure. Qed.

Ltac pure_more :=
  repeat first
    [ apply pure_json_of | apply pure_get_property | apply pure_optional_property
    | progress solve_pure ].

Lemma pure_getSpotifyErrorMessage statusText response :
  pure_step (getSpotifyErrorMessage statusText response).
Proof. unfold getSpotifyErrorMessage. pure_more. Qed.

Lemma getSpotifyErrorMessage_world statusText response w :
  (getSpotifyErrorMessage statusText response w).2 = w.
Proof.
  destruct (pure_getSpotifyErrorMessage statusText response) as [o Ho]. by rewrite Ho.
Qed.

Lemma never_throws_getSpotifyErrorMessage statusText response :
  never_throws (getSpotifyErrorMessage statusText response).
Proof. unfold getSpotifyErrorMessage. solve_never_throws. Qed.

Lemma optional_property_run v key w :
  v <> Some JNull ->
  optional_property v key w = (Returned (v ≫= fun v => member_of v key), w).
Proof. intros Hv. destruct v as [[]|]; done. Qed.

Lemma returns_truthy_getSpotifyErrorMessage statusText response :
  returns (fun message => truthy (Some message) = true)
    (getSpotifyErrorMessage statusText response).
Proof.
  unfold getSpotifyErrorMessage.
  intros w message w' H.
  apply bind_inv_returned in H as (found & w1 & Hfound & H).
  destruct found as [found|]; injection H as <- _; [|reflexivity].
  apply try_catch_inv_returned in Hfound as [Hfound|(e & w2 & _ & Hfound)]; [|done].
  apply bind_inv_returned in Hfound as (data & w2 & _ & Hfound).
  apply bind_inv_returned in Hfound as (error & w3 & _ & Hfound).
  apply bind_inv_returned in Hfound as (msg & w4 & _ & Hfound).
  destruct (truthy msg) eqn:Ht.
  - injection Hfound as <- _. by destruct msg.
  - apply bind_inv_returned in Hfound as (error_status & w5 & _ & Hfound).
    destruct error_status as [[| |[|[]|]| | |]|]; try done;
      repeat (match goal with H : context [match ?p with _ => _ end] |- _ => destruct p end;
              try done);
      by injection Hfound as <- _.
Qed.

(** X22.  [getSpotifyErrorMessage] does not touch the world, never throws
    and never returns a falsy message.  It returns [error.message] of the JSON
    body when that is truthy, and the text [Spotify API error: <status>
    <statusText>] when the body is not JSON. *)
Theorem getSpotifyErrorMessage_total
    (statusText : Response -> string) (response : Response) (w : World) :
  (getSpotifyErrorMessage statusText response w).2 = w
  /\ (forall e, (getSpotifyErrorMessage statusText response w).1 <> Thrown e)
  /\ (forall message,
        (getSpotifyErrorMessage statusText response w).1 = Returned message ->
        truthy (Some message) = true)
  /\ (forall data rest error message,
        JSON_parse (body response) = POk data rest ->
        canonical data = true ->
        member_of data "error" = Some error ->
        member_of error "message" = Some message ->
        truthy (Some message) = true ->
        (getSpotifyErrorMessage statusText response w).1 = Returned message)
  /\ (JSON_parse (body response) = PSyntaxError ->
        (getSpotifyErrorMessage statusText response w).1
        = Returned (JStr ("Spotify API error: " +:+ number_to_string (status response)
                            +:+ " " +:+ statusText response))).
Proof.
  split; [apply getSpotifyErrorMessage_world|].
  split; [intros e; apply never_throws_getSpotifyErrorMessage|].
  split.
  { intros message H.
    destruct (getSpotifyErrorMessage statusText response w) as [o w'] eqn:Hrun.
    simpl in H. subst o.
    by apply (returns_truthy_getSpotifyErrorMessage statusText response w message w'). }
  split.
  - intros data rest error message Hparse Hcanon Herror Hmessage Htruthy.
    unfold getSpotifyErrorMessage.
    assert (Hjson : json_of (body response) w = (Returned data, w)).
    { rewrite json_of_run. unfold json_outcome. by rewrite Hparse, Hcanon. }
    assert (Hget : get_property data "error" w = (Returned (Some error), w)).
    { rewrite get_property_run, Herror. by destruct data. }
    assert (Hopt : optional_property (Some error) "message" w = (Returned (Some message), w)).
    { rewrite optional_property_run by (intros [= ->]; done).
      cbn [mbind option_bind]. by rewrite Hmessage. }
    erewrite bind_returned; cycle 1.
    { erewrite try_catch_returned; [reflexivity|].
      erewrite bind_returned; [|exact Hjson].
      erewrite bind_returned; [|exact Hget].
      erewrite bind_returned; [|exact Hopt].
      rewrite Htruthy. reflexivity. }
    reflexivity.
  - intros Hparse. unfold getSpotifyErrorMessage.
    erewrite bind_returned; cycle 1.
    { erewrite try_catch_thrown; [reflexivity|].
      erewrite bind_thrown; [reflexivity|]. rewrite json_of_run.
      unfold json_outcome. by rewrite Hparse. }
    reflexivity.
Qed.

Section throws_only.
Context {A B : Type} (P : JsError -> Prop).

Lemma throws_only_never (m : M A) : never_throws m -> throws_only P m.
Proof. intros H w e w' Hrun. specialize (H w e). rewrite Hrun in H. done. Qed.

Lemma throws_only_throw e : P e -> throws_only P (@throw A e).
Proof. by intros H w e' w' [= <- _]. Qed.

Lemma throws_only_bind (m : M A) (k : A -> M B) :
  throws_only P m -> (forall a, throws_only P (k a)) -> throws_only P (m ≫= k).
Proof.
  intros Hm Hk w e w' H. unfold mbind, M_bind in H.
  destruct (m w) as [[a|e'|] w1] eqn:Hrun.
  - by eapply Hk.
  - injection H as <- <-. by eapply Hm.
  - done.
Qed.

Lemma throws_only_try_catch (m : M A) (h : JsError -> M A) :
  (forall e, throws_only P (h e)) -> throws_only P (try_catch m h).
Proof.
  intros Hh w e w' H. unfold try_catch in H.
  destruct (m w) as [[a|e'|] w1] eqn:Hrun; [done| |done]. by eapply Hh.
Qed.
End throws_only.

Lemma fetch_throws url init : throws_only (fun e => e = NetworkError) (fetch url init).
Proof.
  intros w e w' H.
  destruct w as [? ? ? ? ? ? [|[|r] later] ?];
    cbv [fetch log next_api_reply mbind M_bind api] in H; by simplify_eq.
Qed.

Lemma spotifyFetch_throws path options env :
  throws_only fetch_error (spotifyFetch path options env).
Proof.
  assert (Hfetch : forall url init, throws_only fetch_error (fetch url init)).
  { intros url init w e w' H. right. by eapply fetch_throws. }
  unfold spotifyFetch.
  apply throws_only_bind; [apply throws_only_never, never_throws_getAccessToken|].
  intros accessToken. destruct (negb _); [apply throws_only_throw; by left|].
  cbv zeta. apply throws_only_bind; [apply Hfetch|].
  intros response. destruct (status response =? 401);
    [|apply throws_only_never, never_throws_ret].
  apply throws_only_bind; [apply throws_only_never, never_throws_readTokens|].
  intros [tokens|]; [|apply throws_only_never, never_throws_ret].
  apply throws_only_bind.
  { apply throws_only_try_catch. intros e. apply throws_only_never, never_throws_ret. }
  intros [refreshedToken|]; [apply Hfetch|apply throws_only_never, never_throws_ret].
Qed.

Lemma retryTransfer_throws P (makeRequest : M Response) :
  throws_only P makeRequest -> throws_only P (retryTransfer makeRequest).
Proof.
  intros Hm w e w' H.
  destruct (retry_attempts_outcome makeRequest [1; 2; 3] None w (Thrown e) w')
    as [|[w0 Hrun]]; [done|reflexivity|exact H|done|].
  by eapply Hm.
Qed.

Lemma spotifyFetch_throws_retry path options env :
  throws_only fetch_error (retryTransfer (spotifyFetch path options env)).
Proof. apply retryTransfer_throws, spotifyFetch_throws. Qed.

(** X13.  The only errors [spotifyFetch] throws are [No access token
    available] and the network error of one of its requests, and the same
    holds for [retryTransfer] around it: an error of the refresh or of the
    store never escapes. *)
Theorem spotifyFetch_errors
    (path : string) (options : RequestInit) (env : Env) (w : World) (e : JsError) :
  ((spotifyFetch path options env w).1 = Thrown e ->
     e = NoAccessTokenAvailable \/ e = NetworkError)
  /\ ((retryTransfer (spotifyFetch path options env) w).1 = Thrown e ->
        e = NoAccessTokenAvailable \/ e = NetworkError).
Proof.
  split.
  - intros H. destruct (spotifyFetch path options env w) as [o w'] eqn:Hrun.
    simpl in H. subst o. by eapply spotifyFetch_throws.
  - intros H. destruct (retryTransfer _ w) as [o w'] eqn:Hrun.
    simpl in H. subst o.
    by eapply (retryTransfer_throws fetch_error), Hrun; apply spotifyFetch_throws.
Qed.

(** X23.  [requireAuth] never throws.  When [readTokens] finds no usable
    record it answers 401 NOT_AUTHENTICATED and nothing else happens, so no
    network call is made; when there is a record but [getAccessToken] yields
    [null] it answers 401 TOKEN_REFRESH_FAILED; and it returns [null] only
    when [getAccessToken] returned a token that is not empty. *)
Theorem requireAuth_outcomes (env : Env) (w : World) :
  (forall e, (requireAuth env w).1 <> Thrown e)
  /\ ((readTokens env w).1 = Returned None ->
        requireAuth env w
        = (Returned (Some (addCorsHeaders
             (error_response "NOT_AUTHENTICATED"
                (JStr "Not connected. Visit /login to connect your Spotify account.") 401))),
           drop_kv_faults 1 w))
  /\ (forall tokens,
        (readTokens env w).1 = Returned (Some tokens) ->
        (getAccessToken env (drop_kv_faults 1 w)).1 = Returned None ->
        requireAuth env w
        = (Returned (Some (addCorsHeaders
             (error_response "TOKEN_REFRESH_FAILED"
                (JStr "Failed to refresh access token. Please visit /login to reconnect.")
                401))),
           (getAccessToken env (drop_kv_faults 1 w)).2))
  /\ (forall w',
        requireAuth env w = (Returned None, w') ->
        exists tokens token,
          (readTokens env w).1 = Returned (Some tokens)
          /\ token <> ""
          /\ getAccessToken env (drop_kv_faults 1 w) = (Returned (Some token), w')).
Proof.
  pose proof (readTokens_world env w) as Hw.
  split; [intros e; apply never_throws_requireAuth|].
  split; [|split].
  - intros Hnone. unfold requireAuth.
    erewrite bind_returned_1; [|exact Hnone]. rewrite Hw.
    by apply cors_jsonError_some.
  - intros tokens Hsome Hat. unfold requireAuth.
    erewrite bind_returned_1; [|exact Hsome]. rewrite Hw. cbv beta iota.
    erewrite bind_returned_1; [|exact Hat]. cbn [truthy_opt_string negb].
    by apply cors_jsonError_some.
  - intros w' Hrun. unfold requireAuth in Hrun.
    apply bind_inv_returned in Hrun as (tokens & w1 & Hread & Hrun).
    rewrite Hread in Hw. simpl in Hw. subst w1.
    destruct tokens as [tokens|].
    + apply bind_inv_returned in Hrun as (accessToken & w2 & Hat & Hrun).
      destruct accessToken as [token|]; cbn [truthy_opt_string negb] in Hrun.
      * destruct (truthy_string token) eqn:Ht; cbn [negb] in Hrun.
        -- injection Hrun as <-. exists tokens, token. rewrite Hread.
           repeat split; [by intros ->|done].
        -- apply bind_inv_returned in Hrun as (r & w3 & _ & Hrun). done.
      * apply bind_inv_returned in Hrun as (r & w3 & _ & Hrun). done.
    + apply bind_inv_returned in Hrun as (r & w3 & _ & Hrun). done.
Qed.

Lemma request_json_run text w :
  try_catch (json_of text) (fun _ => mret (JObj [])) w
  = (match json_outcome text with Thrown _ => Returned (JObj []) | o => o end, w).
Proof.
  unfold try_catch. rewrite json_of_run. by destruct (json_outcome text).
Qed.

Lemma json_outcome_ok text v rest :
  JSON_parse text = POk v rest -> canonical v = true -> json_outcome text = Returned v.
Proof. intros Hp Hc. unfold json_outcome. by rewrite Hp, Hc. Qed.

Lemma json_outcome_syntax_error text :
  JSON_parse text = PSyntaxError -> json_outcome text = Thrown SyntaxError.
Proof. intros Hp. unfold json_outcome. by rewrite Hp. Qed.

Lemma get_property_ok v key w :
  v <> JNull -> get_property v key w = (Returned (member_of v key), w).
Proof. intros H. rewrite get_property_run. by destruct v. Qed.

(** X24.  [handleTransfer] answers 400 INVALID_REQUEST [deviceId is
    required], leaving the world untouched, when the body is not JSON and when
    it is JSON without a non-empty string under [deviceId]; a body that is
    the JSON text [null] is answered 500 INTERNAL_ERROR. *)
Theorem handleTransfer_requires_deviceId
    (statusText : Response -> string) (request : Request) (env : Env) (w : World) :
  (JSON_parse (request_body request) = PSyntaxError
   \/ (exists body rest,
         JSON_parse (request_body request) = POk body rest
         /\ canonical body = true
         /\ body <> JNull
         /\ forall c deviceId, member_of body "deviceId" <> Some (JStr (String c deviceId))) ->
     handleTransfer statusText request env w
     = (Returned (addCorsHeaders
          (error_response "INVALID_REQUEST" (JStr "deviceId is required") 400)), w))
  /\ (forall rest,
        JSON_parse (request_body request) = POk JNull rest ->
        handleTransfer statusText request env w
        = (Returned (addCorsHeaders
             (error_response "INTERNAL_ERROR" (JStr "Failed to transfer playback") 500)), w)).
Proof.
  split.
  - intros Hbody. unfold handleTransfer.
    assert (Hjson : exists body,
              try_catch (json_of (request_body request)) (fun _ => mret (JObj [])) w
              = (Returned body, w)
              /\ body <> JNull
              /\ forall c deviceId,
                   member_of body "deviceId" <> Some (JStr (String c deviceId))).
    { rewrite request_json_run.
      destruct Hbody as [Hsyntax|(body & rest & Hparse & Hcanon & Hnull & Hid)].
      - rewrite (json_outcome_syntax_error _ Hsyntax). by exists (JObj []).
      - rewrite (json_outcome_ok _ _ _ Hparse Hcanon). by exists body. }
    destruct Hjson as (body & Hjson & Hnull & Hid).
    erewrite try_catch_returned; [reflexivity|].
    erewrite bind_returned; [|exact Hjson].
    erewrite bind_returned; [|by apply get_property_ok].
    erewrite bind_returned; [|by apply get_property_ok].
    destruct (member_of body "deviceId") as [[| | |[|c deviceId]| |]|] eqn:Hd;
      try (by apply cors_jsonError).
    by destruct (Hid c deviceId).
  - intros rest Hparse. unfold handleTransfer.
    erewrite (try_catch_thrown _ _ w TypeError w); [by apply cors_jsonError|].
    erewrite bind_returned; cycle 1.
    { rewrite request_json_run. by rewrite (json_outcome_ok _ JNull rest). }
    reflexivity.
Qed.

Lemma transfer_failure_run statusText response w :
  (status response = 403 ->
     transfer_failure statusText response w = (Returned premium_required, w))
  /\ (status response = 404 ->
        transfer_failure statusText response w = (Returned no_active_device, w))
  /\ (forall message,
        status response <> 403 -> status response <> 404 ->
        (getSpotifyErrorMessage statusText response w).1 = Returned message ->
        (body_status (status response) = true ->
           transfer_failure statusText response w
           = (Returned (spotify_error message (status response)), w))
        /\ (body_status (status response) = false ->
            exists e, transfer_failure statusText response w = (Thrown e, w)
                      /\ e <> SyntaxError)).
Proof.
  unfold transfer_failure, isPremiumRequiredError. split; [|split].
  - intros ->. cbn [Z.eqb Pos.eqb]. by apply cors_jsonError.
  - intros ->. cbn [Z.eqb Pos.eqb]. by apply cors_jsonError.
  - intros message H403 H404 Hmsg.
    destruct (Z.eqb_spec (status response) 403); [done|].
    destruct (Z.eqb_spec (status response) 404); [done|].
    erewrite bind_returned_1; [|exact Hmsg].
    rewrite getSpotifyErrorMessage_world. split; intros Hstatus.
    + by apply cors_jsonError.
    + destruct (jsonError_throws "SPOTIFY_ERROR" message (status response) w Hstatus)
        as (e & Hthrow & He).
      exists e. split; [|done]. by erewrite bind_thrown; [|exact Hthrow].
Qed.

Lemma devices_failure_run statusText response w :
  (status response = 403 ->
     devices_failure statusText response w = (Returned premium_required, w))
  /\ (forall message,
        status response <> 403 ->
        (getSpotifyErrorMessage statusText response w).1 = Returned message ->
        (body_status (status response) = true ->
           devices_failure statusText response w
           = (Returned (spotify_error message (status response)), w))
        /\ (body_status (status response) = false ->
            exists e, devices_failure statusText response w = (Thrown e, w))).
Proof.
  unfold devices_failure, isPremiumRequiredError. split.
  - intros ->. cbn [Z.eqb Pos.eqb]. by apply cors_jsonError.
  - intros message H403 Hmsg.
    destruct (Z.eqb_spec (status response) 403); [done|].
    erewrite bind_returned_1; [|exact Hmsg].
    rewrite getSpotifyErrorMessage_world. split; intros Hstatus.
    + by apply cors_jsonError.
    + destruct (jsonError_throws "SPOTIFY_ERROR" message (status response) w Hstatus)
        as (e & Hthrow & He).
      exists e. by erewrite bind_thrown; [|exact Hthrow].
Qed.

(** X25.  For a body with a device id, [handleTransfer] answers by the
    outcome of the retried transfer request: 200 for an ok response, 403
    PREMIUM_REQUIRED for 403, 404 NO_ACTIVE_DEVICE for 404, and 500
    INTERNAL_ERROR when the request throws.  For any other response that is
    not ok the answer depends on whether [new Response] takes the status of
    that response together with a body: with a status from 200 to 599 other
    than 304 the answer is SPOTIFY_ERROR with that status and the extracted
    message; with 304 or a status outside 200..599 [jsonError] throws inside
    the [try], and the answer is 500 INTERNAL_ERROR.  The world is the one
    the transfer request left. *)
Theorem handleTransfer_outcome
    (statusText : Response -> string) (request : Request) (env : Env) (w w' : World)
    (body : JValue) (rest deviceId : string) (o : Outcome Response) :
  JSON_parse (request_body request) = POk body rest ->
  canonical body = true ->
  member_of body "deviceId" = Some (JStr deviceId) ->
  deviceId <> "" ->
  retryTransfer
    (spotifyFetch "/me/player"
       (transfer_init (JStr deviceId) (default (JBool true) (member_of body "play"))) env) w
  = (o, w') ->
  match o with
  | Returned response =>
      (ok response = true ->
         handleTransfer statusText request env w
         = (Returned (addCorsHeaders
              (json_response 200
                 (JObj [("success", JBool true);
                        ("message", JStr "Playback transferred successfully")]))), w'))
      /\ (status response = 403 ->
            handleTransfer statusText request env w = (Returned premium_required, w'))
      /\ (status response = 404 ->
            handleTransfer statusText request env w = (Returned no_active_device, w'))
      /\ (forall message,
            ok response = false -> status response <> 403 -> status response <> 404 ->
            (getSpotifyErrorMessage statusText response w').1 = Returned message ->
            handleTransfer statusText request env w
            = (Returned
                 (if body_status (status response)
                  then spotify_error message (status response)
                  else addCorsHeaders
                         (error_response "INTERNAL_ERROR" (JStr "Failed to transfer playback")
                            500)),
               w'))
  | Thrown e =>
      handleTransfer statusText request env w
      = (Returned (addCorsHeaders
           (error_response "INTERNAL_ERROR" (JStr "Failed to transfer playback") 500)), w')
  | Unmodelled => handleTransfer statusText request env w = (Unmodelled, w')
  end.
Proof.
  intros Hparse Hcanon Hid Hne Hrun.
  assert (Hbody : body <> JNull) by (intros ->; done).
  destruct deviceId as [|c deviceId]; [done|].
  destruct o as [response|e|].
  - destruct (transfer_failure_run statusText response w') as (H403 & H404 & Hother).
    assert (Hgo : forall answer,
               (if negb (ok response) then transfer_failure statusText response
                else r ← jsonSuccess
                           (JObj [("success", JBool true);
                                  ("message", JStr "Playback transferred successfully")]);
                     mret (addCorsHeaders r)) w' = (Returned answer, w') ->
               handleTransfer statusText request env w = (Returned answer, w')).
    { intros answer Hanswer. unfold handleTransfer.
      erewrite try_catch_returned; [reflexivity|].
      erewrite bind_returned; cycle 1.
      { rewrite request_json_run. by rewrite (json_outcome_ok _ _ _ Hparse Hcanon). }
      erewrite bind_returned; [|by apply get_property_ok].
      erewrite bind_returned; [|by apply get_property_ok].
      rewrite Hid. erewrite bind_returned; [|exact Hrun]. exact Hanswer. }
    assert (Hnot_ok : status response = 403 \/ status response = 404 -> ok response = false).
    { unfold ok. intros [-> | ->]; reflexivity. }
    repeat split.
    + intros Hok. apply Hgo. by rewrite Hok.
    + intros Hs. apply Hgo. rewrite Hnot_ok by by left. by apply H403.
    + intros Hs. apply Hgo. rewrite Hnot_ok by by right. by apply H404.
    + intros message Hok Hs1 Hs2 Hmsg.
      destruct (Hother message Hs1 Hs2 Hmsg) as [Hbody_ok Hno_body].
      destruct (body_status (status response)) eqn:Hstatus.
      * apply Hgo. rewrite Hok. by apply Hbody_ok.
      * destruct (Hno_body eq_refl) as (e & Hthrow & He).
        unfold handleTransfer.
        erewrite (try_catch_thrown _ _ w e w').
        -- destruct e; try done; by apply cors_jsonError.
        -- erewrite bind_returned; cycle 1.
           { rewrite request_json_run. by rewrite (json_outcome_ok _ _ _ Hparse Hcanon). }
           erewrite bind_returned; [|by apply get_property_ok].
           erewrite bind_returned; [|by apply get_property_ok].
           rewrite Hid. erewrite bind_returned; [|exact Hrun]. by rewrite Hok.
  - assert (He : e <> SyntaxError).
    { destruct (spotifyFetch_throws_retry "/me/player"
                  (transfer_init (JStr (String c deviceId))
                     (default (JBool true) (member_of body "play"))) env w e w' Hrun)
        as [-> | ->]; done. }
    unfold handleTransfer.
    erewrite (try_catch_thrown _ _ w e w').
    + destruct e; try done; by apply cors_jsonError.
    + erewrite bind_returned; cycle 1.
      { rewrite request_json_run. by rewrite (json_outcome_ok _ _ _ Hparse Hcanon). }
      erewrite bind_returned; [|by apply get_property_ok].
      erewrite bind_returned; [|by apply get_property_ok].
      rewrite Hid. by erewrite bind_thrown; [|exact Hrun].
  - unfold handleTransfer.
    erewrite try_catch_unmodelled; [reflexivity|].
    erewrite bind_returned; cycle 1.
    { rewrite request_json_run. by rewrite (json_outcome_ok _ _ _ Hparse Hcanon). }
    erewrite bind_returned; [|by apply get_property_ok].
    erewrite bind_returned; [|by apply get_property_ok].
    rewrite Hid. by erewrite bind_unmodelled; [|exact Hrun].
Qed.

Lemma echo_devices_run devices w :
  echo_devices devices w
  = (match named_devices devices with
     | Some named => Returned (List.filter (fun d => is_echo_name (snd d)) named)
     | None => Thrown TypeError
     end, w).
Proof.
  induction devices as [|device devices IH]; [reflexivity|].
  cbn [echo_devices named_devices].
  assert (Hget : get_property device "name" w
                 = (match device with JNull => Thrown TypeError
                    | _ => Returned (member_of device "name") end, w))
    by apply get_property_run.
  destruct (member_of device "name") as [[| | |name| |]|] eqn:Hname;
    try (destruct device; first [by erewrite bind_thrown; [|exact Hget]
                                | by erewrite bind_returned; [|exact Hget]]).
  assert (Hnull : device <> JNull) by (intros ->; cbn in Hname; done).
  rewrite (bind_returned _ _ w (member_of device "name") w (get_property_ok _ _ _ Hnull)).
  rewrite Hname.
  destruct (named_devices devices) as [named|].
  - erewrite bind_returned; [|exact IH]. cbn [List.filter snd].
    fold (is_echo_name name). by destruct (is_echo_name name).
  - by erewrite bind_thrown; [|exact IH].
Qed.

Section devices.
Context (statusText : Response -> string) (env : Env).

(** What [handleGetDevices] and [handleTransferEcho] do with the answer to
    the device listing. *)
Lemma handleGetDevices_listing w o w1 :
  spotifyFetch "/me/player/devices" devices_init env w = (o, w1) ->
  handleGetDevices statusText env w
  = try_catch
      (response ← (fun w => (o, w));
       if negb (ok response) then devices_failure statusText response
       else
         data ← json_of (body response);
         devices ← get_property data "devices";
         r ← jsonSuccess
               (JObj [("devices", if truthy devices then default JNull devices else JArr [])]);
         mret (addCorsHeaders r))
      (fun error =>
         r ← jsonError "INTERNAL_ERROR" (JStr "Failed to fetch devices") 500;
         mret (addCorsHeaders r)) w1.
Proof.
  intros Hrun. unfold handleGetDevices, try_catch, mbind, M_bind. by rewrite Hrun.
Qed.

(** X26.  [handleGetDevices] answers by the outcome of the device
    listing: for an ok response with a JSON body, 200 with the [devices]
    member of that body, or an empty list when there is none; for an ok
    response whose body is not JSON, 500 INTERNAL_ERROR; 403 PREMIUM_REQUIRED
    for 403; and 500 INTERNAL_ERROR when the listing throws.  For any other
    response that is not ok the answer depends on whether [new Response]
    takes the status of that response together with a body: with a status
    from 200 to 599 other than 304 the answer is SPOTIFY_ERROR with that
    status; with 304 or a status outside 200..599 [jsonError] throws inside
    the [try], and the answer is 500 INTERNAL_ERROR. *)
Theorem handleGetDevices_outcome (w w1 : World) (o : Outcome Response) :
  spotifyFetch "/me/player/devices" devices_init env w = (o, w1) ->
  match o with
  | Returned response =>
      (forall data rest,
          ok response = true ->
          JSON_parse (body response) = POk data rest ->
          canonical data = true ->
          data <> JNull ->
          handleGetDevices statusText env w
          = (Returned (addCorsHeaders
               (json_response 200
                  (JObj [("devices",
                          if truthy (member_of data "devices")
                          then default JNull (member_of data "devices")
                          else JArr [])]))), w1))
      /\ (ok response = true ->
            JSON_parse (body response) = PSyntaxError ->
            handleGetDevices statusText env w
            = (Returned (addCorsHeaders
                 (error_response "INTERNAL_ERROR" (JStr "Failed to fetch devices") 500)),
               w1))
      /\ (status response = 403 ->
            handleGetDevices statusText env w = (Returned premium_required, w1))
      /\ (forall message,
            ok response = false -> status response <> 403 ->
            (getSpotifyErrorMessage statusText response w1).1 = Returned message ->
            handleGetDevices statusText env w
            = (Returned
                 (if body_status (status response)
                  then spotify_error message (status response)
                  else addCorsHeaders
                         (error_response "INTERNAL_ERROR" (JStr "Failed to fetch devices") 500)),
               w1))
  | Thrown e =>
      handleGetDevices statusText env w
      = (Returned (addCorsHeaders
           (error_response "INTERNAL_ERROR" (JStr "Failed to fetch devices") 500)), w1)
  | Unmodelled => handleGetDevices statusText env w = (Unmodelled, w1)
  end.
Proof.
  intros Hrun. rewrite (handleGetDevices_listing w o w1 Hrun).
  destruct o as [response|e|].
  - destruct (devices_failure_run statusText response w1) as (H403 & Hother).
    repeat split.
    + intros data rest Hok Hparse Hcanon Hnull.
      erewrite try_catch_returned; [reflexivity|].
      erewrite bind_returned; [|reflexivity]. rewrite Hok. cbn [negb].
      erewrite bind_returned;
        [|rewrite json_of_run; by rewrite (json_outcome_ok _ _ _ Hparse Hcanon)].
      erewrite bind_returned; [|by apply get_property_ok].
      reflexivity.
    + intros Hok Hparse.
      erewrite (try_catch_thrown _ _ w1 SyntaxError w1); [by apply cors_jsonError|].
      erewrite bind_returned; [|reflexivity]. rewrite Hok. cbn [negb].
      erewrite bind_thrown; [reflexivity|].
      rewrite json_of_run. by rewrite (json_outcome_syntax_error _ Hparse).
    + intros Hs.
      erewrite try_catch_returned; [reflexivity|].
      erewrite bind_returned; [|reflexivity].
      assert (Hok : ok response = false) by (unfold ok; by rewrite Hs).
      rewrite Hok. by apply H403.
    + intros message Hok Hs Hmsg.
      destruct (Hother message Hs Hmsg) as [Hbody_ok Hno_body].
      destruct (body_status (status response)) eqn:Hstatus.
      * erewrite try_catch_returned; [reflexivity|].
        erewrite bind_returned; [|reflexivity]. rewrite Hok. by apply Hbody_ok.
      * destruct (Hno_body eq_refl) as (e & Hthrow).
        erewrite (try_catch_thrown _ _ w1 e w1); [by apply cors_jsonError|].
        erewrite bind_returned; [|reflexivity]. by rewrite Hok.
  - erewrite (try_catch_thrown _ _ w1 e w1); [by apply cors_jsonError|]. reflexivity.
  - reflexivity.
Qed.
End devices.

Section echo.
Context (statusText : Response -> string) (env : Env).

Lemma handleTransferEcho_listed w response w1 data rest :
  spotifyFetch "/me/player/devices" devices_init env w = (Returned response, w1) ->
  ok response = true ->
  JSON_parse (body response) = POk data rest ->
  canonical data = true ->
  data <> JNull ->
  forall k handler,
    try_catch
      (devicesResponse ← spotifyFetch "/me/player/devices" devices_init env;
       if negb (ok devicesResponse) then devices_failure statusText devicesResponse
       else
         devicesData ← json_of (body devicesResponse);
         listed ← get_property devicesData "devices";
         k listed) handler w
    = try_catch (k (member_of data "devices")) handler w1.
Proof.
  intros Hrun Hok Hparse Hcanon Hnull k handler.
  unfold try_catch at 1 2.
  erewrite bind_returned; [|exact Hrun]. rewrite Hok. cbn [negb].
  erewrite bind_returned;
    [|rewrite json_of_run; by rewrite (json_outcome_ok _ _ _ Hparse Hcanon)].
  erewrite bind_returned; [|by apply get_property_ok].
  reflexivity.
Qed.

(** X27.  The target of [handleTransferEcho].  After an ok device
    listing: with no [devices] member, or with no device whose name contains
    [echo] or [dot] (in any case), the answer is 404 NO_ECHO_DEVICE; with two
    or more such devices it is 409 with exactly those devices; in both cases
    the world is the one after the listing, so no transfer request is sent.
    With exactly one such device the handler goes on to transfer playback to
    the id of that device.  A [devices] member that is not an array, or a
    device without a string under [name], is answered 500 INTERNAL_ERROR. *)
Theorem handleTransferEcho_selection
    (w w1 : World) (response : Response) (data : JValue) (rest : string) :
  spotifyFetch "/me/player/devices" devices_init env w = (Returned response, w1) ->
  ok response = true ->
  JSON_parse (body response) = POk data rest ->
  canonical data = true ->
  data <> JNull ->
  (truthy (member_of data "devices") = false ->
     handleTransferEcho statusText env w
     = (Returned (addCorsHeaders
          (error_response "NO_ECHO_DEVICE"
             (JStr "Wake your Echo, open Spotify, start playback once.") 404)), w1))
  /\ (forall devices named,
        member_of data "devices" = Some (JArr devices) ->
        named_devices devices = Some named ->
        match List.filter (fun d => is_echo_name (snd d)) named with
        | [] =>
            handleTransferEcho statusText env w
            = (Returned (addCorsHeaders
                 (error_response "NO_ECHO_DEVICE"
                    (JStr "Wake your Echo, open Spotify, start playback once.") 404)), w1)
        | [(targetDevice, name)] =>
            handleTransferEcho statusText env w
            = try_catch (transfer_to_echo statusText env targetDevice name)
                (fun error => mret echo_internal_error) w1
        | first :: second :: more =>
            handleTransferEcho statusText env w
            = (Returned (multiple_echo_devices (first :: second :: more)), w1)
        end)
  /\ (forall devices,
        member_of data "devices" = Some (JArr devices) ->
        named_devices devices = None ->
        handleTransferEcho statusText env w = (Returned echo_internal_error, w1))
  /\ (forall listed,
        member_of data "devices" = Some listed ->
        truthy (Some listed) = true ->
        (forall devices, listed <> JArr devices) ->
        handleTransferEcho statusText env w = (Returned echo_internal_error, w1)).
Proof.
  intros Hrun Hok Hparse Hcanon Hnull.
  assert (Hhandler : forall (m : M Response) w0,
            try_catch m
              (fun error =>
                 r ← jsonError "INTERNAL_ERROR"
                       (JStr "Failed to transfer playback to Echo Dot") 500;
                 mret (addCorsHeaders r)) w0
            = try_catch m (fun error => mret echo_internal_error) w0).
  { intros m w0. unfold try_catch. destruct (m w0) as [[a|e|] w2]; reflexivity. }
  assert (Hnone : forall w0,
            (r ← jsonError "NO_ECHO_DEVICE"
                   (JStr "Wake your Echo, open Spotify, start playback once.") 404;
             mret (addCorsHeaders r)) w0
            = (Returned (addCorsHeaders
                 (error_response "NO_ECHO_DEVICE"
                    (JStr "Wake your Echo, open Spotify, start playback once.") 404)), w0)).
  { intros w0. by apply cors_jsonError. }
  unfold handleTransferEcho.
  rewrite (handleTransferEcho_listed w response w1 data rest Hrun Hok Hparse Hcanon Hnull).
  rewrite Hhandler. cbv beta.
  split; [|split; [|split]].
  - intros Hfalsy. rewrite Hfalsy.
    erewrite try_catch_returned; [reflexivity|]. apply Hnone.
  - intros devices named Hlisted Hnamed. rewrite Hlisted. cbn [truthy].
    pose proof (echo_devices_run devices w1) as Hecho. rewrite Hnamed in Hecho.
    destruct (List.filter _ named) as [|[targetDevice name] [|second more]] eqn:Hfilter.
    + erewrite try_catch_returned; [reflexivity|].
      erewrite bind_returned; [|exact Hecho]. apply Hnone.
    + unfold try_catch. erewrite bind_returned; [|exact Hecho]. reflexivity.
    + erewrite try_catch_returned; [reflexivity|].
      erewrite bind_returned; [|exact Hecho]. cbv beta iota.
      erewrite bind_returned; [|by apply new_Response_body]. reflexivity.
  - intros devices Hlisted Hnamed. rewrite Hlisted. cbn [truthy].
    pose proof (echo_devices_run devices w1) as Hecho. rewrite Hnamed in Hecho.
    erewrite (try_catch_thrown _ _ w1 TypeError w1); [reflexivity|].
    by erewrite bind_thrown; [|exact Hecho].
  - intros listed Hlisted Htruthy Hshape. rewrite Hlisted, Htruthy.
    erewrite (try_catch_thrown _ _ w1 TypeError w1); [reflexivity|].
    erewrite bind_thrown; [reflexivity|].
    destruct listed; try reflexivity. by destruct (Hshape elems).
Qed.
End echo.

Section callback.
Context (page_text : Page -> string) (request : Request) (env : Env).

(** X28.  [handleCallback] answers 400 and leaves the world untouched,
    with no request to the token endpoint and nothing written, when the
    callback carries an [error] parameter, when [code] or [state] is missing
    or empty, and, provided the cookies of the request decode (to text of
    code points up to U+00FF), when the state cookie is missing or differs
    from the [state] parameter.  When [code] and [state] are there and a
    cookie has a malformed percent escape, so that [getStateCookie] raises a
    URIError, [handleCallback] answers nothing: the URIError escapes it, and
    the world is untouched as well. *)
Theorem handleCallback_rejects_without_effect (w : World) :
  (forall reason,
      URLSearchParams_get "error" (searchParams request) = Some reason -> reason <> "" ->
      handleCallback page_text request env w
      = (Returned (html_response 400 (page_text (AuthorizationFailedPage reason))), w))
  /\ (truthy_opt_string (URLSearchParams_get "error" (searchParams request)) = false ->
        truthy_opt_string (URLSearchParams_get "code" (searchParams request)) = false
        \/ truthy_opt_string (URLSearchParams_get "state" (searchParams request)) = false ->
        handleCallback page_text request env w
        = (Returned (html_response 400 (page_text MissingParametersPage)), w))
  /\ (forall received stored,
        truthy_opt_string (URLSearchParams_get "error" (searchParams request)) = false ->
        truthy_opt_string (URLSearchParams_get "code" (searchParams request)) = true ->
        URLSearchParams_get "state" (searchParams request) = Some received -> received <> "" ->
        getStateCookie request = DecodedOk stored ->
        stored <> Some received ->
        handleCallback page_text request env w
        = (Returned (html_response 400 (page_text InvalidStatePage)), w))
  /\ (truthy_opt_string (URLSearchParams_get "error" (searchParams request)) = false ->
        truthy_opt_string (URLSearchParams_get "code" (searchParams request)) = true ->
        truthy_opt_string (URLSearchParams_get "state" (searchParams request)) = true ->
        getStateCookie request = DecodeURIError ->
        handleCallback page_text request env w = (Thrown URIError, w)).
Proof.
  unfold handleCallback. cbv zeta. split; [|split; [|split]].
  - intros reason -> Hne. cbn [truthy_opt_string]. rewrite (truthy_string_ne _ Hne).
    by apply new_Response_body.
  - intros -> Hmissing.
    assert (Hc : negb (truthy_opt_string (URLSearchParams_get "code" (searchParams request)))
                 || negb (truthy_opt_string (URLSearchParams_get "state" (searchParams request))) = true).
    { destruct Hmissing as [-> | ->]; [done|]. apply orb_true_r. }
    rewrite Hc. by apply new_Response_body.
  - intros received stored -> -> -> Hne -> Hstored.
    cbn [truthy_opt_string]. rewrite (truthy_string_ne _ Hne). cbn [negb orb default
      from_option id].
    assert (Hv : validateState stored received = false).
    { unfold validateState. destruct stored as [s|]; [|done].
      destruct (String.eqb_spec s received); congruence. }
    rewrite Hv. by apply new_Response_body.
  - by intros -> -> -> ->.
Qed.

(** X29.  [handleCallback] after the state check.  When the code exchange
    returns a valid record and the write goes through, the answer is 200 with
    the header that clears the state cookie, and the namespace holds the
    record.  When the record is not valid (the reply lacked a token) or the
    write is rejected, the answer is 500 and the namespace is as it was; when
    the exchange throws, the answer is 500 with that error and the namespace
    is as it was. *)
Theorem handleCallback_exchanges_and_stores
    (w : World) (authorization received : string) :
  truthy_opt_string (URLSearchParams_get "error" (searchParams request)) = false ->
  URLSearchParams_get "code" (searchParams request) = Some authorization ->
  authorization <> "" ->
  URLSearchParams_get "state" (searchParams request) = Some received ->
  getStateCookie request = DecodedOk (Some received) ->
  (forall tokens w1,
      exchangeCodeForTokens authorization (template (SPOTIFY_REDIRECT_URI env)) env w
      = (Returned tokens, w1) ->
      valid_tokens tokens = true -> next_kv_fault w1 = false ->
      handleCallback page_text request env w
      = (Returned (connected_response (page_text SuccessPage)),
         after_put TOKENS_KEY (JSON_stringify (Tokens_to_JSON tokens)) w1)
      /\ stored (handleCallback page_text request env w).2 tokens)
  /\ (forall tokens w1,
        exchangeCodeForTokens authorization (template (SPOTIFY_REDIRECT_URI env)) env w
        = (Returned tokens, w1) ->
        valid_tokens tokens = false \/ next_kv_fault w1 = true ->
        (handleCallback page_text request env w).1
        = Returned (html_response 500 (page_text (ExchangeErrorPage FailedToSaveTokens)))
        /\ kv (handleCallback page_text request env w).2 = kv w)
  /\ (forall e w1,
        exchangeCodeForTokens authorization (template (SPOTIFY_REDIRECT_URI env)) env w
        = (Thrown e, w1) ->
        handleCallback page_text request env w
        = (Returned (html_response 500 (page_text (ExchangeErrorPage e))), w1)
        /\ kv w1 = kv w).
Proof.
  intros Herror Hcode Hne Hstate Hcookie.
  assert (Hreceived : received <> "").
  { intros ->. unfold getStateCookie in Hcookie.
    destruct (parseCookies _) as [cookies| |]; try done.
    cbn [dmap dbind] in Hcookie. injection Hcookie as Hcookie.
    unfold or_opt_string in Hcookie.
    destruct (truthy_opt_string (cookies !! "oauth_state")) eqn:Ht; [|done].
    by rewrite Hcookie in Ht. }
  assert (Hstart : handleCallback page_text request env w
            = try_catch
                (tokens ← exchangeCodeForTokens authorization
                            (template (SPOTIFY_REDIRECT_URI env)) env;
                 writeTokens tokens env;;
                 new_Response (Some (page_text SuccessPage)) 200
                   {[ "content-type" := "text/html"; "set-cookie" := clearStateCookie ]})
                (fun error =>
                   new_Response (Some (page_text (ExchangeErrorPage error))) 500
                     {[ "content-type" := "text/html" ]}) w).
  { unfold handleCallback. cbv zeta. rewrite Herror, Hcode, Hstate, Hcookie.
    cbn [truthy_opt_string]. rewrite (truthy_string_ne _ Hne), (truthy_string_ne _ Hreceived).
    cbn [negb orb default from_option id]. unfold validateState.
    by rewrite String.eqb_refl. }
  rewrite Hstart. clear Hstart.
  pose proof (exchangeCodeForTokens_store authorization (template (SPOTIFY_REDIRECT_URI env))
                env w) as Hkv.
  split; [|split].
  - intros tokens w1 Hrun Hvalid Hfault.
    assert (Hwhole : forall handler,
      try_catch
        (tokens ← exchangeCodeForTokens authorization
                    (template (SPOTIFY_REDIRECT_URI env)) env;
         writeTokens tokens env;;
         new_Response (Some (page_text SuccessPage)) 200
           {[ "content-type" := "text/html"; "set-cookie" := clearStateCookie ]}) handler w
      = (Returned (connected_response (page_text SuccessPage)),
         after_put TOKENS_KEY (JSON_stringify (Tokens_to_JSON tokens)) w1)).
    { intros handler. erewrite try_catch_returned; [reflexivity|].
      erewrite bind_returned; [|exact Hrun].
      erewrite bind_returned; [|by apply writeTokens_ok].
      by apply new_Response_body. }
    rewrite Hwhole. split; [done|]. apply stored_after_put.
  - intros tokens w1 Hrun Hbad.
    rewrite Hrun in Hkv. cbn [snd] in Hkv. injection Hkv as Hkv _.
    assert (Hwrite : exists w2, writeTokens tokens env w1 = (Thrown FailedToSaveTokens, w2)
                                /\ kv w2 = kv w1).
    { destruct (writeTokens_cases tokens env w1) as [(Hv & Hf & _)|(w2 & Hw & Hkv2 & _)].
      - destruct Hbad; congruence.
      - by exists w2. }
    destruct Hwrite as (w2 & Hwrite & Hkv2).
    erewrite (try_catch_thrown _ _ w FailedToSaveTokens w2).
    + rewrite new_Response_body by done. split; [done|]. cbn [snd]. congruence.
    + erewrite bind_returned; [|exact Hrun]. by erewrite bind_thrown; [|exact Hwrite].
  - intros e w1 Hrun.
    rewrite Hrun in Hkv. cbn [snd] in Hkv. injection Hkv as Hkv _.
    split; [|done].
    erewrite (try_catch_thrown _ _ w e w1); [by apply new_Response_body|].
    by erewrite bind_thrown; [|exact Hrun].
Qed.
End callback.

(* ===================================================================== *)
(** ** The further properties at work on sample inputs *)

Lemma getRetryDelayMs_delay_range_witness :
  getRetryDelayMs 2 (Some unavailable) empty_world = (Returned 700, empty_world)
  /\ 700 <= TRANSFER_RETRY_MAX_DELAY_MS.
Proof.
  assert (Hrun : getRetryDelayMs 2 (Some unavailable) empty_world
                 = (Returned 700, empty_world)) by reflexivity.
  split; [exact Hrun|].
  apply (getRetryDelayMs_delay_range 2 (Some unavailable) empty_world empty_world 700 Hrun).
Defined.

Lemma retryTransfer_sleep_budget_witness :
  preserves sleeps (fetch "/me/player" sample_init)
  /\ exists delays,
       sleeps (retryTransfer (fetch "/me/player" sample_init) flaky_world).2
       = (sleeps flaky_world ++ delays)%list
       /\ (length delays <= 2)%nat
       /\ Forall (fun delay => delay <= TRANSFER_RETRY_MAX_DELAY_MS) delays.
Proof.
  assert (Hquiet : preserves sleeps (fetch "/me/player" sample_init)) by frame.
  split; [exact Hquiet|].
  apply (retryTransfer_sleep_budget (fetch "/me/player" sample_init) flaky_world Hquiet).
Defined.

Lemma getAccessToken_null_or_nonempty_witness :
  (getAccessToken sample_env stale_world).1 = Returned (Some "A2") /\ "A2" <> "".
Proof.
  assert (Hrun : (getAccessToken sample_env stale_world).1 = Returned (Some "A2"))
    by (vm_compute; reflexivity).
  split; [exact Hrun|].
  apply (proj2 (getAccessToken_null_or_nonempty sample_env stale_world) "A2" Hrun).
Defined.

Lemma readTokens_absent_on_failure_witness :
  kv empty_world !! TOKENS_KEY = None
  /\ (readTokens sample_env empty_world).1 = Returned None.
Proof.
  split; [reflexivity|].
  destruct (readTokens_absent_on_failure sample_env empty_world) as (_ & _ & H).
  apply H. right; left. reflexivity.
Defined.

Lemma exchangeCodeForTokens_fails_loudly_witness :
  token_endpoint rejecting_world = [TokenHttp {| token_status := 400; token_json := None |}]
  /\ (exchangeCodeForTokens "c0de" "https://worker.example/callback" sample_env
        rejecting_world).1
     = Thrown (TokenExchangeFailed 400).
Proof.
  split; [reflexivity|].
  destruct (exchangeCodeForTokens_fails_loudly "c0de" "https://worker.example/callback"
              sample_env rejecting_world) as (_ & H & _).
  apply (H {| token_status := 400; token_json := None |} []); reflexivity.
Defined.

Lemma refreshAccessToken_adopts_new_refresh_token_witness :
  refreshAccessToken (Some "R1") sample_env rotating_world
  = (Returned {| access_token := Some "A2"; refresh_token := Some "R2";
                 expires_at := Int 1700003600 |},
     (refreshAccessToken (Some "R1") sample_env rotating_world).2)
  /\ refresh_token {| access_token := Some "A2"; refresh_token := Some "R2";
                      expires_at := Int 1700003600 |} = Some "R2".
Proof.
  assert (Hrun : refreshAccessToken (Some "R1") sample_env rotating_world
                 = (Returned {| access_token := Some "A2"; refresh_token := Some "R2";
                                expires_at := Int 1700003600 |},
                    (refreshAccessToken (Some "R1") sample_env rotating_world).2))
    by (vm_compute; reflexivity).
  split; [exact Hrun|].
  refine (proj1 (refreshAccessToken_adopts_new_refresh_token (Some "R1") sample_env
                   rotating_world _ _ _ [] _ "R2" eq_refl eq_refl eq_refl _ Hrun)).
  discriminate.
Defined.

Lemma getAccessToken_reuses_refreshed_token_witness :
  getAccessToken sample_env stale_world
  = (Returned (Some "A2"), (getAccessToken sample_env stale_world).2)
  /\ (getAccessToken sample_env (getAccessToken sample_env stale_world).2).1
     = Returned (Some "A2").
Proof.
  assert (Hread : readTokens sample_env stale_world
                  = (Returned (Some stale_tokens), drop_kv_faults 1 stale_world))
    by (vm_compute; reflexivity).
  assert (Hrun : getAccessToken sample_env stale_world
                 = (Returned (Some "A2"), (getAccessToken sample_env stale_world).2))
    by (vm_compute; reflexivity).
  split; [exact Hrun|].
  rewrite (getAccessToken_reuses_refreshed_token sample_env stale_world _ _ stale_tokens "A2"
             {| token_status := 200;
                token_json := Some {| data_access_token := Some "A2";
                                      data_refresh_token := None;
                                      data_expires_in := Some 3600 |} |}
             []
             {| data_access_token := Some "A2"; data_refresh_token := None;
                data_expires_in := Some 3600 |} Hread);
    [reflexivity|vm_compute; reflexivity|reflexivity|reflexivity
    |exact Hrun|reflexivity|vm_compute; reflexivity].
Defined.

Lemma spotifyFetch_without_token_witness :
  (getAccessToken sample_env empty_world).1 = Returned None
  /\ (spotifyFetch "/me/player" sample_init sample_env empty_world).1
     = Thrown NoAccessTokenAvailable.
Proof.
  assert (Hnone : (getAccessToken sample_env empty_world).1 = Returned None) by reflexivity.
  split; [exact Hnone|].
  by rewrite (proj1 (spotifyFetch_without_token "/me/player" sample_init sample_env
                       empty_world Hnone)).
Defined.

Lemma spotifyFetch_passes_through_witness :
  (spotifyFetch "/me/player" sample_init sample_env (answering_world unavailable)).1
  = Returned unavailable.
Proof.
  assert (Htoken : getAccessToken sample_env (answering_world unavailable)
                   = (Returned (Some "A1"),
                      (getAccessToken sample_env (answering_world unavailable)).2))
    by (vm_compute; reflexivity).
  rewrite (spotifyFetch_passes_through "/me/player" sample_init sample_env
             (answering_world unavailable) _
             (fetch (request_url "/me/player") (with_bearer sample_init (Some "A1"))
                (getAccessToken sample_env (answering_world unavailable)).2).2
             "A1" (Returned unavailable) Htoken).
  - reflexivity.
  - vm_compute; reflexivity.
  - intros response [= <-]. discriminate.
Defined.

Lemma spotifyFetch_retries_with_new_token_witness :
  (spotifyFetch "/me/player" sample_init sample_env retrying_world).1 = Returned success
  /\ stored (spotifyFetch "/me/player" sample_init sample_env retrying_world).2
       {| access_token := Some "A2"; refresh_token := Some "R1"; expires_at := Int 1700003600 |}.
Proof.
  set (wa := (getAccessToken sample_env retrying_world).2).
  set (wb := (fetch (request_url "/me/player") (with_bearer sample_init (Some "A1")) wa).2).
  set (wc := (readTokens sample_env wb).2).
  set (wd := (refreshAccessToken (Some "R1") sample_env wc).2).
  set (newTokens := {| access_token := Some "A2"; refresh_token := Some "R1";
                       expires_at := Int 1700003600 |}).
  set (we := (writeTokens newTokens sample_env wd).2).
  destruct (spotifyFetch_retries_with_new_token "/me/player" sample_init sample_env
              retrying_world wa wb wc wd we "A1" unauthorized fresh_tokens newTokens)
    as [Hrun Hstored]; try (vm_compute; reflexivity).
  rewrite Hrun. split; [vm_compute; reflexivity|].
  unfold stored in *. rewrite <- Hstored. vm_compute; reflexivity.
Defined.

Lemma generateState_url_safe_witness :
  length (replicate 32 "000"%char) = 32%nat
  /\ String.length (generateState (replicate 32 "000"%char)) = 43%nat.
Proof.
  split; [reflexivity|].
  apply (generateState_url_safe (replicate 32 "000"%char)). reflexivity.
Defined.

Lemma state_cookie_round_trip_witness :
  getStateCookie
    {| request_method := "GET"; pathname := "/callback"; searchParams := [];
       request_headers := {[ "cookie" := "oauth_state=" +:+ generateState ["a"%char] ]};
       request_body := "" |}
  = DecodedOk (Some (generateState ["a"%char])).
Proof.
  refine (proj1 (state_cookie_round_trip ["a"%char] _ _ _)); [discriminate|reflexivity].
Defined.

Lemma validateState_needs_cookie_witness :
  getStateCookie callback_request = DecodedOk (Some "abc")
  /\ Some "abc" = Some "abc" /\ "abc" <> "".
Proof.
  assert (Hget : getStateCookie callback_request = DecodedOk (Some "abc"))
    by (vm_compute; reflexivity).
  split; [exact Hget|].
  destruct (validateState_needs_cookie callback_request (Some "abc") "abc" Hget eq_refl)
    as (Hsame & Hne & _).
  by split.
Defined.

Lemma getStateCookie_malformed_cookie_witness :
  getStateCookie malformed_cookie_request = DecodeURIError
  \/ getStateCookie malformed_cookie_request = DecodeUnmodelled.
Proof.
  apply (getStateCookie_malformed_cookie malformed_cookie_request
           "oauth_state=abc; theme=100%" " theme=100%" "theme" ["100%"]).
  - reflexivity.
  - vm_compute. apply list_elem_of_further, list_elem_of_here.
  - reflexivity.
  - discriminate.
  - discriminate.
  - reflexivity.
Defined.

Lemma api_requires_automation_key_witness :
  (handleRequest sample_statusText sample_page_text [] keyless_request sample_env
     stale_world).1
  = Returned (addCorsHeaders
      (error_response "INVALID_AUTOMATION_KEY"
         (JStr "Invalid or missing X-Automation-Key header") 401)).
Proof.
  rewrite (api_requires_automation_key sample_statusText sample_page_text [] keyless_request
             sample_env stale_world); [reflexivity|reflexivity|discriminate|].
  intros key Hkey. discriminate Hkey.
Defined.

Lemma routes_never_throw_witness :
  (handleRequest sample_statusText sample_page_text [] transfer_request sample_env
     empty_world).1 <> Thrown TypeError.
Proof.
  apply (routes_never_throw sample_statusText sample_page_text [] transfer_request sample_env
           empty_world TypeError).
  left. discriminate.
Defined.

Lemma api_responses_carry_cors_witness :
  Headers_get
    (headers (addCorsHeaders
       (error_response "NOT_AUTHENTICATED"
          (JStr "Not connected. Visit /login to connect your Spotify account.") 401)))
    "Access-Control-Allow-Origin" = Some "*".
Proof.
  refine (proj1 (api_responses_carry_cors sample_statusText sample_page_text []
                   transfer_request sample_env empty_world
                   (handleRequest sample_statusText sample_page_text [] transfer_request
                      sample_env empty_world).2 _ eq_refl _)).
  vm_compute; reflexivity.
Defined.

Lemma getSpotifyErrorMessage_total_witness :
  JSON_parse (body unavailable) = PSyntaxError
  /\ (getSpotifyErrorMessage sample_statusText unavailable empty_world).1
     = Returned (JStr "Spotify API error: 503 ").
Proof.
  split; [reflexivity|].
  destruct (getSpotifyErrorMessage_total sample_statusText unavailable empty_world)
    as (_ & _ & _ & _ & H).
  by rewrite H.
Defined.

Lemma spotifyFetch_errors_witness :
  (spotifyFetch "/me/player" sample_init sample_env empty_world).1
  = Thrown NoAccessTokenAvailable
  /\ (NoAccessTokenAvailable = NoAccessTokenAvailable
      \/ NoAccessTokenAvailable = NetworkError).
Proof.
  assert (Hrun : (spotifyFetch "/me/player" sample_init sample_env empty_world).1
                 = Thrown NoAccessTokenAvailable) by reflexivity.
  split; [exact Hrun|].
  apply (proj1 (spotifyFetch_errors "/me/player" sample_init sample_env empty_world
                  NoAccessTokenAvailable) Hrun).
Defined.

Lemma requireAuth_outcomes_witness :
  (readTokens sample_env empty_world).1 = Returned None
  /\ (requireAuth sample_env empty_world).1
     = Returned (Some (addCorsHeaders
         (error_response "NOT_AUTHENTICATED"
            (JStr "Not connected. Visit /login to connect your Spotify account.") 401))).
Proof.
  assert (Hnone : (readTokens sample_env empty_world).1 = Returned None) by reflexivity.
  split; [exact Hnone|].
  destruct (requireAuth_outcomes sample_env empty_world) as (_ & H & _).
  by rewrite (H Hnone).
Defined.

Lemma handleTransfer_requires_deviceId_witness :
  JSON_parse (request_body keyless_request) = PSyntaxError
  /\ (handleTransfer sample_statusText keyless_request sample_env stale_world).1
     = Returned (addCorsHeaders
         (error_response "INVALID_REQUEST" (JStr "deviceId is required") 400)).
Proof.
  split; [reflexivity|].
  destruct (handleTransfer_requires_deviceId sample_statusText keyless_request sample_env
              stale_world) as [H _].
  rewrite H; [reflexivity|]. left. reflexivity.
Defined.

Lemma handleTransfer_outcome_witness :
  (handleTransfer sample_statusText transfer_request sample_env
     (answering_world {| status := 403; headers := ∅; body := "" |})).1
  = Returned premium_required
  /\ (handleTransfer sample_statusText transfer_request sample_env
        (answering_world not_modified)).1
     = Returned (addCorsHeaders
         (error_response "INTERNAL_ERROR" (JStr "Failed to transfer playback") 500)).
Proof.
  set (init := transfer_init (JStr "d1") (JBool true)).
  assert (Hparse : JSON_parse (request_body transfer_request)
                   = POk (JObj [("deviceId", JStr "d1")]) "") by (vm_compute; reflexivity).
  split.
  - set (answer := {| status := 403; headers := ∅; body := "" |}).
    set (w := answering_world answer).
    assert (Hrun : retryTransfer (spotifyFetch "/me/player" init sample_env) w
                   = (Returned answer,
                      (retryTransfer (spotifyFetch "/me/player" init sample_env) w).2))
      by (vm_compute; reflexivity).
    pose proof (handleTransfer_outcome sample_statusText transfer_request sample_env w
                  (retryTransfer (spotifyFetch "/me/player" init sample_env) w).2
                  (JObj [("deviceId", JStr "d1")]) "" "d1" (Returned answer)
                  Hparse eq_refl eq_refl) as H.
    cbv beta iota in H.
    destruct H as (_ & H403 & _); [discriminate|exact Hrun|].
    by rewrite H403.
  - set (w := answering_world not_modified).
    assert (Hrun : retryTransfer (spotifyFetch "/me/player" init sample_env) w
                   = (Returned not_modified,
                      (retryTransfer (spotifyFetch "/me/player" init sample_env) w).2))
      by (vm_compute; reflexivity).
    pose proof (handleTransfer_outcome sample_statusText transfer_request sample_env w
                  (retryTransfer (spotifyFetch "/me/player" init sample_env) w).2
                  (JObj [("deviceId", JStr "d1")]) "" "d1" (Returned not_modified)
                  Hparse eq_refl eq_refl) as H.
    cbv beta iota in H.
    destruct H as (_ & _ & _ & Hother); [discriminate|exact Hrun|].
    rewrite (Hother (JStr "Spotify API error: 304 "));
      [reflexivity|reflexivity|discriminate|discriminate|vm_compute; reflexivity].
Defined.

Lemma handleGetDevices_outcome_witness :
  (handleGetDevices sample_statusText sample_env (answering_world devices_listing)).1
  = Returned (addCorsHeaders
      (json_response 200 (JObj [("devices", JArr [kitchen_echo; laptop])])))
  /\ (handleGetDevices sample_statusText sample_env (answering_world not_modified)).1
     = Returned (addCorsHeaders
         (error_response "INTERNAL_ERROR" (JStr "Failed to fetch devices") 500)).
Proof.
  split.
  - set (w := answering_world devices_listing).
    assert (Hrun : spotifyFetch "/me/player/devices" devices_init sample_env w
                   = (Returned devices_listing,
                      (spotifyFetch "/me/player/devices" devices_init sample_env w).2))
      by (vm_compute; reflexivity).
    pose proof (handleGetDevices_outcome sample_statusText sample_env w _
                  (Returned devices_listing) Hrun) as H.
    cbv beta iota in H. destruct H as (Hok & _).
    rewrite (Hok (JObj [("devices", JArr [kitchen_echo; laptop])]) "");
      [reflexivity|reflexivity|vm_compute; reflexivity|reflexivity|discriminate].
  - set (w := answering_world not_modified).
    assert (Hrun : spotifyFetch "/me/player/devices" devices_init sample_env w
                   = (Returned not_modified,
                      (spotifyFetch "/me/player/devices" devices_init sample_env w).2))
      by (vm_compute; reflexivity).
    pose proof (handleGetDevices_outcome sample_statusText sample_env w _
                  (Returned not_modified) Hrun) as H.
    cbv beta iota in H. destruct H as (_ & _ & _ & Hother).
    rewrite (Hother (JStr "Spotify API error: 304 "));
      [reflexivity|reflexivity|discriminate|vm_compute; reflexivity].
Defined.

Lemma handleTransferEcho_selection_witness :
  handleTransferEcho sample_statusText sample_env (answering_world devices_listing)
  = try_catch (transfer_to_echo sample_statusText sample_env kitchen_echo "Kitchen Echo")
      (fun error => mret echo_internal_error)
      (spotifyFetch "/me/player/devices" devices_init sample_env
         (answering_world devices_listing)).2.
Proof.
  set (w := answering_world devices_listing).
  assert (Hrun : spotifyFetch "/me/player/devices" devices_init sample_env w
                 = (Returned devices_listing,
                    (spotifyFetch "/me/player/devices" devices_init sample_env w).2))
    by (vm_compute; reflexivity).
  destruct (handleTransferEcho_selection sample_statusText sample_env w _ devices_listing
              (JObj [("devices", JArr [kitchen_echo; laptop])]) "" Hrun)
    as (_ & Hselect & _);
    [reflexivity|vm_compute; reflexivity|reflexivity|discriminate|].
  apply (Hselect [kitchen_echo; laptop]
           [(kitchen_echo, "Kitchen Echo"); (laptop, "Laptop")] eq_refl eq_refl).
Defined.

Lemma handleCallback_rejects_without_effect_witness :
  getStateCookie forged_callback_request = DecodedOk (Some "abc")
  /\ handleCallback sample_page_text forged_callback_request sample_env first_login_world
     = (Returned (html_response 400 (sample_page_text InvalidStatePage)), first_login_world)
  /\ getStateCookie malformed_cookie_request = DecodeURIError
  /\ handleCallback sample_page_text malformed_cookie_request sample_env first_login_world
     = (Thrown URIError, first_login_world).
Proof.
  assert (Hget : getStateCookie forged_callback_request = DecodedOk (Some "abc"))
    by (vm_compute; reflexivity).
  assert (Hbad : getStateCookie malformed_cookie_request = DecodeURIError)
    by (vm_compute; reflexivity).
  split; [exact Hget|]. split; [|split; [exact Hbad|]].
  - refine (proj1 (proj2 (proj2 (handleCallback_rejects_without_effect sample_page_text
                                   forged_callback_request sample_env first_login_world)))
              "xyz" (Some "abc") eq_refl eq_refl eq_refl _ Hget _); discriminate.
  - exact (proj2 (proj2 (proj2 (handleCallback_rejects_without_effect sample_page_text
                                  malformed_cookie_request sample_env first_login_world)))
             eq_refl eq_refl eq_refl Hbad).
Defined.

Lemma handleCallback_exchanges_and_stores_witness :
  (handleCallback sample_page_text callback_request sample_env first_login_world).1
  = Returned (connected_response (sample_page_text SuccessPage))
  /\ stored (handleCallback sample_page_text callback_request sample_env first_login_world).2
       fresh_tokens.
Proof.
  assert (Hget : getStateCookie callback_request = DecodedOk (Some "abc"))
    by (vm_compute; reflexivity).
  assert (Hrun : exchangeCodeForTokens "c0de" (template (SPOTIFY_REDIRECT_URI sample_env))
                   sample_env first_login_world
                 = (Returned fresh_tokens,
                    (exchangeCodeForTokens "c0de" (template (SPOTIFY_REDIRECT_URI sample_env))
                       sample_env first_login_world).2))
    by (vm_compute; reflexivity).
  destruct (handleCallback_exchanges_and_stores sample_page_text callback_request sample_env
              first_login_world "c0de" "abc" eq_refl eq_refl) as (Hgood & _);
    [discriminate|reflexivity|exact Hget|].
  destruct (Hgood fresh_tokens _ Hrun eq_refl eq_refl) as [Hanswer Hstored].
  split; [by rewrite Hanswer|exact Hstored].
Defined.
